(** * Generative agents: memory stream, world perception and agent cycle

    A shallow embedding of [src/memory.js], [src/util.js] and
    [src/world.js] (the [World] and [Agent] classes), and the properties
    of the memory stream, of perception, of movement and of the cognitive
    cycle that the specification states about them.

    Conventions of the embedding.
    - A JavaScript number that is used as a count, an importance rating or
      a millisecond timestamp is a [Z] or a [nat]; a number that is a
      coordinate, a distance, a weight or a score is a real number [R],
      and [Math.sqrt] and [Math.log] are [sqrt] and [ln].  The recency
      of a record hangs on the rounding of doubles: there the quotient
      and [Math.pow] are the exact operations followed by the rounding
      to binary64 ([Double.round]).
    - A text is a [string] of 7-bit ASCII characters, and the RegExp
      classes [\p{L}], [\p{N}] and [\s] are read at their ASCII members.
    - A [Map] that the code iterates is an insertion-ordered association
      list ([JsMap]); the document-frequency [Map], which is only read and
      written by key, is a [gmap].
    - The decision gateway is an oracle: the value that [chatJSON] hands
      back ([null] when nothing parses) and the text that [chat] hands
      back are inputs of [step], [maybeReflect] and
      [_rateImportancePaperStyle]; building the request text is left
      out, and that there is a reply means that the request was built.
    - A [TypeError] raised by the code is an explicit [Throw] outcome that
      carries the state reached so far: the code reads a property of
      [null] or [undefined], calls [trim] on a value that is not a
      string, iterates a value that is not iterable, or converts an
      object to a string whose property [toString] cannot be called. *)

From Stdlib Require Import ZArith Reals Lra Lia.
From Stdlib Require Import Strings.Ascii Strings.String.
From Stdlib Require Import Sorting.Sorted Sorting.Permutation.
From stdpp Require Import gmap strings list pretty.

Local Open Scope Z_scope.

(** ** JavaScript strings and arrays *)

Module Js.

Definition code (c : ascii) : N := N_of_ascii c.

Definition is_upper (c : ascii) : bool := ((65 <=? code c) && (code c <=? 90))%N.
Definition is_lower (c : ascii) : bool := ((97 <=? code c) && (code c <=? 122))%N.
Definition is_digit (c : ascii) : bool := ((48 <=? code c) && (code c <=? 57))%N.

(** A character of 7-bit ASCII. *)
Definition is_ascii (c : ascii) : bool := (code c <? 128)%N.

(** [\s]: tab, line feed, vertical tab, form feed, carriage return, space. *)
Definition is_space (c : ascii) : bool :=
  (((9 <=? code c) && (code c <=? 13)) || (code c =? 32))%N.

(** [\p{L}] or [\p{N}]. *)
Definition is_letter_or_number (c : ascii) : bool :=
  is_upper c || is_lower c || is_digit c.

Definition lower_char (c : ascii) : ascii :=
  if is_upper c then ascii_of_N (code c + 32) else c.

Fixpoint toLowerCase (s : string) : string :=
  match s with
  | EmptyString => EmptyString
  | String c s' => String (lower_char c) (toLowerCase s')
  end.

(** [s.replace(/[cls]+/g, " ")]: every maximal run of characters of the
    class becomes one space. *)
Fixpoint replace_runs (cls : ascii -> bool) (s : string) : string :=
  match s with
  | EmptyString => EmptyString
  | String c s' =>
      if cls c then
        match s' with
        | String c' _ =>
            if cls c' then replace_runs cls s'
            else String " " (replace_runs cls s')
        | EmptyString => String " " EmptyString
        end
      else String c (replace_runs cls s')
  end.

Fixpoint trimStart (s : string) : string :=
  match s with
  | String c s' => if is_space c then trimStart s' else s
  | EmptyString => EmptyString
  end.

Fixpoint trimEnd (s : string) : string :=
  match s with
  | EmptyString => EmptyString
  | String c s' =>
      match trimEnd s' with
      | EmptyString => if is_space c then EmptyString else String c EmptyString
      | t => String c t
      end
  end.

Definition trim (s : string) : string := trimEnd (trimStart s).

(** [s.split(sep)] for a one-character separator. *)
Fixpoint split (sep : ascii) (s : string) : list string :=
  match s with
  | EmptyString => [EmptyString]
  | String c s' =>
      if Ascii.eqb c sep then EmptyString :: split sep s'
      else match split sep s' with
           | w :: ws => String c w :: ws
           | [] => [String c EmptyString]
           end
  end.

(** A relative index of [Array.prototype.slice] and
    [String.prototype.slice]: negative indices count from the end, and
    everything is clipped to [0 .. len]. *)
Definition rel_index (len : nat) (i : Z) : nat :=
  if i <? 0 then Z.to_nat (Z.max 0 (Z.of_nat len + i))
  else Z.to_nat (Z.min i (Z.of_nat len)).

(** [l.slice(start, stop)]; [stop = None] is the omitted argument. *)
Definition slice {A} (l : list A) (start : Z) (stop : option Z) : list A :=
  let len := length l in
  let s := rel_index len start in
  let e := match stop with Some j => rel_index len j | None => len end in
  take (e - s)%nat (drop s l).

Definition str_slice (s : string) (start : Z) (stop : option Z) : string :=
  string_of_list_ascii (slice (list_ascii_of_string s) start stop).

(** [Array.prototype.sort(cmp)] for a consistent comparator: the sort is
    stable, so the result is the one of a stable insertion sort.  [x],
    which comes first in the input, stays ahead of [y] unless
    [cmp x y > 0]. *)
Section Sort.
Context {A : Type} (cmp : A -> A -> R).

Fixpoint insert_sorted (x : A) (l : list A) : list A :=
  match l with
  | [] => [x]
  | y :: l' =>
      if Rlt_dec 0 (cmp x y) then y :: insert_sorted x l'
      else x :: y :: l'
  end.

Definition sort (l : list A) : list A := foldr insert_sorted [] l.
End Sort.

(** The comparator [(a, b) => f(b) - f(a)] of a descending sort by [f],
    and the order it sorts into: [a] may stand before [b]. *)
Definition descending {A} (f : A -> R) (a b : A) : R := (f b - f a)%R.
Definition before {A} (f : A -> R) (a b : A) : Prop := (f b <= f a)%R.

End Js.

(** An insertion-ordered [Map] with string keys. *)
Module JsMap.

Definition t (V : Type) : Type := list (string * V).

Fixpoint get {V} (m : t V) (k : string) : option V :=
  match m with
  | [] => None
  | (k', v) :: m' => if decide (k = k') then Some v else get m' k
  end.

(** [m.set(k, v)]: an existing key keeps its place in the order. *)
Fixpoint set {V} (k : string) (v : V) (m : t V) : t V :=
  match m with
  | [] => [(k, v)]
  | (k', v') :: m' =>
      if decide (k = k') then (k', v) :: m' else (k', v') :: set k v m'
  end.

Definition keys {V} (m : t V) : list string := m.*1.

End JsMap.

(** ** util.js *)

Module Util.

(** [clamp(v, lo, hi) = Math.max(lo, Math.min(hi, v))], on integers and
    on reals. *)
Definition clamp (v lo hi : Z) : Z := Z.max lo (Z.min hi v).
Definition clampR (v lo hi : R) : R := Rmax lo (Rmin hi v).

(** [dist(a, b, c, d) = Math.hypot(a - c, b - d)]. *)
Definition dist (a b c d : R) : R :=
  let dx := (a - c)%R in
  let dy := (b - d)%R in
  sqrt (dx * dx + dy * dy).

(** [uniq(arr) = Array.from(new Set(arr))]: the first occurrence of each
    element, in order. *)
Fixpoint uniq (arr : list string) : list string :=
  match arr with
  | [] => []
  | x :: arr' => x :: filter (λ y, y ≠ x) (uniq arr')
  end.

End Util.

(** ** Rounding to binary64

    The numbers of JavaScript are IEEE 754 doubles.  Where a result
    hangs on the rounding, the operation is the exact one followed by
    [round], the double nearest to a real number, ties going to the even
    neighbour: 53 significant bits down to the exponent [-1022], and
    multiples of [2^-1074] below.  The numbers that are rounded here
    stay far below [2^1024], where a double overflows. *)

Module Double.
Local Open Scope Z_scope.

(** [2^e]. *)
Definition pow2 (e : Z) : R := powerRZ 2 e.

(** The integer part of the binary logarithm of [x > 0]. *)
Definition ilog2 (x : R) : Z := Zfloor (ln x / ln 2).

(** The exponent of the last bit of the doubles around [x > 0]: 52 bits
    below the leading one, and [-1074] for the subnormal numbers. *)
Definition ulp_exponent (x : R) : Z := Z.max (ilog2 x) (-1022) - 52.

(** The integer nearest to [t], the even one of two that are equally
    near. *)
Definition nearest_even (t : R) : Z :=
  let f := Zfloor t in
  if Rlt_dec (t - IZR f) (1 / 2) then f
  else if Rlt_dec (1 / 2) (t - IZR f) then f + 1
  else if Z.even f then f else f + 1.

Definition round_pos (x : R) : R :=
  let e := ulp_exponent x in
  (IZR (nearest_even (x / pow2 e)) * pow2 e)%R.

(** The double nearest to [x]. *)
Definition round (x : R) : R :=
  if Rlt_dec 0 x then round_pos x
  else if Rlt_dec x 0 then (- round_pos (- x))%R
  else 0%R.

(** [Math.pow(x, y)] for [x > 0], taken as the power correctly
    rounded. *)
Definition pow (x y : R) : R := round (Rpower x y).

End Double.

(** ** memory.js *)

Module Memory.
Import Js.

Definition STOPWORDS : gset string := list_to_set [
  "the";"a";"an";"and";"or";"to";"of";"in";"on";"for";"with";"at";"from";"by";"as";"is";"are";"was";"were";"be";
  "i";"you";"he";"she";"they";"we";"me";"my";"your";"his";"her";"their";"our";
  "this";"that";"it";"its";"there";"here";"then";"so";"but"
]%string.

Definition keep_token (t : string) : bool :=
  negb (bool_decide (t = EmptyString))
  && negb (bool_decide (t ∈ STOPWORDS))
  && bool_decide (2 <= String.length t)%nat.

(** [tokenize], for a text of 7-bit ASCII characters: there [\p{L}] and
    [\p{N}] are the ASCII letters and digits, [\s] is the ASCII white
    space, [toLowerCase] changes the capital letters only, and the
    replacement of the ideographic space U+3000 changes nothing.  A
    character beyond ASCII is taken for punctuation here, whereas the
    code keeps it when it is a letter or a number. *)
Definition tokenize (text : string) : list string :=
  let cleaned :=
    trim
      (replace_runs is_space
         (replace_runs (λ c, negb (is_letter_or_number c || is_space c))
            (toLowerCase text))) in
  if bool_decide (cleaned = EmptyString) then []
  else
    let raw := split " " cleaned in
    List.filter keep_token raw.

(** [for (const t of tokens) tf.set(t, (tf.get(t) ?? 0) + 1)]. *)
Definition count_tf (tokens : list string) : JsMap.t nat :=
  foldl (λ tf t, JsMap.set t (default 0 (JsMap.get tf t) + 1)%nat tf) [] tokens.

(** The loop over [vecA] in [cosineSparse], which sums [dot] and
    [normA]. *)
Definition dot_and_norm (vecB : JsMap.t R) (start : R * R) (vecA : JsMap.t R)
    : R * R :=
  foldl (λ '(dot, normA) '(k, wa),
           let normA := (normA + wa * wa)%R in
           match JsMap.get vecB k with
           | Some wb => ((dot + wa * wb)%R, normA)
           | None => (dot, normA)
           end) start vecA.

(** The squared norm of a weight vector, as the loop over [vecB] sums
    it. *)
Definition norm2 (vec : JsMap.t R) : R :=
  foldl (λ norm '(_, w), (norm + w * w)%R) 0%R vec.

(** [cosineSparse], with the sums, the products and the quotient taken
    exactly; the doubles that the code computes differ from them in the
    last places. *)
Definition cosineSparse (vecA vecB : JsMap.t R) : R :=
  let '(dot, normA) := dot_and_norm vecB (0%R, 0%R) vecA in
  let normB := norm2 vecB in
  if Req_dec_T normA 0 then 0%R
  else if Req_dec_T normB 0 then 0%R
  else (dot / (sqrt normA * sqrt normB))%R.

Record MemoryRecord := {
  id : string;
  time : Z;
  text : string;
  importance : Z;
  type : string;
  tokens : list string;
  tf : JsMap.t nat
}.

(** The constructor of [MemoryRecord]; every caller passes [importance]
    and [type]. *)
Definition new_MemoryRecord (id : string) (time : Z) (text : string)
    (importance : Z) (type : string) : MemoryRecord :=
  let tokens := tokenize text in
  {| id := id; time := time; text := text; importance := importance;
     type := type; tokens := tokens; tf := count_tf tokens |}.

Record MemoryStream := {
  records : list MemoryRecord;
  _df : gmap string nat
}.

Definition new_MemoryStream : MemoryStream := {| records := []; _df := ∅ |}.

Definition df_incr (df : gmap string nat) (t : string) : gmap string nat :=
  <[t := (default 0 (df !! t) + 1)%nat]> df.

Definition add (record : MemoryRecord) (s : MemoryStream) : MemoryStream :=
  {| records := records s ++ [record];
     _df := foldl df_incr (_df s) (Util.uniq (tokens record)) |}.

(** [this._df.get(token) ?? 0]. *)
Definition df_of (s : MemoryStream) (token : string) : nat :=
  default 0%nat (_df s !! token).

Definition _idf (s : MemoryStream) (token : string) : R :=
  let N := match length (records s) with O => 1%nat | n => n end in
  let df := df_of s token in
  (ln ((INR N + 1) / (INR df + 1)) + 1)%R.

Definition _tfidf (s : MemoryStream) (tfMap : JsMap.t nat) : JsMap.t R :=
  foldl (λ out '(t, tf), JsMap.set t (INR tf * _idf s t)%R out) [] tfMap.

Record Scored := {
  sc_rec : MemoryRecord;
  sc_score : R;
  sc_relevance : R;
  sc_recency : R;
  sc_importance : R
}.

(** [types && !types.includes(rec.type)] is the test that skips a
    record. *)
Definition eligible (types : option (list string)) (rec : MemoryRecord) : bool :=
  match types with
  | None => true
  | Some ts => bool_decide (type rec ∈ ts)
  end.

(** [Math.max(0, (now.getTime() - rec.time.getTime()) / 3600000)]: the
    difference of the two timestamps is exact, the quotient is
    rounded. *)
Definition elapsed_hours (now : Z) (rec : MemoryRecord) : R :=
  Rmax 0 (Double.round (IZR (now - time rec) / 3600000)).

(** [Math.pow(0.99, hours)]; the literal [0.99] is the double nearest to
    it. *)
Definition recency_of (now : Z) (rec : MemoryRecord) : R :=
  let hours := elapsed_hours now rec in
  Double.pow (Double.round 0.99) hours.

Definition score_record (s : MemoryStream) (qVec : JsMap.t R) (now : Z)
    (rec : MemoryRecord) : Scored :=
  let mVec := _tfidf s (tf rec) in
  let relevance := cosineSparse qVec mVec in
  let recency := recency_of now rec in
  let importance := (Rmax 1 (Rmin 10 (IZR (importance rec))) / 10)%R in
  let score := (relevance + recency + importance)%R in
  {| sc_rec := rec; sc_score := score; sc_relevance := relevance;
     sc_recency := recency; sc_importance := importance |}.

Definition query_vector (s : MemoryStream) (query : string) : JsMap.t R :=
  _tfidf s (count_tf (tokenize query)).

(** The array [scored] before it is sorted. *)
Definition scored_of (s : MemoryStream) (query : string) (now : Z)
    (types : option (list string)) : list Scored :=
  let qVec := query_vector s query in
  score_record s qVec now <$> List.filter (eligible types) (records s).

Definition retrieve (s : MemoryStream) (query : string) (now : Z) (k : Z)
    (types : option (list string)) : list Scored :=
  let scored := scored_of s query now types in
  slice (sort (descending sc_score) scored) 0 (Some k).

Definition recent (s : MemoryStream) (n : Z) : list MemoryRecord :=
  slice (records s) (- n) None.

(** No token is counted in more records than there are: so it is in every
    stream that was filled by [add]. *)
Definition counts_bounded (s : MemoryStream) : Prop :=
  forall t, (df_of s t <= length (records s))%nat.

Definition weights_nonneg (vec : JsMap.t R) : Prop :=
  Forall (λ kv, (0 <= kv.2)%R) vec.

(** The calls that a client makes on a stream, and what each leaves
    behind and hands back. *)
Inductive call :=
| CallAdd (record : MemoryRecord)
| CallRetrieve (query : string) (now k : Z) (types : option (list string))
| CallRecent (n : Z).

Inductive result :=
| Nothing
| Ranked (scored : list Scored)
| Records (recs : list MemoryRecord).

Definition exec (c : call) (s : MemoryStream) : MemoryStream * result :=
  match c with
  | CallAdd record => (add record s, Nothing)
  | CallRetrieve query now k types => (s, Ranked (retrieve s query now k types))
  | CallRecent n => (s, Records (recent s n))
  end.

Definition exec_all (cs : list call) (s : MemoryStream) : MemoryStream :=
  foldl (λ s c, fst (exec c s)) s cs.

End Memory.

(** ** Values handed back by the gateway

    What [JSON.parse] can return, together with [undefined], which the
    code meets when it reads a property that is not there.  A number
    that is an integer of at most [2^53] in magnitude, which JavaScript
    holds exactly and prints digit by digit, is [Num]; any other number
    (a fraction, an integer beyond [2^53], one printed with an exponent)
    is [Float] and comes with the text that [String] prints for it:
    [1e21] is [Float "1e+21"] and [7.5] is [Float "7.5"].  Such a number
    is never zero. *)

Module Json.
Import Js.

#[local] Unset Elimination Schemes.
Inductive val :=
| Undefined
| Null
| Bool (b : bool)
| Num (z : Z)
| Float (text : string)
| Str (s : string)
| Arr (l : list val)
| Obj (kvs : list (string * val)).
#[local] Set Elimination Schemes.

(** ToBoolean. *)
Definition truthy (v : val) : bool :=
  match v with
  | Undefined | Null => false
  | Bool b => b
  | Num z => negb (z =? 0)
  | Float _ => true
  | Str s => negb (bool_decide (s = EmptyString))
  | Arr _ | Obj _ => true
  end.

(** [a || b] and [a ?? b]. *)
Definition or_else (a b : val) : val := if truthy a then a else b.
Definition nullish_else (a b : val) : val :=
  match a with Undefined | Null => b | _ => a end.

(** An own property of a parsed object; a repeated key keeps its last
    value. *)
Fixpoint own_prop (kvs : list (string * val)) (key : string) : val :=
  match kvs with
  | [] => Undefined
  | (k, v) :: kvs' =>
      match own_prop kvs' key with
      | Undefined => if decide (k = key) then v else Undefined
      | found => found
      end
  end.

(** [v.key] for the property names that the code reads ([thought],
    [memories], [text], [insights], [length], ...): [None] is the
    TypeError of reading a property of [null] or [undefined]. *)
Definition get_prop (v : val) (key : string) : option val :=
  match v with
  | Undefined | Null => None
  | Obj kvs => Some (own_prop kvs key)
  | Arr l =>
      Some (if decide (key = "length") then Num (Z.of_nat (length l)) else Undefined)
  | Str s =>
      Some (if decide (key = "length") then Num (Z.of_nat (String.length s)) else Undefined)
  | Bool _ | Num _ | Float _ => Some Undefined
  end.

(** [v?.key]. *)
Definition get_prop_opt (v : val) (key : string) : val :=
  default Undefined (get_prop v key).

(** ToString, as [String(v)], [parseInt] and template literals apply
    it; [None] is the TypeError that it raises.  An object is printed by
    [Object.prototype.toString] unless it has a property [toString] of
    its own: what [JSON.parse] puts there cannot be called, and the
    conversion raises.  An array is printed by [join], which converts
    its elements in turn and raises when one of them does. *)
Fixpoint toString (v : val) : option string :=
  match v with
  | Undefined => Some "undefined"
  | Null => Some "null"
  | Bool true => Some "true"
  | Bool false => Some "false"
  | Num z => Some (pretty z)
  | Float text => Some text
  | Str s => Some s
  | Arr l =>
      (fix join (l : list val) : option string :=
         match l with
         | [] => Some ""
         | e :: l' =>
             let here := match e with
                         | Undefined | Null => Some ""
                         | _ => toString e
                         end in
             match here, l' with
             | None, _ => None
             | Some here, [] => Some here
             | Some here, _ =>
                 match join l' with
                 | Some rest => Some (here +:+ "," +:+ rest)
                 | None => None
                 end
             end
         end) l
  | Obj kvs =>
      if bool_decide ("toString" ∈ kvs.*1) then None else Some "[object Object]"
  end.

Fixpoint leading_digits (s : string) : string :=
  match s with
  | String c s' => if is_digit c then String c (leading_digits s') else EmptyString
  | EmptyString => EmptyString
  end.

Fixpoint digits_value (acc : Z) (ds : string) : Z :=
  match ds with
  | String c ds' => digits_value (acc * 10 + (Z.of_N (code c) - 48)) ds'
  | EmptyString => acc
  end.

(** [parseInt(s, 10)]: leading white space, an optional sign, then the
    longest run of decimal digits; [None] is [NaN]. *)
Definition parseInt_string (s : string) : option Z :=
  let s := trimStart s in
  let '(sign, s) :=
    match s with
    | String c s' =>
        if Ascii.eqb c "-" then (-1, s')
        else if Ascii.eqb c "+" then (1, s')
        else (1, s)
    | EmptyString => (1, s)
    end in
  match leading_digits s with
  | EmptyString => None
  | ds => Some (sign * digits_value 0 ds)
  end.

(** [parseInt(v, 10)]: the outer [None] is the TypeError of a [v] that
    cannot be converted, the inner one is [NaN]. *)
Definition parseInt (v : val) : option (option Z) :=
  parseInt_string <$> toString v.

(** [n || dflt] for a number [n] that may be [NaN]. *)
Definition number_or (n : option Z) (dflt : Z) : Z :=
  match n with
  | Some z => if z =? 0 then dflt else z
  | None => dflt
  end.

(** [s.match(/(\d+)/)]: the first maximal run of digits, if any. *)
Fixpoint match_digits (s : string) : option string :=
  match s with
  | EmptyString => None
  | String c s' => if is_digit c then Some (leading_digits s) else match_digits s'
  end.

(** [v === s] for a string [s]. *)
Definition is_string (v : val) (s : string) : bool :=
  match v with
  | Str s' => bool_decide (s' = s)
  | _ => false
  end.

(** [v.trim()]: only a string has the method. *)
Definition trim_val (v : val) : option string :=
  match v with
  | Str s => Some (trim s)
  | _ => None
  end.

(** The values that [for (const x of v)] runs over; [None] is the
    TypeError of a value that is not iterable. *)
Definition iterate (v : val) : option (list val) :=
  match v with
  | Arr l => Some l
  | Str s => Some ((λ c, Str (String c EmptyString)) <$> list_ascii_of_string s)
  | _ => None
  end.

End Json.

(** The two ways a method ends: it returns, or it raises and leaves the
    state as it was at that point. *)
Inductive outcome (S : Type) : Type :=
| Done (s : S)
| Throw (s : S).
Arguments Done {S} s.
Arguments Throw {S} s.

Definition outcome_state {S} (o : outcome S) : S :=
  match o with Done s | Throw s => s end.

Definition bind {S} (o : outcome S) (k : S -> outcome S) : outcome S :=
  match o with
  | Done s => k s
  | Throw s => Throw s
  end.

(** ** world.js: the fields of an agent

    The record of [class Agent].  The daily plan and the two transcript
    fields ([lastRetrievedMemoriesText], [lastPromptText]) only feed the
    request text and the side panel, and are left out. *)

Module AgentState.

Record Dest := {
  dest_x : R;
  dest_y : R;
  dest_placeId : string;
  dest_placeName : string
}.

Record t := {
  id : string;
  name : string;
  age : Z;
  title : string;
  traits : list string;
  bio : string;
  goals : list string;
  home : string;
  persona : string;
  seedMemory : string;
  x : R;
  y : R;
  dest : option Dest;
  speed : R;
  energy : Z;
  tickMinutes : Z;
  memory : Memory.MemoryStream;
  summary : Json.val;
  importanceSinceReflection : Z;
  currentAction : string;
  lastThought : Json.val
}.

(** The constructor of [Agent]. *)
Definition new_Agent (id name : string) (age : Z) (title : string)
    (traits : list string) (bio : string) (goals : list string)
    (home : string) (startX startY : R) (persona seedMemory : string) : t :=
  {| id := id; name := name; age := age; title := title; traits := traits;
     bio := bio; goals := goals; home := home; persona := persona;
     seedMemory := seedMemory; x := startX; y := startY; dest := None;
     speed := 1.3; energy := 100; tickMinutes := 10;
     memory := Memory.new_MemoryStream; summary := Json.Str "";
     importanceSinceReflection := 0; currentAction := "idle";
     lastThought := Json.Str "" |}.

Definition set_pos (x' y' : R) (a : t) : t :=
  {| id := id a; name := name a; age := age a; title := title a;
     traits := traits a; bio := bio a; goals := goals a; home := home a;
     persona := persona a; seedMemory := seedMemory a; x := x'; y := y';
     dest := dest a; speed := speed a; energy := energy a;
     tickMinutes := tickMinutes a; memory := memory a; summary := summary a;
     importanceSinceReflection := importanceSinceReflection a;
     currentAction := currentAction a; lastThought := lastThought a |}.

Definition set_dest (d : option Dest) (a : t) : t :=
  {| id := id a; name := name a; age := age a; title := title a;
     traits := traits a; bio := bio a; goals := goals a; home := home a;
     persona := persona a; seedMemory := seedMemory a; x := x a; y := y a;
     dest := d; speed := speed a; energy := energy a;
     tickMinutes := tickMinutes a; memory := memory a; summary := summary a;
     importanceSinceReflection := importanceSinceReflection a;
     currentAction := currentAction a; lastThought := lastThought a |}.

Definition set_energy (e : Z) (a : t) : t :=
  {| id := id a; name := name a; age := age a; title := title a;
     traits := traits a; bio := bio a; goals := goals a; home := home a;
     persona := persona a; seedMemory := seedMemory a; x := x a; y := y a;
     dest := dest a; speed := speed a; energy := e;
     tickMinutes := tickMinutes a; memory := memory a; summary := summary a;
     importanceSinceReflection := importanceSinceReflection a;
     currentAction := currentAction a; lastThought := lastThought a |}.

Definition set_memory (m : Memory.MemoryStream) (a : t) : t :=
  {| id := id a; name := name a; age := age a; title := title a;
     traits := traits a; bio := bio a; goals := goals a; home := home a;
     persona := persona a; seedMemory := seedMemory a; x := x a; y := y a;
     dest := dest a; speed := speed a; energy := energy a;
     tickMinutes := tickMinutes a; memory := m; summary := summary a;
     importanceSinceReflection := importanceSinceReflection a;
     currentAction := currentAction a; lastThought := lastThought a |}.

Definition set_summary (v : Json.val) (a : t) : t :=
  {| id := id a; name := name a; age := age a; title := title a;
     traits := traits a; bio := bio a; goals := goals a; home := home a;
     persona := persona a; seedMemory := seedMemory a; x := x a; y := y a;
     dest := dest a; speed := speed a; energy := energy a;
     tickMinutes := tickMinutes a; memory := memory a; summary := v;
     importanceSinceReflection := importanceSinceReflection a;
     currentAction := currentAction a; lastThought := lastThought a |}.

Definition set_importanceSinceReflection (n : Z) (a : t) : t :=
  {| id := id a; name := name a; age := age a; title := title a;
     traits := traits a; bio := bio a; goals := goals a; home := home a;
     persona := persona a; seedMemory := seedMemory a; x := x a; y := y a;
     dest := dest a; speed := speed a; energy := energy a;
     tickMinutes := tickMinutes a; memory := memory a; summary := summary a;
     importanceSinceReflection := n;
     currentAction := currentAction a; lastThought := lastThought a |}.

Definition set_currentAction (s : string) (a : t) : t :=
  {| id := id a; name := name a; age := age a; title := title a;
     traits := traits a; bio := bio a; goals := goals a; home := home a;
     persona := persona a; seedMemory := seedMemory a; x := x a; y := y a;
     dest := dest a; speed := speed a; energy := energy a;
     tickMinutes := tickMinutes a; memory := memory a; summary := summary a;
     importanceSinceReflection := importanceSinceReflection a;
     currentAction := s; lastThought := lastThought a |}.

Definition set_lastThought (v : Json.val) (a : t) : t :=
  {| id := id a; name := name a; age := age a; title := title a;
     traits := traits a; bio := bio a; goals := goals a; home := home a;
     persona := persona a; seedMemory := seedMemory a; x := x a; y := y a;
     dest := dest a; speed := speed a; energy := energy a;
     tickMinutes := tickMinutes a; memory := memory a; summary := summary a;
     importanceSinceReflection := importanceSinceReflection a;
     currentAction := currentAction a; lastThought := v |}.

End AgentState.

(** ** world.js: [class World] *)

Module World.
Import Js.

Record Place := {
  id : string;
  name : string;
  x : R;
  y : R;
  r : R;
  desc : string
}.

Record ChatMessage := {
  speaker : string;
  msg_text : string;
  msg_time : Z
}.

Record LogEntry := {
  log_time : Z;
  log_text : string;
  log_place : string
}.

Record t := {
  width : R;
  height : R;
  places : list Place;
  chatByPlace : gmap string (list ChatMessage);
  log : list LogEntry
}.

Definition PLACES : list Place := [
  {| id := "hobbs"; name := "Hobbs Cafe"; x := 10; y := 10; r := 3.0;
     desc := "A cozy coffee shop with pastries and regulars." |};
  {| id := "park"; name := "Johnson Park"; x := 22; y := 9; r := 3.5;
     desc := "A green park with benches, flowers, and walking paths." |};
  {| id := "college"; name := "Oak Hill College"; x := 20; y := 21; r := 3.2;
     desc := "A small college campus where students attend classes." |};
  {| id := "library"; name := "Oak Hill College Library"; x := 8; y := 22; r := 3.2;
     desc := "A quiet library used for studying and research." |};
  {| id := "market"; name := "Willow Market and Pharmacy"; x := 26; y := 26; r := 3.2;
     desc := "A neighborhood market with a pharmacy counter." |};
  {| id := "plaza"; name := "Town Plaza"; x := 14; y := 28; r := 3.8;
     desc := "The center of town where people pass by and chat." |}
].

(** The constructor of [World]. *)
Definition new_World (width height : R) : t :=
  {| width := width; height := height; places := PLACES;
     chatByPlace := foldl (λ m p, <[id p := []]> m) ∅ PLACES;
     log := [] |}.

Definition set_chatByPlace (c : gmap string (list ChatMessage)) (w : t) : t :=
  {| width := width w; height := height w; places := places w;
     chatByPlace := c; log := log w |}.

Definition push_log (e : LogEntry) (w : t) : t :=
  {| width := width w; height := height w; places := places w;
     chatByPlace := chatByPlace w; log := log w ++ [e] |}.

Definition nearestPlace (w : t) (px py : R) : option Place * R :=
  foldl (λ '(best, bestD) p,
           let d := Util.dist px py (x p) (y p) in
           if Rlt_dec d bestD then (Some p, d) else (best, bestD))
        (None, 1000000000%R) (places w).

Definition nearestPlaceName (w : t) (px py : R) : string :=
  match nearestPlace w px py with
  | (None, _) => "Nowhere"
  | (Some place, d) => if Rle_dec d (r place) then name place else "Street"
  end.

Definition placeAt (w : t) (px py : R) : option Place :=
  match nearestPlace w px py with
  | (None, _) => None
  | (Some place, d) => if Rle_dec d (r place) then Some place else None
  end.

Record Other := {
  o_id : string;
  o_name : string;
  o_action : string
}.

Record Perception := {
  place : option Place;
  placeId : option string;
  placeName : string;
  others : list Other;
  chat : list ChatMessage
}.

(** [place && this.placeAt(a.x, a.y)?.id === place.id]. *)
Definition samePlace (w : t) (place : option Place) (a : AgentState.t) : bool :=
  match place with
  | None => false
  | Some p =>
      match placeAt w (AgentState.x a) (AgentState.y a) with
      | Some p' => bool_decide (id p' = id p)
      | None => false
      end
  end.

(** Two agents resolve to the same place id: each stands in a place, and
    the ids of the two places are equal. *)
Definition same_place_id (w : t) (agent a : AgentState.t) : Prop :=
  ∃ p p', placeAt w (AgentState.x agent) (AgentState.y agent) = Some p ∧
          placeAt w (AgentState.x a) (AgentState.y a) = Some p' ∧
          id p' = id p.

Definition other_of (a : AgentState.t) : Other :=
  {| o_id := AgentState.id a; o_name := AgentState.name a;
     o_action := if bool_decide (AgentState.currentAction a = EmptyString)
                 then "idle" else AgentState.currentAction a |}.

Definition perceive (w : t) (agent : AgentState.t) (allAgents : list AgentState.t)
    : Perception :=
  let place := placeAt w (AgentState.x agent) (AgentState.y agent) in
  let placeName := match place with Some p => name p | None => "Street" end in
  let placeId := id <$> place in
  let others :=
    other_of <$>
      List.filter (λ a, negb (bool_decide (AgentState.id a = AgentState.id agent))
                        && samePlace w place a) allAgents in
  let chat :=
    match placeId with
    | Some pid =>
        if bool_decide (pid = EmptyString) then []
        else slice (default [] (chatByPlace w !! pid)) (-6) None
    | None => []
    end in
  {| place := place; placeId := placeId; placeName := placeName;
     others := others; chat := chat |}.

(** [this.places.find(p => p.id === placeId)?.name ?? ""]. *)
Definition place_name_of (w : t) (pid : string) : string :=
  match List.find (λ p, bool_decide (id p = pid)) (places w) with
  | Some p => name p
  | None => ""
  end.

Definition postChat (placeId : option string) (speaker text : string) (time : Z)
    (w : t) : t :=
  match placeId with
  | None => w
  | Some pid =>
      if bool_decide (pid = EmptyString) then w
      else match chatByPlace w !! pid with
           | None => w
           | Some arr =>
               let w1 := set_chatByPlace
                           (<[pid := arr ++ [{| speaker := speaker; msg_text := text;
                                                msg_time := time |}]]> (chatByPlace w)) w in
               push_log {| log_time := time; log_text := speaker +:+ ": " +:+ text;
                           log_place := place_name_of w pid |} w1
           end
  end.

Definition logEvent (time : Z) (text : string) (placeId : option string) (w : t) : t :=
  let place :=
    match placeId with
    | Some pid => if bool_decide (pid = EmptyString) then "" else place_name_of w pid
    | None => ""
    end in
  push_log {| log_time := time; log_text := text; log_place := place |} w.

Definition cleanupOldChat (now : Z) (keepMinutes : Z) (w : t) : t :=
  let cutoff := now - keepMinutes * 60 * 1000 in
  set_chatByPlace
    (List.filter (λ m, cutoff <=? msg_time m) <$> chatByPlace w) w.

End World.

(** ** world.js: [class Agent] *)

Module Agent.
Import Js Json AgentState.

(** What a method of an agent reads and writes: the module-level
    [_idCounter], the world and the agent itself. *)
Record State := {
  _idCounter : N;
  world : World.t;
  self : AgentState.t
}.

Definition set_self (a : AgentState.t) (st : State) : State :=
  {| _idCounter := _idCounter st; world := world st; self := a |}.

Definition set_world (w : World.t) (st : State) : State :=
  {| _idCounter := _idCounter st; world := w; self := self st |}.

(** [nextId(prefix)]: the new counter and the identifier. *)
Definition nextId (prefix : string) (counter : N) : N * string :=
  let counter := (counter + 1)%N in
  (counter, prefix +:+ "_" +:+ pretty counter).

(** [this.memory.add(new MemoryRecord({ id: nextId(prefix), ... }))]. *)
Definition remember (prefix : string) (now : Z) (text : string) (imp : Z)
    (type : string) (st : State) : State :=
  let '(counter, rid) := nextId prefix (_idCounter st) in
  let rec := Memory.new_MemoryRecord rid now text imp type in
  {| _idCounter := counter; world := world st;
     self := set_memory (Memory.add rec (memory (self st))) (self st) |}.

(** [arr.join(sep)] on strings. *)
Fixpoint join (sep : string) (arr : list string) : string :=
  match arr with
  | [] => ""
  | [s] => s
  | s :: arr' => s +:+ sep +:+ join sep arr'
  end.

Definition seeds_of (a : AgentState.t) : list string :=
  if negb (bool_decide (seedMemory a = EmptyString))
     && negb (bool_decide (trim (seedMemory a) = EmptyString))
  then
    List.filter (λ s, negb (bool_decide (s = EmptyString)))
                (trim <$> split ";" (seedMemory a))
  else
    [ name a +:+ " is " +:+ pretty (age a) +:+ " years old.";
      name a +:+ " works as " +:+ title a +:+ ".";
      name a +:+ " lives near " +:+ home a +:+ ".";
      name a +:+ "'s traits: " +:+ join ", " (traits a) +:+ ".";
      name a +:+ "'s long-term goals: " +:+ join "; " (goals a) +:+ ".";
      bio a ].

Definition seedInitialMemories (now : Z) (st : State) : State :=
  fst (foldl (λ '(st, imp) t,
                (remember "seed" now t imp "observation" st,
                 Z.max 5 (imp - 1)))
             (st, 8) (seeds_of (self st))).

Definition _moveTowardsDest (a : AgentState.t) : AgentState.t :=
  match dest a with
  | None => a
  | Some de =>
      let d := Util.dist (x a) (y a) (dest_x de) (dest_y de) in
      if Rlt_dec d 0.01 then
        set_dest None (set_pos (dest_x de) (dest_y de) a)
      else
        let step := Rmin (speed a) d in
        let dx := ((dest_x de - x a) / d)%R in
        let dy := ((dest_y de - y a) / d)%R in
        let x1 := (x a + dx * step)%R in
        let y1 := (y a + dy * step)%R in
        set_pos (Util.clampR x1 0 31.9) (Util.clampR y1 0 31.9) a
  end.

(** [_rateImportancePaperStyle]; [out] is the text of the reply.  [m[1]] is
    a run of digits, and [parseInt(m[1], 10)] is its decimal value. *)
Definition _rateImportancePaperStyle (out : string) : Z :=
  match match_digits out with
  | None => 3
  | Some m1 =>
      let n := digits_value 0 m1 in
      Util.clamp n 1 10
  end.

Definition place_id_at (st : State) : option string :=
  World.id <$> World.placeAt (world st) (x (self st)) (y (self st)).

Definition reset_accumulator (st : State) : State :=
  set_self (set_importanceSinceReflection 0 (self st)) st.

(** The loop [for (const ins of obj.insights)].  The argument of the
    constructor is built field by field: [nextId("ref")] has advanced
    the counter when the template literal converts the insight, so an
    insight that cannot be converted ends the loop with an id drawn and
    no record for it. *)
Fixpoint store_insights (now : Z) (items : list val) (st : State) : outcome State :=
  match items with
  | [] => Done st
  | ins :: items' =>
      match toString ins with
      | None =>
          Throw {| _idCounter := fst (nextId "ref" (_idCounter st));
                   world := world st; self := self st |}
      | Some text =>
          store_insights now items'
            (remember "ref" now ("Insight: " +:+ text) 8 "reflection" st)
      end
  end.

(** [maybeReflect]; [obj] is what [chatJSON] handed back for the
    reflection request, which is built from [this.memory.recent(12)]:
    that there is a reply means that the request was built. *)
Definition maybeReflect (obj : val) (now : Z) (st : State) : outcome State :=
  if importanceSinceReflection (self st) <? 26 then Done st
  else
    let insights := get_prop_opt obj "insights" in
    if truthy (get_prop_opt insights "length") then
      match iterate insights with
      | None => Throw st
      | Some items =>
          bind (store_insights now items st) (λ st1,
            let update := get_prop_opt obj "summary_update" in
            let st2 :=
              if truthy update then set_self (set_summary update (self st1)) st1
              else st1 in
            let st3 :=
              set_world
                (World.logEvent now (name (self st2) +:+ " reflects and gains insights.")
                                (place_id_at st2) (world st2)) st2 in
            Done (reset_accumulator st3))
      end
    else Done (reset_accumulator st).

(** The insights over which [maybeReflect] raises: they have a truthy
    [length] and cannot be iterated, or one of them cannot be
    converted. *)
Definition raising_insights (insights : val) : Prop :=
  truthy (get_prop_opt insights "length") = true ∧
  match iterate insights with
  | None => True
  | Some items => Exists (λ ins, toString ins = None) items
  end.

Definition UNSURE_THOUGHT : string :=
  "I'm not sure what to do nextâ€¦ I'll observe for now.".

(** The importance that the decision object proposes for a memory:
    [clamp(parseInt(m.importance ?? 3, 10) || 3, 1, 10)]; [None] when
    the conversion of [parseInt] raises. *)
Definition proposed_importance (v : val) : option Z :=
  match parseInt (nullish_else v (Num 3)) with
  | Some n => Some (Util.clamp (number_or n 3) 1 10)
  | None => None
  end.

(** The type that is stored for a proposed memory:
    [m.type === "action" ? "action" : "observation"]. *)
Definition proposed_type (v : val) : string :=
  if is_string v "action" then "action" else "observation".

(** The loop [for (const m of obj.memories)]; [i] counts the rating
    calls of paper mode, [ratings i] being the reply to call [i].  An
    item raises when it is [null], or when [String] or [parseInt] cannot
    convert its text or its importance: that is before [nextId] is
    called for it. *)
Fixpoint store_memories (mode : string) (ratings : nat -> string) (now : Z)
    (i : nat) (ms : list val) (st : State) : outcome State :=
  match ms with
  | [] => Done st
  | m :: ms' =>
      match get_prop m "text" with
      | None => Throw st
      | Some tv =>
          match toString (or_else tv (Str "")) with
          | None => Throw st
          | Some s =>
              let text := str_slice s 0 (Some 280) in
              let type := proposed_type (get_prop_opt m "type") in
              match proposed_importance (get_prop_opt m "importance") with
              | None => Throw st
              | Some imp =>
                  let imp :=
                    if bool_decide (mode = "paper")
                    then _rateImportancePaperStyle (ratings i) else imp in
                  let st1 := remember "mem" now text imp type st in
                  let st2 :=
                    set_self (set_importanceSinceReflection
                                (importanceSinceReflection (self st1) + imp)
                                (self st1)) st1 in
                  store_memories mode ratings now (S i) ms' st2
              end
          end
      end
  end.

(** The part of [step] after the memories: the action, the energy drift
    and the reflection check. *)
Definition execute_action (obj reflection : val) (perception : World.Perception)
    (now : Z) (st : State) : outcome State :=
  let action := get_prop_opt obj "action" in
  match trim_val (or_else (get_prop_opt obj "target") (Str "")) with
  | None => Throw st
  | Some target =>
      match trim_val (or_else (get_prop_opt obj "utterance") (Str "")) with
      | None => Throw st
      | Some utterance =>
          let acted : outcome State :=
            if is_string action "interact" then
              let ok := existsb (λ o, bool_decide (World.o_name o = target))
                                (World.others perception) in
              if ok && negb (bool_decide (utterance = EmptyString)) then
                let w := World.postChat (World.placeId perception)
                                        (name (self st)) utterance now (world st) in
                Done (set_self (set_currentAction ("talking to " +:+ target) (self st))
                               (set_world w st))
              else Done (set_self (set_currentAction "idle" (self st)) st)
            else if is_string action "move" then
              let found :=
                match List.find (λ p, bool_decide (World.name p = target))
                                (World.places (world st)) with
                | Some p => Some p
                | None => head (World.places (world st))
                end in
              match found with
              | None => Throw st
              | Some place =>
                  let de := {| dest_x := World.x place; dest_y := World.y place;
                               dest_placeId := World.id place;
                               dest_placeName := World.name place |} in
                  let a := set_currentAction ("going to " +:+ World.name place)
                             (set_dest (Some de) (self st)) in
                  let w := World.logEvent now
                             (name (self st) +:+ " heads to " +:+ World.name place +:+ ".")
                             (Some (World.id place)) (world st) in
                  Done (set_self a (set_world w st))
              end
            else Done (set_self (set_currentAction "staying" (self st)) st) in
          bind acted (λ st,
            let st := set_self (set_energy (Util.clamp (energy (self st) - 1) 0 100)
                                           (self st)) st in
            maybeReflect reflection now st)
      end
  end.

(** Step 1 of the cycle:
    [if (this.dest) { this._moveTowardsDest(); this.currentAction = "walking"; }]. *)
Definition after_move (a : AgentState.t) : AgentState.t :=
  match dest a with
  | Some _ => set_currentAction "walking" (_moveTowardsDest a)
  | None => a
  end.

(** [step]; [obj] is what [chatJSON] handed back for the action request,
    [ratings] the replies to the rating calls of paper mode and
    [reflection] what [chatJSON] hands back if a reflection is
    requested.  [allAgents] may hold the agent itself: [perceive] skips
    it by its id.  The retrieval for the prompt and the prompt itself
    write only the two transcript fields and are left out: that there
    is a reply means that the request was built. *)
Definition step (obj : val) (ratings : nat -> string) (reflection : val)
    (allAgents : list AgentState.t) (now : Z) (mode : string) (st : State)
    : outcome State :=
  let st := set_self (after_move (self st)) st in
  let perception := World.perceive (world st) (self st) allAgents in
  if negb (truthy obj) then
    Done (set_self (set_currentAction "idle"
                      (set_lastThought (Str UNSURE_THOUGHT) (self st))) st)
  else
    let st := set_self (set_lastThought (or_else (get_prop_opt obj "thought") (Str ""))
                                        (self st)) st in
    let stored :=
      match get_prop_opt obj "memories" with
      | Arr ms => store_memories mode ratings now 0 ms st
      | _ => Done st
      end in
    bind stored (execute_action obj reflection perception now).



(** The states that the agent of a simulation goes through: it is
    constructed, its memories are seeded, it takes steps and reflects,
    whatever the gateway answers and whether or not the method raises;
    in between, the other agents change the world and draw ids. *)
Inductive reachable : State -> Prop :=
| reachable_new counter w id name age title traits bio goals home startX startY
                persona seedMemory :
    reachable {| _idCounter := counter; world := w;
                 self := new_Agent id name age title traits bio goals home
                                   startX startY persona seedMemory |}
| reachable_seed st now :
    reachable st -> reachable (seedInitialMemories now st)
| reachable_step st obj ratings reflection allAgents now mode :
    reachable st ->
    reachable (outcome_state (step obj ratings reflection allAgents now mode st))
| reachable_reflect st obj now :
    reachable st -> reachable (outcome_state (maybeReflect obj now st))
| reachable_others st counter w :
    reachable st ->
    reachable {| _idCounter := counter; world := w; self := self st |}.

(** Step 7 of the cycle has run between [st] and [st']. *)
Definition energy_drift_applied (st st' : State) : Prop :=
  energy (self st') = Util.clamp (energy (self st) - 1) 0 100.

End Agent.

(** ** Sample inputs *)

Module Samples.
Import Memory.

Definition likes_coffee : MemoryRecord :=
  new_MemoryRecord "mem_1" 0 "X likes coffee" 5 "observation".

Definition dislikes_tea : MemoryRecord :=
  new_MemoryRecord "mem_2" 0 "X dislikes tea" 3 "observation".

Definition two_records : MemoryStream :=
  add dislikes_tea (add likes_coffee new_MemoryStream).

Definition isabella : AgentState.t :=
  AgentState.new_Agent "isabella" "Isabella Rodriguez" 34
    "Cafe owner (Hobbs Cafe)" ["friendly"; "outgoing"; "hospitable"]
    "Isabella runs Hobbs Cafe and loves making people feel welcome."
    ["Keep Hobbs Cafe welcoming and thriving"] "Town Plaza" 10 10
    "Innate tendency: friendly, outgoing, hospitable."
    "Isabella Rodriguez is the cafe owner of Hobbs Cafe; Isabella Rodriguez is friendly, outgoing, and hospitable".

(** Klaus visits the cafe, Maria sits in the park, and Sam and Tom stand
    in the street, at the position that [makeAgents] falls back to. *)
Definition klaus : AgentState.t :=
  AgentState.new_Agent "klaus" "Klaus Mueller" 20
    "Sociology student (Oak Hill College)" ["kind"; "inquisitive"; "passionate"]
    "Klaus is writing a research paper." ["Improve writing skills"]
    "Oak Hill College" 10 10 "" "".

Definition maria : AgentState.t :=
  AgentState.new_Agent "maria" "Maria Lopez" 21 "Physics student"
    ["energetic"; "enthusiastic"; "inquisitive"] "Maria studies physics."
    ["Do well in class"] "Oak Hill College" 22 9 "" "".

Definition sam : AgentState.t :=
  AgentState.new_Agent "sam" "Sam Moore" 65 "Retired" ["wise"]
    "Sam likes to walk." ["Stay in touch with neighbors"] "Town Plaza" 16 16 "" "".

Definition tom : AgentState.t :=
  AgentState.new_Agent "tom" "Tom Moreno" 45 "Shopkeeper" ["direct"]
    "Tom runs the market." ["Keep the market running"]
    "Willow Market and Pharmacy" 16 16 "" "".

(** Isabella on her way from the cafe to Johnson Park. *)
Definition to_the_park : AgentState.Dest :=
  {| AgentState.dest_x := 22; AgentState.dest_y := 9;
     AgentState.dest_placeId := "park";
     AgentState.dest_placeName := "Johnson Park" |}.

Definition isabella_walking : AgentState.t :=
  AgentState.set_dest (Some to_the_park) isabella.




(** The simulation right after [resetSim], seen from Isabella. *)
Definition start : Agent.State :=
  {| Agent._idCounter := 0; Agent.world := World.new_World 32 32;
     Agent.self := isabella |}.

(** [resetSim] starts the clock at 2023-02-13 08:00 (here in UTC), and
    the first tick is ten minutes later. *)
Definition day_start : Z := 1676275200000.
Definition first_tick : Z := day_start + 10 * 60 * 1000.

(** Isabella has gathered importance 30 since she last reflected. *)
Definition due_for_reflection : Agent.State :=
  Agent.set_self (AgentState.set_importanceSinceReflection 30 isabella) start.


Definition unprintable_insight : Json.val :=
  Json.Obj [
    ("insights", Json.Arr [Json.Str "Isabella likes the morning rush";
                           Json.Obj [("toString", Json.Num 1)]]);
    ("summary_update", Json.Str "Isabella is a host at heart.")
  ].

(** A decision that stays put and proposes a memory of importance 0. *)
Definition decision_rated_zero : Json.val :=
  Json.Obj [
    ("thought", Json.Str "I should open the cafe.");
    ("action", Json.Str "stay");
    ("target", Json.Str "Hobbs Cafe");
    ("utterance", Json.Str "");
    ("memories", Json.Arr [
       Json.Obj [("text", Json.Str "Isabella opens Hobbs Cafe");
                 ("type", Json.Str "action");
                 ("importance", Json.Num 0)]])
  ].


(** Isabella after her memories are seeded and she has taken the first
    step, on that decision. *)
Definition after_first_step : Agent.State :=
  outcome_state
    (Agent.step decision_rated_zero (λ _, EmptyString) Json.Null [isabella]
                first_tick "fast" (Agent.seedInitialMemories day_start start)).

End Samples.


(** ** Memory streams that are filled by calls *)

Module Stream.
Import Js Memory.

(** Every character of [s] satisfies [p]. *)
Definition chars_all (p : ascii -> bool) (s : string) : Prop :=
  Forall (λ c, p c = true) (list_ascii_of_string s).

(** A lower-case letter or a digit. *)
Definition is_token_char (c : ascii) : bool := is_lower c || is_digit c.

(** How often [t] occurs in [tokens]. *)
Definition occurrences (t : string) (tokens : list string) : nat :=
  length (filter (λ u, u = t) tokens).

(** The records that are added by a sequence of calls, in order. *)
Definition added (cs : list call) : list MemoryRecord :=
  omap (λ c, match c with CallAdd record => Some record | _ => None end) cs.

(** In how many of the records the token [t] occurs. *)
Definition containing (t : string) (recs : list MemoryRecord) : nat :=
  length (filter (λ r, t ∈ tokens r) recs).

End Stream.


Module Samples2.
Import Memory.

(** Two adds and a retrieval in between. *)
Definition calls : list call :=
  [CallAdd Samples.likes_coffee; CallRetrieve "coffee" 0 8 None;
   CallAdd Samples.dislikes_tea].

End Samples2.


(** ** Sequences of operations on a world *)

Module WorldOps.
Import World.

(** One round of the loop in [nearestPlace]. *)
Definition nearer (px py : R) : option Place * R -> Place -> option Place * R :=
  λ '(best, bestD) p,
    let d := Util.dist px py (x p) (y p) in
    if Rlt_dec d bestD then (Some p, d) else (best, bestD).

Inductive op :=
| PostChat (placeId : option string) (speaker text : string) (time : Z)
| LogEvent (time : Z) (text : string) (placeId : option string)
| CleanupOldChat (now keepMinutes : Z).

Definition apply (o : op) (w : t) : t :=
  match o with
  | PostChat placeId speaker text time => postChat placeId speaker text time w
  | LogEvent time text placeId => logEvent time text placeId w
  | CleanupOldChat now keepMinutes => cleanupOldChat now keepMinutes w
  end.

Definition apply_all (ops : list op) (w : t) : t := foldl (λ w o, apply o w) w ops.

(** The entry of the event log that goes with a chat message. *)
Definition logged (w : t) (m : ChatMessage) : Prop :=
  ∃ e, e ∈ log w ∧ log_time e = msg_time m ∧
       log_text e = speaker m +:+ ": " +:+ msg_text m.

(** Every message of every chat log has its entry in the event log. *)
Definition chats_logged (w : t) : Prop :=
  forall pid arr m, chatByPlace w !! pid = Some arr -> m ∈ arr -> logged w m.

End WorldOps.

(** ** The cycle of an agent, over several calls *)

Module Cycle.
Import Js Json AgentState Agent.

(** [n] calls of [_moveTowardsDest], as [n] ticks make them. *)
Fixpoint walk (n : nat) (a : AgentState.t) : AgentState.t :=
  match n with
  | O => a
  | S n' => walk n' (_moveTowardsDest a)
  end.

(** [initialize]: the memories are seeded, the daily plan is made and the
    event is logged.  The plan only feeds the text of the requests. *)
Definition initialize (now : Z) (st : State) : State :=
  let st := seedInitialMemories now st in
  set_world
    (World.logEvent now (name (self st) +:+ " wakes up and starts the day.")
                    (place_id_at st) (world st)) st.

(** The ids that successive calls of [nextId] return from the counter
    [c], one call for each prefix. *)
Definition numbered (c : N) (prefixes : list string) : list string :=
  imap (λ i prefix, snd (nextId prefix (c + N.of_nat i))) prefixes.

(** The records of the agent's memory stream, and their ids. *)
Definition stored (st : State) : list Memory.MemoryRecord :=
  Memory.records (memory (self st)).

Definition ids (st : State) : list string := Memory.id <$> stored st.

(** From [st] to [st'] records were only appended to the stream, and
    their ids were drawn from the counter one after the other. *)
Definition appended (st st' : State) (new : list Memory.MemoryRecord) : Prop :=
  stored st' = stored st ++ new ∧
  (∃ prefixes, Memory.id <$> new = numbered (_idCounter st) prefixes) ∧
  _idCounter st' = (_idCounter st + N.of_nat (length new))%N.

(** The sum of the importance of records. *)
Definition total_importance (recs : list Memory.MemoryRecord) : Z :=
  foldr (λ r acc, Memory.importance r + acc) 0 recs.

(** What an item of [obj.memories] gives to store in fast mode: the
    text, cut to 280 characters, the importance and the type; [None]
    when the item raises, because it is [null] or because its text or
    its importance cannot be converted. *)
Definition item_fields (m : val) : option (string * Z * string) :=
  match get_prop m "text" with
  | None => None
  | Some tv =>
      match toString (or_else tv (Str "")) with
      | None => None
      | Some s =>
          match proposed_importance (get_prop_opt m "importance") with
          | None => None
          | Some imp =>
              Some (str_slice s 0 (Some 280), imp,
                    proposed_type (get_prop_opt m "type"))
          end
      end
  end.

(** The record that [step] stores in fast mode for an item of
    [obj.memories] that it can store, under the id [rid].  An item that
    raises stores nothing: for it this is an empty observation, which no
    statement relies on. *)
Definition proposed_record (rid : string) (now : Z) (m : val) : Memory.MemoryRecord :=
  match item_fields m with
  | Some (text, imp, type) => Memory.new_MemoryRecord rid now text imp type
  | None => Memory.new_MemoryRecord rid now EmptyString 3 "observation"
  end.

(** From [st] to [st'] records were only appended, with ids drawn one
    after the other, and at most one more id was drawn than records were
    stored. *)
Definition appended_or_skipped (st st' : State) (new : list Memory.MemoryRecord)
    : Prop :=
  stored st' = stored st ++ new ∧
  (∃ prefixes, Memory.id <$> new = numbered (_idCounter st) prefixes) ∧
  (_idCounter st' = (_idCounter st + N.of_nat (length new))%N ∨
   _idCounter st' = (_idCounter st + N.of_nat (length new) + 1)%N).

(** [s] starts with a decimal digit. *)
Definition starts_with_digit (s : string) : bool :=
  match s with
  | String c _ => is_digit c
  | EmptyString => false
  end.

(** The agent [a'] differs from [a] in its memory stream and its
    accumulator of importance at most. *)
Definition same_but_memory (a a' : AgentState.t) : Prop :=
  a' = set_importanceSinceReflection (importanceSinceReflection a')
         (set_memory (memory a') a).

(** The agent [a'] differs from [a] in its memory stream, its
    accumulator of importance and its summary at most. *)
Definition same_but_mind (a a' : AgentState.t) : Prop :=
  a' = set_summary (summary a')
         (set_importanceSinceReflection (importanceSinceReflection a')
            (set_memory (memory a') a)).

(** The record that [maybeReflect] stores for an insight that converts
    to [text], under the id [rid]. *)
Definition insight_record (rid : string) (now : Z) (text : string)
    : Memory.MemoryRecord :=
  Memory.new_MemoryRecord rid now ("Insight: " +:+ text) 8 "reflection".

(** What [maybeReflect] does once the loop over the insights is over:
    the summary, the event and the reset. *)
Definition reflected (obj : val) (now : Z) (st1 : State) : State :=
  let update := get_prop_opt obj "summary_update" in
  let st2 :=
    if truthy update then set_self (set_summary update (self st1)) st1 else st1 in
  reset_accumulator
    (set_world
       (World.logEvent now (name (self st2) +:+ " reflects and gains insights.")
                       (place_id_at st2) (world st2)) st2).

(** The energy drift of [step]. *)
Definition drift (st : State) : State :=
  set_self (set_energy (Util.clamp (energy (self st) - 1) 0 100) (self st)) st.

(** What [step] has done when it comes to the memories of a decision:
    the move, then the thought. *)
Definition thinking (obj : val) (st : State) : State :=
  set_self (set_lastThought (or_else (get_prop_opt obj "thought") (Str ""))
                            (after_move (self st))) st.

(** [(obj.target || "").trim()] and [(obj.utterance || "").trim()]. *)
Definition target_of (obj : val) : option string :=
  trim_val (or_else (get_prop_opt obj "target") (Str "")).

Definition utterance_of (obj : val) : option string :=
  trim_val (or_else (get_prop_opt obj "utterance") (Str "")).

(** The destination that a move to [place] sets. *)
Definition dest_of (place : World.Place) : Dest :=
  {| dest_x := World.x place; dest_y := World.y place;
     dest_placeId := World.id place; dest_placeName := World.name place |}.

(** [world.places.find(p => p.name === target) ?? world.places[0]]. *)
Definition place_for (w : World.t) (target : string) : option World.Place :=
  match List.find (λ p, bool_decide (World.name p = target)) (World.places w) with
  | Some p => Some p
  | None => head (World.places w)
  end.

(** The memories of a decision, as [step] stores them. *)
Definition remembering (obj : val) (mode : string) (ratings : nat -> string)
    (now : Z) (st : State) : outcome State :=
  match get_prop_opt obj "memories" with
  | Arr ms => store_memories mode ratings now 0 ms (thinking obj st)
  | _ => Done (thinking obj st)
  end.

(** The fields that the constructor sets and no method writes. *)
Definition constants (a : AgentState.t)
    : string * string * Z * string * list string * string * list string
      * string * string * string * R * Z :=
  (id a, name a, age a, title a, traits a, bio a, goals a, home a, persona a,
   seedMemory a, speed a, tickMinutes a).

(** What the action part of [step] has done, in the state [acted], when
    it goes on to the energy drift: it has talked, stayed idle, set out
    for a place, or stayed. *)
Definition acts (obj : val) (perception : World.Perception) (now : Z) (st : State)
    (target utterance : string) (acted : State) : Prop :=
  (is_string (get_prop_opt obj "action") "interact" = true ∧
   target ∈ World.o_name <$> World.others perception ∧
   utterance ≠ EmptyString ∧
   acted = set_self (set_currentAction ("talking to " +:+ target) (self st))
             (set_world (World.postChat (World.placeId perception)
                           (name (self st)) utterance now (world st)) st)) ∨
  (is_string (get_prop_opt obj "action") "interact" = true ∧
   ¬ (target ∈ World.o_name <$> World.others perception ∧
      utterance ≠ EmptyString) ∧
   acted = set_self (set_currentAction "idle" (self st)) st) ∨
  (is_string (get_prop_opt obj "action") "interact" = false ∧
   is_string (get_prop_opt obj "action") "move" = true ∧
   ∃ place, place_for (world st) target = Some place ∧
     acted = set_self (set_currentAction ("going to " +:+ World.name place)
                         (set_dest (Some (dest_of place)) (self st)))
               (set_world
                  (World.logEvent now
                     (name (self st) +:+ " heads to " +:+ World.name place +:+ ".")
                     (Some (World.id place)) (world st)) st)) ∨
  (is_string (get_prop_opt obj "action") "interact" = false ∧
   is_string (get_prop_opt obj "action") "move" = false ∧
   acted = set_self (set_currentAction "staying" (self st)) st).

End Cycle.

(** ** prompts.js: the schemas of the replies

    What [ACTION_SCHEMA] and [REFLECTION_SCHEMA] ask of a parsed reply.
    Each lists all its properties as required and allows no other. *)

Module Schema.
Import Json.

Definition has_type_string (v : val) : bool :=
  match v with Str _ => true | _ => false end.

Definition keys_are (required : list string) (kvs : list (string * val)) : bool :=
  forallb (λ k, bool_decide (k ∈ kvs.*1)) required
  && forallb (λ kv, bool_decide (kv.1 ∈ required)) kvs.

Definition one_of (enum : list string) (v : val) : bool :=
  existsb (is_string v) enum.

(** [items] of [memories]. *)
Definition memory_item (m : val) : bool :=
  match m with
  | Obj kvs =>
      keys_are ["text"; "type"; "importance"] kvs
      && has_type_string (own_prop kvs "text")
      && one_of ["observation"; "action"] (own_prop kvs "type")
      && match own_prop kvs "importance" with
         | Num z => (1 <=? z) && (z <=? 10)
         | _ => false
         end
  | _ => false
  end.

Definition ACTION_SCHEMA (obj : val) : bool :=
  match obj with
  | Obj kvs =>
      keys_are ["thought"; "action"; "target"; "utterance"; "memories"] kvs
      && has_type_string (own_prop kvs "thought")
      && one_of ["move"; "interact"; "stay"] (own_prop kvs "action")
      && has_type_string (own_prop kvs "target")
      && has_type_string (own_prop kvs "utterance")
      && match own_prop kvs "memories" with
         | Arr ms => (length ms <=? 3)%nat && forallb memory_item ms
         | _ => false
         end
  | _ => false
  end.

Definition REFLECTION_SCHEMA (obj : val) : bool :=
  match obj with
  | Obj kvs =>
      keys_are ["insights"; "summary_update"] kvs
      && match own_prop kvs "insights" with
         | Arr l => (2 <=? length l)%nat && (length l <=? 4)%nat
                    && forallb has_type_string l
         | _ => false
         end
      && has_type_string (own_prop kvs "summary_update")
  | _ => false
  end.

End Schema.

(** ** More sample inputs *)

Module Samples3.

(** A decision to walk to the park, as the schema wants it. *)
Definition decision_to_move : Json.val :=
  Json.Obj [
    ("thought", Json.Str "Some fresh air would be good.");
    ("action", Json.Str "move");
    ("target", Json.Str " Johnson Park ");
    ("utterance", Json.Str "");
    ("memories", Json.Arr [
       Json.Obj [("text", Json.Str "Isabella decides to take a walk");
                 ("type", Json.Str "action");
                 ("importance", Json.Num 6)]])
  ].

(** A reflection with two insights. *)
Definition two_insights : Json.val :=
  Json.Obj [
    ("insights", Json.Arr [Json.Str "Isabella cares about her guests";
                           Json.Str "Isabella plans ahead"]);
    ("summary_update", Json.Str "Isabella is a host at heart.")
  ].

End Samples3.

(** ** The main script: the simulation loop

    [resetSim] and [tickOnce], without the rendering.  The state is what
    the script and the module of the agents keep at top level: the
    counter of [nextId], the world, the agents and the clock. *)

Module Sim.

Record t := {
  _idCounter : N;
  world : World.t;
  agents : list AgentState.t;
  simTime : Z
}.

(** What the gateway answers during the step of one agent. *)
Record Replies := {
  decision : Json.val;
  ratings : nat -> string;
  reflection : Json.val
}.

Definition MINUTES_PER_TICK : Z := 10.

(** A method of agent [a] runs on the shared counter and world, and
    leaves both and the agent behind. *)
Definition enter (sim : t) (a : AgentState.t) : Agent.State :=
  {| Agent._idCounter := _idCounter sim; Agent.world := world sim;
     Agent.self := a |}.

Definition leave (i : nat) (st : Agent.State) (sim : t) : t :=
  {| _idCounter := Agent._idCounter st; world := Agent.world st;
     agents := <[i := Agent.self st]> (agents sim); simTime := simTime sim |}.

Definition set_world (w : World.t) (sim : t) : t :=
  {| _idCounter := _idCounter sim; world := w; agents := agents sim;
     simTime := simTime sim |}.

Definition set_simTime (time : Z) (sim : t) : t :=
  {| _idCounter := _idCounter sim; world := world sim; agents := agents sim;
     simTime := time |}.

(** [for (const a of agents) await a.initialize(llm, world, simTime, ...)],
    over the indices of the agents. *)
Definition initialize_all (sim : t) : t :=
  foldl (λ sim i,
           match agents sim !! i with
           | Some a => leave i (Cycle.initialize (simTime sim) (enter sim a)) sim
           | None => sim
           end)
        sim (seq 0 (length (agents sim))).

(** [resetSim]; [roster] is what [makeAgents] returns and [time] the
    local time 2023-02-13 08:00 in milliseconds.  The counter of
    [nextId] is not reset. *)
Definition resetSim (counter : N) (roster : list AgentState.t) (time : Z) : t :=
  initialize_all {| _idCounter := counter; world := World.new_World 32 32;
                    agents := roster; simTime := time |}.

(** [for (const a of agents) await a.step(llm, world, agents, simTime, ...)],
    over the indices of the agents; [replies i] is what the gateway
    answers to agent [i].  The list that is passed holds the agent as it
    was before its step, which [perceive] skips by its id.  A step that
    raises ends the loop. *)
Fixpoint turns (replies : nat -> Replies) (mode : string) (indices : list nat)
    (sim : t) : outcome t :=
  match indices with
  | [] => Done sim
  | i :: indices' =>
      match agents sim !! i with
      | None => turns replies mode indices' sim
      | Some a =>
          match Agent.step (decision (replies i)) (ratings (replies i))
                           (reflection (replies i)) (agents sim) (simTime sim)
                           mode (enter sim a) with
          | Done st => turns replies mode indices' (leave i st sim)
          | Throw st => Throw (leave i st sim)
          end
      end
  end.

(** [tickOnce], with the model loaded. *)
Definition tickOnce (replies : nat -> Replies) (mode : string) (sim : t)
    : outcome t :=
  if bool_decide (agents sim = []) then Done sim
  else
    let sim := set_simTime (simTime sim + MINUTES_PER_TICK * 60 * 1000) sim in
    bind (turns replies mode (seq 0 (length (agents sim))) sim)
         (λ sim, Done (set_world (World.cleanupOldChat (simTime sim) 120 (world sim))
                                 sim)).

(** An agent as the constructor leaves it: nothing remembered yet. *)
Definition fresh (a : AgentState.t) : Prop :=
  AgentState.memory a = Memory.new_MemoryStream.

(** The simulations that the page goes through: a reset, then ticks,
    whatever the gateway answers. *)
Inductive reachable : t -> Prop :=
| reachable_reset counter roster time :
    Forall fresh roster -> reachable (resetSim counter roster time)
| reachable_tick sim replies mode :
    reachable sim -> reachable (outcome_state (tickOnce replies mode sim)).

(** The ids of all records of all agents. *)
Definition record_ids (sim : t) : list string :=
  agents sim ≫= λ a, Memory.id <$> Memory.records (AgentState.memory a).

(** [rid] was returned by [nextId] before the counter reached [c]. *)
Definition issued (c : N) (rid : string) : Prop :=
  ∃ prefix k, (k < c)%N ∧ rid = snd (Agent.nextId prefix k).

Definition ids_in_order (sim : t) : Prop :=
  NoDup (record_ids sim) ∧ Forall (issued (_idCounter sim)) (record_ids sim).

(** What a tick keeps of an agent: the fields of the constructor, and
    the records it had, in front of the new ones. *)
Definition grown (a a' : AgentState.t) : Prop :=
  Cycle.constants a' = Cycle.constants a ∧
  Memory.records (AgentState.memory a) `prefix_of`
    Memory.records (AgentState.memory a').

(** What the turns of the agents keep of a simulation. *)
Definition kept (sim sim' : t) : Prop :=
  Forall2 grown (agents sim) (agents sim') ∧
  World.places (world sim') = World.places (world sim) ∧
  World.width (world sim') = World.width (world sim) ∧
  World.height (world sim') = World.height (world sim) ∧
  World.log (world sim) `prefix_of` World.log (world sim') ∧
  (_idCounter sim <= _idCounter sim')%N ∧
  simTime sim' = simTime sim ∧
  (ids_in_order sim -> ids_in_order sim').

(** The silent gateway: nothing parseable, ever. *)
Definition silence : nat -> Replies :=
  λ _, {| decision := Json.Null; ratings := λ _, EmptyString;
          reflection := Json.Null |}.

End Sim.

(** ** A simulation with messages in the cafe *)

Module Samples4.

Definition old_message : World.ChatMessage :=
  {| World.speaker := "Klaus Mueller"; World.msg_text := "Good night!";
     World.msg_time := Samples.day_start - 3 * 60 * 60 * 1000 |}.

Definition fresh_message : World.ChatMessage :=
  {| World.speaker := "Isabella Rodriguez"; World.msg_text := "Good morning!";
     World.msg_time := Samples.day_start |}.

(** The simulation after a reset, once Klaus and Isabella have spoken in
    the cafe: he three hours before the start of the day, she at the
    start. *)
Definition with_chat : Sim.t :=
  let sim := Sim.resetSim 0 [Samples.isabella; Samples.klaus] Samples.day_start in
  Sim.set_world
    (World.postChat (Some "hobbs") (World.speaker fresh_message)
       (World.msg_text fresh_message) (World.msg_time fresh_message)
       (World.postChat (Some "hobbs") (World.speaker old_message)
          (World.msg_text old_message) (World.msg_time old_message)
          (Sim.world sim)))
    sim.

End Samples4.

(** * Properties *)

(** ** Slices and sorting *)

Module JsFacts.
Import Js.

Lemma rel_index_zero (len : nat) : rel_index len 0 = 0%nat.
Proof. unfold rel_index. simpl. lia. Qed.

Lemma rel_index_nonneg (len : nat) (k : Z) :
  0 <= k -> rel_index len k = (Z.to_nat k `min` len)%nat.
Proof.
  intros Hk. unfold rel_index.
  destruct (Z.ltb_spec k 0); lia.
Qed.

Lemma rel_index_neg (len : nat) (n : Z) :
  0 < n -> rel_index len (- n) = (len - Z.to_nat n)%nat.
Proof.
  intros Hn. unfold rel_index.
  destruct (Z.ltb_spec (- n) 0); lia.
Qed.

Lemma slice_prefix {A} (l : list A) (k : Z) :
  0 <= k -> slice l 0 (Some k) = take (Z.to_nat k) l.
Proof.
  intros Hk. unfold slice.
  rewrite rel_index_zero, rel_index_nonneg, drop_0, Nat.sub_0_r by done.
  destruct (Nat.le_ge_cases (Z.to_nat k) (length l)).
  - by rewrite Nat.min_l.
  - rewrite Nat.min_r by done. by rewrite !take_ge.
Qed.

Lemma slice_suffix {A} (l : list A) (n : Z) :
  0 < n -> slice l (- n) None = drop (length l - Z.to_nat n) l.
Proof.
  intros Hn. unfold slice. rewrite rel_index_neg by done.
  apply take_ge. rewrite length_drop. lia.
Qed.

Lemma slice_suffix_zero {A} (l : list A) : slice l (- 0) None = l.
Proof.
  unfold slice. change (- 0) with 0. rewrite rel_index_zero, drop_0, Nat.sub_0_r.
  by rewrite take_ge.
Qed.

Section SortByScore.
Context {A : Type} (f : A -> R).

#[local] Abbreviation descending := (descending f).
#[local] Abbreviation before := (before f).

Lemma insert_sorted_perm x l :
  Permutation (insert_sorted descending x l) (x :: l).
Proof.
  induction l as [|y l IH]; simpl; [done|].
  destruct (Rlt_dec 0 (descending x y)); [|done].
  rewrite IH. apply perm_swap.
Qed.

Lemma sort_perm l : Permutation (sort descending l) l.
Proof.
  induction l as [|x l IH]; simpl; [done|].
  rewrite insert_sorted_perm. by constructor.
Qed.

Lemma insert_sorted_sorted x l :
  StronglySorted before l ->
  StronglySorted before (insert_sorted descending x l).
Proof.
  induction 1 as [|y l Hs IH Hy]; simpl.
  - repeat constructor.
  - destruct (Rlt_dec 0 (descending x y)) as [Hlt|Hge].
    + constructor; [done|].
      eapply Permutation_Forall; [symmetry; apply insert_sorted_perm|].
      constructor; [|done]. unfold before, descending in *. lra.
    + assert (before x y) by (unfold before, descending in *; lra).
      constructor; [by constructor|].
      constructor; [done|].
      eapply Forall_impl; [exact Hy|]. unfold before in *. intros z ?. lra.
Qed.

Lemma sort_sorted l : StronglySorted before (sort descending l).
Proof.
  induction l as [|x l IH]; simpl; [constructor|].
  by apply insert_sorted_sorted.
Qed.

Lemma sorted_take_drop l n a b :
  StronglySorted before l -> a ∈ take n l -> b ∈ drop n l -> before a b.
Proof.
  intros Hs. revert n. induction Hs as [|x l Hs IH Hx]; intros n Ha Hb.
  - rewrite take_nil in Ha. by apply elem_of_nil in Ha.
  - destruct n as [|n]; simpl in *; [by apply elem_of_nil in Ha|].
    apply elem_of_cons in Ha as [->|Ha].
    + rewrite Forall_forall in Hx. apply Hx.
      by eapply subseteq_drop.
    + by eapply IH.
Qed.

Lemma sorted_take l n :
  StronglySorted before l -> StronglySorted before (take n l).
Proof.
  intros Hs. revert n. induction Hs as [|x l Hs IH Hx]; intros [|n];
    simpl; try constructor; [by apply IH|].
  rewrite Forall_forall in *. intros y Hy. apply Hx.
  by eapply subseteq_take.
Qed.
End SortByScore.

End JsFacts.

(** ** Rounding *)

Module DoubleFacts.
Import Double.
Local Open Scope R_scope.

Lemma pow2_Rpower (e : Z) : pow2 e = Rpower 2 (IZR e).
Proof. unfold pow2. apply powerRZ_Rpower. lra. Qed.

Lemma pow2_pos (e : Z) : 0 < pow2 e.
Proof. rewrite pow2_Rpower. apply exp_pos. Qed.

Lemma pow2_add (e e' : Z) : pow2 (e + e') = pow2 e * pow2 e'.
Proof. rewrite !pow2_Rpower, plus_IZR. apply Rpower_plus. Qed.

Lemma ln2_pos : 0 < ln 2.
Proof. pose proof ln_lt_2. lra. Qed.

Lemma pow2_le (e e' : Z) : (e <= e')%Z -> pow2 e <= pow2 e'.
Proof.
  intros Hle. rewrite !pow2_Rpower. unfold Rpower.
  apply IZR_le in Hle. pose proof ln2_pos.
  destruct (Req_dec (IZR e) (IZR e')) as [->|Hne]; [lra|].
  left. apply exp_increasing. nra.
Qed.

Lemma pow2_lt (e e' : Z) : (e < e')%Z -> pow2 e < pow2 e'.
Proof.
  intros Hlt. rewrite !pow2_Rpower. unfold Rpower.
  apply IZR_lt in Hlt. pose proof ln2_pos. apply exp_increasing. nra.
Qed.

Lemma pow2_nat (n : nat) : pow2 (Z.of_nat n) = IZR (2 ^ Z.of_nat n).
Proof.
  unfold pow2. rewrite <- pow_powerRZ. by rewrite pow_IZR.
Qed.

Lemma pow2_nonneg_int (e : Z) : (0 <= e)%Z -> pow2 e = IZR (2 ^ e).
Proof. intros He. rewrite <- (Z2Nat.id e) by done. apply pow2_nat. Qed.

Lemma pow2_0 : pow2 0 = 1.
Proof. done. Qed.

Lemma pow2_opp (e : Z) : pow2 (- e) = / pow2 e.
Proof.
  pose proof (pow2_add e (- e)) as H. rewrite Z.add_opp_diag_r, pow2_0 in H.
  pose proof (pow2_pos e). apply Rmult_eq_reg_l with (pow2 e); [|lra].
  rewrite Rinv_r by lra. lra.
Qed.

Lemma ilog2_bounds (x : R) :
  0 < x -> pow2 (ilog2 x) <= x < pow2 (ilog2 x + 1).
Proof.
  intros Hx. unfold ilog2. pose proof ln2_pos as H2.
  assert (Hxq : x = exp (ln x / ln 2 * ln 2)).
  { replace (ln x / ln 2 * ln 2) with (ln x) by (field; lra). by rewrite exp_ln. }
  generalize dependent (ln x / ln 2). intros q Hxq.
  destruct (Zfloor_bound q) as [Hlo Hhi].
  rewrite !pow2_Rpower, plus_IZR. unfold Rpower. rewrite Hxq.
  split.
  - destruct Hlo as [Hlo|Heq].
    + left. apply exp_increasing. nra.
    + right. by rewrite Heq.
  - apply exp_increasing. nra.
Qed.

Lemma ilog2_unique (x : R) (k : Z) :
  pow2 k <= x < pow2 (k + 1) -> ilog2 x = k.
Proof.
  intros [Hlo Hhi]. pose proof (pow2_pos k) as Hk.
  assert (Hx : 0 < x) by lra.
  destruct (ilog2_bounds x Hx) as [Hlo' Hhi'].
  destruct (Z.lt_trichotomy (ilog2 x) k) as [Hlt|[Heq|Hgt]]; [|done|].
  - assert (pow2 (ilog2 x + 1) <= pow2 k) by (apply pow2_le; lia). lra.
  - assert (pow2 (k + 1) <= pow2 (ilog2 x)) by (apply pow2_le; lia). lra.
Qed.

Lemma ilog2_le (x y : R) : 0 < x -> x <= y -> (ilog2 x <= ilog2 y)%Z.
Proof.
  intros Hx Hxy.
  destruct (ilog2_bounds x Hx) as [Hlo _].
  destruct (ilog2_bounds y) as [_ Hhi]; [lra|].
  destruct (Z_lt_le_dec (ilog2 y) (ilog2 x)) as [Hlt|]; [|done].
  assert (pow2 (ilog2 y + 1) <= pow2 (ilog2 x)) by (apply pow2_le; lia). lra.
Qed.

Lemma nearest_even_bound (t : R) :
  - (1 / 2) <= IZR (nearest_even t) - t <= 1 / 2.
Proof.
  unfold nearest_even. destruct (Zfloor_bound t) as [Hlo Hhi].
  repeat destruct (Rlt_dec _ _); try destruct (Z.even _);
    rewrite ?plus_IZR; lra.
Qed.

Lemma nearest_even_IZR (k : Z) : nearest_even (IZR k) = k.
Proof.
  unfold nearest_even. rewrite ZfloorZ.
  destruct (Rlt_dec _ _) as [|Hn]; [done|]. destruct Hn. lra.
Qed.

Lemma nearest_even_mono (t u : R) :
  t <= u -> (nearest_even t <= nearest_even u)%Z.
Proof.
  intros Htu.
  pose proof (Zfloor_le t u Htu) as Hfl.
  destruct (Zfloor_bound t) as [Hlo Hhi]. destruct (Zfloor_bound u) as [Hlo' Hhi'].
  destruct (Z.eq_dec (Zfloor t) (Zfloor u)) as [Heq|Hne].
  - unfold nearest_even. rewrite <- Heq in *.
    repeat destruct (Rlt_dec _ _); try destruct (Z.even _); try lia; lra.
  - assert (Hlt : (Zfloor t + 1 <= Zfloor u)%Z) by lia.
    assert (nearest_even t <= Zfloor t + 1)%Z.
    { unfold nearest_even.
      repeat destruct (Rlt_dec _ _); try destruct (Z.even _); lia. }
    assert (Zfloor u <= nearest_even u)%Z.
    { unfold nearest_even.
      repeat destruct (Rlt_dec _ _); try destruct (Z.even _); lia. }
    lia.
Qed.

Lemma nearest_even_nonneg (t : R) : 0 <= t -> (0 <= nearest_even t)%Z.
Proof.
  intros Ht. rewrite <- (nearest_even_IZR 0). by apply nearest_even_mono.
Qed.

Lemma round_pos_nonneg (x : R) : 0 < x -> 0 <= round_pos x.
Proof.
  intros Hx. unfold round_pos. pose proof (pow2_pos (ulp_exponent x)) as He.
  apply Rmult_le_pos; [|lra]. apply IZR_le, nearest_even_nonneg.
  apply Rlt_le, Rdiv_lt_0_compat; lra.
Qed.

(** A number of the grid above [x] is above the double of [x], and one
    below is below. *)
Lemma round_pos_le_grid (x : R) (k : Z) :
  0 < x -> x <= IZR k * pow2 (ulp_exponent x) ->
  round_pos x <= IZR k * pow2 (ulp_exponent x).
Proof.
  intros Hx Hle. unfold round_pos. pose proof (pow2_pos (ulp_exponent x)) as He.
  apply Rmult_le_compat_r; [lra|]. apply IZR_le.
  rewrite <- (nearest_even_IZR k). apply nearest_even_mono.
  apply Rmult_le_reg_r with (pow2 (ulp_exponent x)); [done|].
  unfold Rdiv. rewrite Rmult_assoc, Rinv_l by lra. lra.
Qed.

Lemma round_pos_ge_grid (x : R) (k : Z) :
  0 < x -> IZR k * pow2 (ulp_exponent x) <= x ->
  IZR k * pow2 (ulp_exponent x) <= round_pos x.
Proof.
  intros Hx Hle. unfold round_pos. pose proof (pow2_pos (ulp_exponent x)) as He.
  apply Rmult_le_compat_r; [lra|]. apply IZR_le.
  rewrite <- (nearest_even_IZR k) at 1. apply nearest_even_mono.
  apply Rmult_le_reg_r with (pow2 (ulp_exponent x)); [done|].
  unfold Rdiv. rewrite Rmult_assoc, Rinv_l by lra. lra.
Qed.

Lemma pow2_grid (e e' : Z) : (e <= e')%Z -> pow2 e' = IZR (2 ^ (e' - e)) * pow2 e.
Proof.
  intros Hle. rewrite <- pow2_nonneg_int by lia. rewrite <- pow2_add.
  f_equal. lia.
Qed.

Lemma round_pos_mono (x y : R) : 0 < x -> x <= y -> round_pos x <= round_pos y.
Proof.
  intros Hx Hxy. assert (Hy : 0 < y) by lra.
  pose proof (ilog2_le x y Hx Hxy) as Hlog.
  destruct (Z.eq_dec (ulp_exponent x) (ulp_exponent y)) as [Heq|Hne].
  - unfold round_pos. rewrite Heq. pose proof (pow2_pos (ulp_exponent y)) as He.
    apply Rmult_le_compat_r; [lra|]. apply IZR_le, nearest_even_mono.
    apply Rmult_le_compat_r; [|done]. left. by apply Rinv_0_lt_compat.
  - unfold ulp_exponent in Hne.
    assert (Hlt : (ilog2 x < ilog2 y)%Z) by lia.
    assert (Hnormal : (-1022 < ilog2 y)%Z) by lia.
    destruct (ilog2_bounds x Hx) as [_ Hxhi]. destruct (ilog2_bounds y Hy) as [Hylo _].
    assert (Hxg : x <= pow2 (ilog2 y)).
    { assert (pow2 (ilog2 x + 1) <= pow2 (ilog2 y)) by (apply pow2_le; lia). lra. }
    apply Rle_trans with (pow2 (ilog2 y)).
    + rewrite (pow2_grid (ulp_exponent x) (ilog2 y)) in * by (unfold ulp_exponent; lia).
      by apply round_pos_le_grid.
    + rewrite (pow2_grid (ulp_exponent y) (ilog2 y)) in * by (unfold ulp_exponent; lia).
      by apply round_pos_ge_grid.
Qed.

Lemma round_0 : round 0 = 0.
Proof. unfold round. repeat destruct (Rlt_dec _ _); lra. Qed.

Lemma round_of_pos (x : R) : 0 < x -> round x = round_pos x.
Proof. intros Hx. unfold round. by destruct (Rlt_dec 0 x). Qed.

Lemma round_nonneg (x : R) : 0 <= x -> 0 <= round x.
Proof.
  intros [Hx|<-]; [|rewrite round_0; lra].
  rewrite round_of_pos by done. by apply round_pos_nonneg.
Qed.

Lemma round_nonpos (x : R) : x <= 0 -> round x <= 0.
Proof.
  intros Hx. unfold round. destruct (Rlt_dec 0 x); [lra|].
  destruct (Rlt_dec x 0); [|lra].
  pose proof (round_pos_nonneg (- x)). lra.
Qed.

(** Rounding keeps the order. *)
Lemma round_mono (x y : R) : x <= y -> round x <= round y.
Proof.
  intros Hxy.
  destruct (Rlt_dec 0 x) as [Hx|Hx].
  - rewrite !round_of_pos by lra. by apply round_pos_mono.
  - apply Rnot_lt_le in Hx.
    destruct (Rle_dec 0 y) as [Hy|Hy].
    + pose proof (round_nonpos x Hx). pose proof (round_nonneg y Hy). lra.
    + apply Rnot_le_lt in Hy. unfold round.
      destruct (Rlt_dec 0 x); [lra|]. destruct (Rlt_dec 0 y); [lra|].
      destruct (Rlt_dec x 0); [|lra]. destruct (Rlt_dec y 0); [|lra].
      apply Ropp_le_contravar. apply round_pos_mono; lra.
Qed.

(** A number of the form [k * 2^e] with [k < 2^53] and [e >= -1074] is a
    double. *)
Lemma round_1 : round 1 = 1.
Proof.
  rewrite round_of_pos by lra.
  assert (Hlog : ilog2 1 = 0%Z).
  { apply ilog2_unique. rewrite pow2_0. change (pow2 (0 + 1)) with (pow2 1).
    rewrite (pow2_nonneg_int 1) by lia. simpl. lra. }
  unfold round_pos, ulp_exponent. rewrite Hlog.
  change (Z.max 0 (-1022) - 52)%Z with (Z.opp 52).
  rewrite (pow2_opp 52). unfold Rdiv. rewrite Rinv_inv.
  rewrite (pow2_nonneg_int 52) by lia. rewrite Rmult_1_l, nearest_even_IZR.
  apply Rinv_r. apply not_0_IZR. lia.
Qed.

(** Below half the smallest subnormal number everything is rounded to
    zero. *)
Lemma round_underflow (x : R) : 0 <= x <= pow2 (-1075) -> round x = 0.
Proof.
  intros [[Hx|<-] Hle]; [|apply round_0].
  rewrite round_of_pos by done.
  assert (Hlog : (ilog2 x <= -1075)%Z).
  { destruct (ilog2_bounds x Hx) as [Hlo _].
    destruct (Z_lt_le_dec (-1075) (ilog2 x)) as [Hlt|]; [|lia].
    destruct (Rle_lt_or_eq_dec _ _ Hle) as [Hlt'|Heq].
    - assert (pow2 (-1075) <= pow2 (ilog2 x)) by (apply pow2_le; lia). lra.
    - rewrite Heq. rewrite (ilog2_unique (pow2 (-1075)) (-1075)); [lia|].
      split; [lra|]. apply pow2_lt. lia. }
  unfold round_pos, ulp_exponent. rewrite Z.max_r by lia.
  change (-1022 - 52)%Z with (-1074)%Z.
  assert (Hhalf : pow2 (-1075) = 1 / 2 * pow2 (-1074)).
  { change (-1075)%Z with (-1 + -1074)%Z. rewrite pow2_add.
    f_equal. unfold pow2. simpl. lra. }
  pose proof (pow2_pos (-1074)) as Hp.
  assert (Ht : 0 < x / pow2 (-1074) <= 1 / 2).
  { split; [apply Rdiv_lt_0_compat; lra|].
    apply Rmult_le_reg_r with (pow2 (-1074)); [done|].
    unfold Rdiv at 1. rewrite Rmult_assoc, Rinv_l by lra. lra. }
  assert (Hn : nearest_even (x / pow2 (-1074)) = 0%Z).
  { unfold nearest_even.
    rewrite (Zfloor_eq 0 (x / pow2 (-1074))) by lra. cbv zeta.
    rewrite Rminus_0_r.
    repeat destruct (Rlt_dec _ _); try done. lra. }
  rewrite Hn. lra.
Qed.

(** The error of rounding is at most half a unit in the last place. *)
Lemma round_pos_error (x : R) :
  0 < x ->
  - (pow2 (ulp_exponent x) / 2) <= round_pos x - x <= pow2 (ulp_exponent x) / 2.
Proof.
  intros Hx. unfold round_pos. set (e := ulp_exponent x).
  pose proof (pow2_pos e) as He.
  pose proof (nearest_even_bound (x / pow2 e)) as Hb.
  assert (Hx' : x = x / pow2 e * pow2 e) by (field; lra).
  rewrite Hx' at 2 4. nra.
Qed.

Lemma round_error_normal (x : R) :
  pow2 (-1022) <= x -> - (pow2 (-53) * x) <= round x - x <= pow2 (-53) * x.
Proof.
  intros Hx. pose proof (pow2_pos (-1022)).
  assert (Hpos : 0 < x) by lra.
  rewrite round_of_pos by done.
  pose proof (round_pos_error x Hpos) as Herr.
  destruct (ilog2_bounds x Hpos) as [Hlo Hhi].
  assert (Hlog : (-1022 <= ilog2 x)%Z).
  { destruct (Z_lt_le_dec (ilog2 x) (-1022)) as [Hlt|]; [|done].
    assert (pow2 (ilog2 x + 1) <= pow2 (-1022)) by (apply pow2_le; lia). lra. }
  unfold ulp_exponent in Herr. rewrite Z.max_l in Herr by lia.
  replace (ilog2 x - 52)%Z with (-52 + ilog2 x)%Z in Herr by lia.
  rewrite pow2_add in Herr.
  change (-53)%Z with (-1 + -52)%Z. rewrite pow2_add.
  assert (pow2 (-1) = / 2) as -> by (unfold pow2; simpl; lra).
  pose proof (pow2_pos (-52)). nra.
Qed.

Lemma round_error_subnormal (x : R) :
  0 <= x <= pow2 (-1022) -> - pow2 (-1075) <= round x - x <= pow2 (-1075).
Proof.
  intros [[Hx|<-] Hle].
  2:{ rewrite round_0. pose proof (pow2_pos (-1075)). lra. }
  rewrite round_of_pos by done.
  pose proof (round_pos_error x Hx) as Herr.
  assert (Hlog : (ilog2 x <= -1022)%Z).
  { destruct (ilog2_bounds x Hx) as [Hlo _].
    destruct (Z_lt_le_dec (-1022) (ilog2 x)) as [Hlt|]; [|lia].
    destruct (Rle_lt_or_eq_dec _ _ Hle) as [Hlt'|Heq].
    - assert (pow2 (-1022) <= pow2 (ilog2 x)) by (apply pow2_le; lia). lra.
    - rewrite Heq. rewrite (ilog2_unique (pow2 (-1022)) (-1022)); [lia|].
      split; [lra|]. apply pow2_lt. lia. }
  unfold ulp_exponent in Herr. rewrite Z.max_r in Herr by lia.
  change (-1022 - 52)%Z with (1 + -1075)%Z in Herr. rewrite pow2_add in Herr.
  assert (pow2 1 = 2) as Htwo by (unfold pow2; simpl; lra).
  rewrite Htwo in Herr. lra.
Qed.

Lemma pow2_neg (p : positive) : pow2 (Z.neg p) = / IZR (2 ^ Z.pos p).
Proof.
  change (Z.neg p) with (Z.opp (Z.pos p)). by rewrite pow2_opp, pow2_nonneg_int.
Qed.

Lemma pow2_53 : pow2 (-53) = / 9007199254740992.
Proof. by rewrite pow2_neg. Qed.

Lemma pow2_small (e : Z) : (e <= -1)%Z -> pow2 e <= / 2.
Proof.
  intros He. apply Rle_trans with (pow2 (-1)); [by apply pow2_le|].
  rewrite pow2_neg. simpl. lra.
Qed.

(** The double [0.99] is within [2^-53] of 0.99. *)
Lemma base_bounds :
  0.99 - / 9007199254740992 <= round 0.99 <= 0.99 + / 9007199254740992.
Proof.
  pose proof (round_error_normal 0.99) as Herr.
  rewrite pow2_53 in Herr.
  assert (Hn : pow2 (-1022) <= 0.99).
  { pose proof (pow2_small (-1022) ltac:(lia)). lra. }
  specialize (Herr Hn). lra.
Qed.

Lemma ln_upper (x : R) : 0 < x -> ln x <= x - 1.
Proof.
  intros Hx. pose proof (exp_ineq1_le (ln x)) as H. rewrite exp_ln in H by done. lra.
Qed.

Lemma ln_lower (x : R) : 0 < x -> 1 - / x <= ln x.
Proof.
  intros Hx. pose proof (ln_upper (/ x)) as H.
  rewrite ln_Rinv in H by done.
  assert (0 < / x) by (by apply Rinv_0_lt_compat). lra.
Qed.

(** The logarithm of the double [0.99]. *)
Lemma ln_base_bounds : - 0.010102 <= ln (round 0.99) <= - 0.0099999.
Proof.
  pose proof base_bounds as [Hlo Hhi].
  assert (Hpos : 0 < round 0.99) by lra.
  split.
  - eapply Rle_trans; [|by apply ln_lower].
    assert (/ round 0.99 <= / 0.9899999) by (apply Rinv_le_contravar; lra). lra.
  - eapply Rle_trans; [by apply ln_upper|]. lra.
Qed.

Lemma ln2_upper : ln 2 < 0.744.
Proof.
  pose proof (exp_ineq1_le 0.093) as H1.
  pose proof (exp_plus 0.093 0.093) as H2.
  pose proof (exp_plus (0.093 + 0.093) (0.093 + 0.093)) as H4.
  pose proof (exp_plus (0.093 + 0.093 + (0.093 + 0.093))
                       (0.093 + 0.093 + (0.093 + 0.093))) as H8.
  replace (0.093 + 0.093 + (0.093 + 0.093) + (0.093 + 0.093 + (0.093 + 0.093)))
    with 0.744 in H8 by lra.
  set (a := exp 0.093) in *. set (a2 := exp (0.093 + 0.093)) in *.
  set (a4 := exp (0.093 + 0.093 + (0.093 + 0.093))) in *.
  assert (1.194 <= a2) by nra.
  assert (1.425 <= a4) by nra.
  assert (2 < exp 0.744) by nra.
  rewrite <- (ln_exp 0.744). apply ln_increasing; lra.
Qed.

End DoubleFacts.

(** ** The memory stream *)

Module MemoryFacts.
Import Js Memory.

(** *** [uniq] and the document frequencies *)

Lemma elem_of_uniq (x : string) (l : list string) : x ∈ Util.uniq l ↔ x ∈ l.
Proof.
  induction l as [|y l IH]; simpl; [done|].
  rewrite !elem_of_cons, list_elem_of_filter, IH.
  destruct (decide (x = y)); tauto.
Qed.

Lemma NoDup_uniq (l : list string) : NoDup (Util.uniq l).
Proof.
  induction l as [|y l IH]; simpl; constructor.
  - rewrite list_elem_of_filter. tauto.
  - by apply NoDup_filter.
Qed.

Lemma df_incr_lookup (df : gmap string nat) (t u : string) :
  default 0%nat (df_incr df t !! u) =
  (default 0%nat (df !! u) + if bool_decide (u = t) then 1 else 0)%nat.
Proof.
  unfold df_incr. case_bool_decide as Hu.
  - subst. by rewrite lookup_insert_eq.
  - rewrite lookup_insert_ne by done. lia.
Qed.

Lemma foldl_df_incr (l : list string) (df : gmap string nat) (u : string) :
  NoDup l ->
  default 0%nat (foldl df_incr df l !! u) =
  (default 0%nat (df !! u) + if bool_decide (u ∈ l) then 1 else 0)%nat.
Proof.
  intros Hnd. revert df.
  induction Hnd as [|t l Hnotin Hnd IH]; intros df; cbn [foldl].
  - case_bool_decide as Hin; [by apply elem_of_nil in Hin|lia].
  - rewrite IH, df_incr_lookup.
    repeat case_bool_decide; subst; try lia; exfalso;
      rewrite ?elem_of_cons in *; tauto.
Qed.

Lemma df_of_add (record : MemoryRecord) (s : MemoryStream) (t : string) :
  df_of (add record s) t =
  (df_of s t + if bool_decide (t ∈ tokens record) then 1 else 0)%nat.
Proof.
  unfold df_of, add. simpl.
  rewrite foldl_df_incr by apply NoDup_uniq.
  by rewrite (bool_decide_ext _ _ (elem_of_uniq t (tokens record))).
Qed.

Lemma df_of_exec (c : call) (s : MemoryStream) (t : string) :
  (df_of s t <= df_of (fst (exec c s)) t)%nat.
Proof.
  destruct c; simpl; [|done..].
  rewrite df_of_add. lia.
Qed.

(** C9.  The document-frequency map changes only in [add], which raises
    the count of each distinct token of the new record by exactly one
    and leaves every other count as it is; [retrieve] and [recent] hand
    the stream back with the same records and the same map; so over any
    sequence of calls no count ever goes down. *)
Theorem df_only_grows_by_add :
  (forall record s t,
      df_of (add record s) t =
      (df_of s t + if bool_decide (t ∈ tokens record) then 1 else 0)%nat) /\
  (forall record s, records (add record s) = records s ++ [record]) /\
  (forall query now k types s,
      fst (exec (CallRetrieve query now k types) s) = s) /\
  (forall n s, fst (exec (CallRecent n) s) = s) /\
  (forall cs s t, (df_of s t <= df_of (exec_all cs s) t)%nat) /\
  (forall cs cs' s t,
      (df_of (exec_all cs s) t <= df_of (exec_all (cs ++ cs') s) t)%nat).
Proof.
  assert (Hall : forall cs s t, (df_of s t <= df_of (exec_all cs s) t)%nat).
  { induction cs as [|c cs IH]; intros s t; simpl; [done|].
    etrans; [apply (df_of_exec c)|]. apply IH. }
  split_and!; try done.
  - apply df_of_add.
  - intros cs cs' s t. unfold exec_all in *. rewrite foldl_app. apply Hall.
Qed.

(** *** [recent] *)

Lemma recent_last_n (s : MemoryStream) (n : Z) :
  0 < n -> recent s n = drop (length (records s) - Z.to_nat n) (records s).
Proof. apply JsFacts.slice_suffix. Qed.

Lemma recent_zero (s : MemoryStream) : recent s 0 = records s.
Proof. apply JsFacts.slice_suffix_zero. Qed.

(** *** Weight vectors and relevance *)

Lemma get_set {V} (k k' : string) (v : V) (m : JsMap.t V) :
  JsMap.get (JsMap.set k v m) k' =
  if decide (k' = k) then Some v else JsMap.get m k'.
Proof.
  induction m as [|[k0 v0] m IH]; simpl.
  - by destruct (decide (k' = k)).
  - destruct (decide (k = k0)) as [->|Hne]; simpl.
    + by destruct (decide (k' = k0)).
    + rewrite IH. destruct (decide (k' = k0)) as [->|?]; [|done].
      by rewrite decide_False by done.
Qed.

Lemma keys_set {V} (k k' : string) (v : V) (m : JsMap.t V) :
  k' ∈ JsMap.keys (JsMap.set k v m) ↔ k' = k ∨ k' ∈ JsMap.keys m.
Proof.
  unfold JsMap.keys. induction m as [|[k0 v0] m IH]; simpl.
  - rewrite list_elem_of_singleton, elem_of_nil. tauto.
  - destruct (decide (k = k0)) as [->|Hne]; simpl;
      rewrite !elem_of_cons; [|rewrite IH]; tauto.
Qed.

Lemma get_Some_keys {V} (k : string) (v : V) (m : JsMap.t V) :
  JsMap.get m k = Some v -> k ∈ JsMap.keys m.
Proof.
  unfold JsMap.keys. induction m as [|[k0 v0] m IH]; simpl; [done|].
  destruct (decide (k = k0)) as [->|?]; rewrite elem_of_cons; auto.
Qed.

Lemma keys_count_tf_from (tokens : list string) (acc : JsMap.t nat) (k : string) :
  k ∈ JsMap.keys
        (foldl (λ tf t, JsMap.set t (default 0 (JsMap.get tf t) + 1)%nat tf)
               acc tokens) ↔
  k ∈ JsMap.keys acc ∨ k ∈ tokens.
Proof.
  revert acc. induction tokens as [|t tokens IH]; intros acc; simpl.
  - rewrite elem_of_nil. tauto.
  - rewrite IH, keys_set, elem_of_cons. tauto.
Qed.

Lemma keys_count_tf (tokens : list string) (k : string) :
  k ∈ JsMap.keys (count_tf tokens) ↔ k ∈ tokens.
Proof.
  unfold count_tf. rewrite keys_count_tf_from.
  unfold JsMap.keys. simpl. rewrite elem_of_nil. tauto.
Qed.

Lemma keys_tfidf_from (s : MemoryStream) (tfMap : JsMap.t nat) (acc : JsMap.t R)
    (k : string) :
  k ∈ JsMap.keys
        (foldl (λ out '(t, tf), JsMap.set t (INR tf * _idf s t)%R out) acc tfMap) ↔
  k ∈ JsMap.keys acc ∨ k ∈ JsMap.keys tfMap.
Proof.
  revert acc. induction tfMap as [|[t n] tfMap IH]; intros acc; simpl.
  - unfold JsMap.keys. simpl. rewrite elem_of_nil. tauto.
  - rewrite IH, keys_set. unfold JsMap.keys. simpl.
    rewrite elem_of_cons. tauto.
Qed.

Lemma keys_tfidf (s : MemoryStream) (tfMap : JsMap.t nat) (k : string) :
  k ∈ JsMap.keys (_tfidf s tfMap) ↔ k ∈ JsMap.keys tfMap.
Proof.
  unfold _tfidf. rewrite keys_tfidf_from.
  unfold JsMap.keys. simpl. rewrite elem_of_nil. tauto.
Qed.

Lemma dot_and_norm_disjoint (vecA vecB : JsMap.t R) (dot normA : R) :
  (forall k, k ∈ JsMap.keys vecA -> k ∉ JsMap.keys vecB) ->
  fst (dot_and_norm vecB (dot, normA) vecA) = dot.
Proof.
  unfold dot_and_norm.
  revert dot normA. induction vecA as [|[k wa] vecA IH]; intros dot normA Hdis;
    simpl; [done|].
  destruct (JsMap.get vecB k) as [wb|] eqn:Hget.
  - exfalso. apply (Hdis k); [apply list_elem_of_here|].
    by eapply get_Some_keys.
  - apply IH. intros k' Hk'. apply Hdis. by apply list_elem_of_further.
Qed.

Lemma dot_and_norm_snd (vecA vecB : JsMap.t R) (dot normA : R) :
  snd (dot_and_norm vecB (dot, normA) vecA) =
  foldl (λ norm '(_, w), (norm + w * w)%R) normA vecA.
Proof.
  unfold dot_and_norm.
  revert dot normA. induction vecA as [|[k wa] vecA IH]; intros dot normA;
    simpl; [done|].
  destruct (JsMap.get vecB k); apply IH.
Qed.

Lemma cosineSparse_unfold (vecA vecB : JsMap.t R) :
  cosineSparse vecA vecB =
  if Req_dec_T (snd (dot_and_norm vecB (0, 0)%R vecA)) 0 then 0%R
  else if Req_dec_T (norm2 vecB) 0 then 0%R
  else (fst (dot_and_norm vecB (0, 0)%R vecA)
        / (sqrt (snd (dot_and_norm vecB (0, 0)%R vecA)) * sqrt (norm2 vecB)))%R.
Proof.
  unfold cosineSparse.
  by destruct (dot_and_norm vecB (0%R, 0%R) vecA).
Qed.

Lemma cosineSparse_zero_norm (vecA vecB : JsMap.t R) :
  norm2 vecA = 0%R ∨ norm2 vecB = 0%R -> cosineSparse vecA vecB = 0%R.
Proof.
  intros Hz. rewrite cosineSparse_unfold, dot_and_norm_snd.
  fold (norm2 vecA).
  destruct (Req_dec_T (norm2 vecA) 0); [done|].
  destruct (Req_dec_T (norm2 vecB) 0); [done|].
  tauto.
Qed.

Lemma cosineSparse_disjoint (vecA vecB : JsMap.t R) :
  (forall k, k ∈ JsMap.keys vecA -> k ∉ JsMap.keys vecB) ->
  cosineSparse vecA vecB = 0%R.
Proof.
  intros Hdis. rewrite cosineSparse_unfold, dot_and_norm_disjoint by done.
  repeat destruct (Req_dec_T _ _); try done.
  unfold Rdiv. apply Rmult_0_l.
Qed.

Lemma no_shared_token_no_relevance (s : MemoryStream) (query : string) (now : Z)
    (id : string) (time : Z) (text : string) (importance : Z) (type : string) :
  (forall t, t ∈ tokenize query -> t ∉ tokenize text) ->
  sc_relevance (score_record s (query_vector s query) now
                  (new_MemoryRecord id time text importance type)) = 0%R.
Proof.
  intros Hdis. cbn [score_record sc_relevance new_MemoryRecord tf].
  apply cosineSparse_disjoint. intros k.
  unfold query_vector. rewrite !keys_tfidf, !keys_count_tf. apply Hdis.
Qed.

Lemma coffee_and_tea_share_nothing :
  forall t, t ∈ tokenize "coffee" -> t ∉ tokenize "X dislikes tea".
Proof.
  intros t Ht Ht'.
  change (tokenize "coffee") with ["coffee"] in Ht.
  change (tokenize "X dislikes tea") with ["dislikes"; "tea"] in Ht'.
  apply list_elem_of_singleton in Ht. subst t.
  rewrite !elem_of_cons, elem_of_nil in Ht'.
  destruct Ht' as [?|[?|[]]]; discriminate.
Qed.

(** C8.  A record that shares no token with the query, after both are
    tokenized, has relevance exactly [0]; so has every record when the
    query tokenizes to nothing, and a record that tokenizes to nothing;
    and [cosineSparse] is [0] whenever one of the two weight vectors has
    norm [0]. *)
Theorem relevance_zero_without_shared_tokens (s : MemoryStream)
    (query : string) (now : Z) (id : string) (time : Z) (text : string)
    (importance : Z) (type : string) :
  let rec := new_MemoryRecord id time text importance type in
  let relevance := sc_relevance (score_record s (query_vector s query) now rec) in
  ((forall t, t ∈ tokenize query -> t ∉ tokenize text) -> relevance = 0%R) /\
  (tokenize query = [] ∨ tokenize text = [] -> relevance = 0%R) /\
  (norm2 (query_vector s query) = 0%R ∨ norm2 (_tfidf s (tf rec)) = 0%R ->
   relevance = 0%R) /\
  (forall vecA vecB,
      norm2 vecA = 0%R ∨ norm2 vecB = 0%R -> cosineSparse vecA vecB = 0%R).
Proof.
  split_and!.
  - apply no_shared_token_no_relevance.
  - intros [Hq|Ht]; apply no_shared_token_no_relevance; intros t;
      rewrite ?Hq, ?Ht; rewrite ?elem_of_nil; tauto.
  - apply cosineSparse_zero_norm.
  - apply cosineSparse_zero_norm.
Qed.

(** The query [coffee] and the record [X dislikes tea] share no token. *)
Lemma relevance_zero_without_shared_tokens_witness :
  (forall t, t ∈ tokenize "coffee" -> t ∉ tokenize "X dislikes tea") /\
  sc_relevance
    (score_record Samples.two_records
                  (query_vector Samples.two_records "coffee") 0
                  Samples.dislikes_tea) = 0%R.
Proof.
  split; [exact coffee_and_tea_share_nothing|].
  exact (proj1 (relevance_zero_without_shared_tokens
                  Samples.two_records "coffee" 0 "mem_2" 0 "X dislikes tea" 3
                  "observation") coffee_and_tea_share_nothing).
Defined.

(** *** [retrieve] *)

Lemma eligible_spec (types : option (list string)) (rec : MemoryRecord) :
  eligible types rec = true ↔
  types = None ∨ ∃ ts, types = Some ts ∧ type rec ∈ ts.
Proof.
  destruct types as [ts|]; simpl.
  - rewrite bool_decide_eq_true. split.
    + intros Hin. right. by exists ts.
    + intros [?|(ts' & [= <-] & Hin)]; done.
  - split; [by left|done].
Qed.

Lemma scored_of_records (s : MemoryStream) (query : string) (now : Z)
    (types : option (list string)) :
  sc_rec <$> scored_of s query now types =
  List.filter (eligible types) (records s).
Proof.
  unfold scored_of.
  induction (List.filter _ _) as [|rec l IH]; [done|].
  cbn [fmap list_fmap] in *. by rewrite IH.
Qed.

Lemma scored_of_components (s : MemoryStream) (query : string) (now : Z)
    (types : option (list string)) (a : Scored) :
  a ∈ scored_of s query now types ->
  sc_score a = (sc_relevance a + sc_recency a + sc_importance a)%R /\
  sc_relevance a =
    cosineSparse (query_vector s query) (_tfidf s (tf (sc_rec a))) /\
  sc_recency a = Double.pow (Double.round 0.99) (elapsed_hours now (sc_rec a)) /\
  sc_importance a = (Rmax 1 (Rmin 10 (IZR (importance (sc_rec a)))) / 10)%R.
Proof.
  unfold scored_of. intros (rec & -> & _)%list_elem_of_fmap. done.
Qed.

Lemma retrieve_unfold (s : MemoryStream) (query : string) (now k : Z)
    (types : option (list string)) :
  0 <= k ->
  retrieve s query now k types =
  take (Z.to_nat k) (sort (descending sc_score) (scored_of s query now types)).
Proof. intros Hk. unfold retrieve. by apply JsFacts.slice_prefix. Qed.

(** C1.  For a bound [k >= 0], [retrieve] scores exactly the records
    whose type passes the filter (every record when there is no
    filter), each with the sum of its relevance, recency and importance
    components; it returns at most [k] of them, all of them when there
    are no more than [k]; the results are in order of non-increasing
    score, and no candidate that is left out has a higher score than one
    that is returned. *)
Theorem retrieve_top_k (s : MemoryStream) (query : string) (now k : Z)
    (types : option (list string)) :
  0 <= k ->
  let candidates := scored_of s query now types in
  let results := retrieve s query now k types in
  sc_rec <$> candidates = List.filter (eligible types) (records s) /\
  (forall rec, eligible types rec = true ↔
               types = None ∨ ∃ ts, types = Some ts ∧ type rec ∈ ts) /\
  (forall a, a ∈ candidates ->
     sc_score a = (sc_relevance a + sc_recency a + sc_importance a)%R /\
     sc_relevance a =
       cosineSparse (query_vector s query) (_tfidf s (tf (sc_rec a))) /\
     sc_recency a =
       Double.pow (Double.round 0.99) (elapsed_hours now (sc_rec a)) /\
     sc_importance a =
       (Rmax 1 (Rmin 10 (IZR (importance (sc_rec a)))) / 10)%R) /\
  Z.of_nat (length results) <= k /\
  length results = (Z.to_nat k `min` length candidates)%nat /\
  (Z.of_nat (length candidates) <= k -> Permutation results candidates) /\
  StronglySorted (λ a b, (sc_score b <= sc_score a)%R) results /\
  (∃ rest, Permutation (results ++ rest) candidates /\
           forall a b, a ∈ results -> b ∈ rest ->
                       (sc_score b <= sc_score a)%R).
Proof.
  intros Hk candidates results.
  assert (Hres : results =
                 take (Z.to_nat k) (sort (descending sc_score) candidates))
    by (by apply retrieve_unfold).
  assert (Hperm : Permutation (sort (descending sc_score) candidates) candidates)
    by apply JsFacts.sort_perm.
  assert (Hsorted : StronglySorted (before sc_score)
                      (sort (descending sc_score) candidates))
    by apply JsFacts.sort_sorted.
  assert (Hlen : length results = (Z.to_nat k `min` length candidates)%nat).
  { rewrite Hres, length_take. by rewrite (Permutation_length Hperm). }
  split_and!.
  - apply scored_of_records.
  - apply eligible_spec.
  - apply scored_of_components.
  - lia.
  - exact Hlen.
  - intros Hall. rewrite Hres, take_ge; [done|].
    rewrite (Permutation_length Hperm). lia.
  - rewrite Hres. by apply JsFacts.sorted_take.
  - exists (drop (Z.to_nat k) (sort (descending sc_score) candidates)).
    split.
    + by rewrite Hres, take_drop.
    + intros a b Ha Hb. rewrite Hres in Ha.
      by eapply (JsFacts.sorted_take_drop sc_score).
Qed.

(** One result is asked of a stream of two records. *)
Lemma retrieve_top_k_witness :
  0 <= 1 /\
  Z.of_nat (length (retrieve Samples.two_records "coffee" 0 1 None)) <= 1 /\
  length (retrieve Samples.two_records "coffee" 0 1 None) = 1%nat.
Proof.
  assert (Hk : 0 <= 1) by lia.
  pose proof (retrieve_top_k Samples.two_records "coffee" 0 1 None Hk)
    as (_ & _ & _ & Hmost & Hlen & _).
  split; [exact Hk|]. split; [exact Hmost|].
  rewrite Hlen. unfold scored_of. by rewrite length_fmap.
Defined.

(** C10.  [recent(0)] does not return an empty list: [slice(-0)] is
    [slice(0)], so on a stream of two records it returns both, whereas
    for every [n > 0] it returns the last [n] records in order. *)
Theorem recent_zero_returns_every_record :
  recent Samples.two_records 0 = [Samples.likes_coffee; Samples.dislikes_tea] /\
  recent Samples.two_records 0 <> [] /\
  (forall s n, 0 < n ->
     recent s n = drop (length (records s) - Z.to_nat n) (records s)).
Proof.
  split_and!.
  - by rewrite recent_zero.
  - by rewrite recent_zero.
  - apply recent_last_n.
Qed.

(** *** Recency *)

Section Recency.
Import Double DoubleFacts.
Local Open Scope R_scope.

Local Abbreviation hours_of d := (Rmax 0 (round (IZR d / 3600000))).
Local Abbreviation decay d := (pow (round 0.99) (hours_of d)).

Lemma hours_of_nonneg (d : Z) : 0 <= hours_of d.
Proof. apply Rmax_l. Qed.

Lemma hours_of_round (d : Z) : (0 <= d)%Z -> hours_of d = round (IZR d / 3600000).
Proof.
  intros Hd. apply Rmax_right. apply round_nonneg.
  apply IZR_le in Hd. apply Rmult_le_pos; lra.
Qed.

Lemma hours_of_future (d : Z) : (d <= 0)%Z -> hours_of d = 0.
Proof.
  intros Hd. apply Rmax_left. apply round_nonpos.
  apply IZR_le in Hd. assert (0 < / 3600000) by lra. unfold Rdiv. nra.
Qed.

Lemma hours_of_mono (d d' : Z) : (d <= d')%Z -> hours_of d <= hours_of d'.
Proof.
  intros Hd. apply Rle_max_compat_l, round_mono.
  apply IZR_le in Hd. lra.
Qed.

(** The hours are within a relative error of [2^-53] of the quotient. *)
Lemma hours_of_error (d : Z) :
  (0 <= d)%Z ->
  - (/ 9007199254740992 * (IZR d / 3600000)) <= hours_of d - IZR d / 3600000
    <= / 9007199254740992 * (IZR d / 3600000).
Proof.
  intros Hd. rewrite hours_of_round by done.
  destruct (Z.eq_dec d 0%Z) as [->|Hne].
  { replace (0 / 3600000) with 0 by lra. rewrite round_0. lra. }
  assert (H1 : (1 <= d)%Z) by lia. apply IZR_le in H1.
  rewrite <- pow2_53. apply round_error_normal.
  apply Rle_trans with (pow2 (-22)).
  - apply pow2_le. lia.
  - rewrite pow2_neg. simpl.
    apply Rle_trans with (1 / 3600000); [lra|].
    apply Rmult_le_compat_r; lra.
Qed.

Lemma decay_at_zero (d : Z) : (d <= 0)%Z -> decay d = 1.
Proof.
  intros Hd. unfold pow. rewrite hours_of_future by done.
  pose proof base_bounds. rewrite Rpower_O by lra. apply round_1.
Qed.

Lemma Rpower_base_le (h h' : R) :
  h <= h' -> Rpower (round 0.99) h' <= Rpower (round 0.99) h.
Proof.
  intros Hh. unfold Rpower. pose proof ln_base_bounds.
  destruct (Req_dec h h') as [->|Hne]; [lra|].
  left. apply exp_increasing. nra.
Qed.

Lemma Rpower_base_range (h : R) : 0 <= h -> 0 < Rpower (round 0.99) h <= 1.
Proof.
  intros Hh. split; [apply exp_pos|].
  pose proof base_bounds. rewrite <- (Rpower_O (round 0.99)) by lra.
  by apply Rpower_base_le.
Qed.

Lemma decay_range (d : Z) : 0 <= decay d <= 1.
Proof.
  unfold pow.
  destruct (Rpower_base_range (hours_of d) (hours_of_nonneg d)) as [Hpos Hle].
  split.
  - apply round_nonneg. lra.
  - rewrite <- round_1. by apply round_mono.
Qed.

Lemma decay_mono (d d' : Z) : (d <= d')%Z -> decay d' <= decay d.
Proof.
  intros Hd. unfold pow. apply round_mono, Rpower_base_le.
  by apply hours_of_mono.
Qed.

(** From 80000 hours on the power is below half the smallest positive
    double. *)
Lemma decay_underflow (d : Z) : (80000 * 3600000 <= d)%Z -> decay d = 0.
Proof.
  intros Hd. unfold pow. apply round_underflow.
  pose proof (hours_of_error d) as Herr.
  assert (Hq : 80000 <= IZR d / 3600000).
  { apply IZR_le in Hd. rewrite mult_IZR in Hd. lra. }
  specialize (Herr ltac:(lia)).
  assert (Hh : 79999 <= hours_of d) by lra.
  split; [left; apply exp_pos|].
  rewrite pow2_Rpower. unfold Rpower.
  pose proof ln_base_bounds. pose proof ln2_upper. pose proof ln2_pos.
  left. apply exp_increasing. nra.
Qed.

(** Within 50000 hours the decay is strict, a millisecond apart. *)
Lemma decay_strict (d d' : Z) :
  (0 <= d)%Z -> (d < d')%Z -> (d' <= 50000 * 3600000)%Z -> decay d' < decay d.
Proof.
  intros H0 Hlt Hmax. unfold pow.
  pose proof (hours_of_error d H0) as Herr.
  pose proof (hours_of_error d' ltac:(lia)) as Herr'.
  assert (Hd : 0 <= IZR d) by (by apply IZR_le in H0).
  assert (Hd' : IZR d + 1 <= IZR d').
  { rewrite <- plus_IZR. apply IZR_le. lia. }
  assert (Hmax' : IZR d' <= 50000 * 3600000).
  { apply IZR_le in Hmax. by rewrite mult_IZR in Hmax. }
  set (h := hours_of d) in *. set (h' := hours_of d') in *.
  assert (Hgap : 2 / 10000000 <= h' - h) by lra.
  assert (Hh' : h' <= 50001) by lra.
  assert (Hh : 0 <= h) by apply hours_of_nonneg.
  set (l := ln (round 0.99)). pose proof ln_base_bounds as Hl. fold l in Hl.
  set (P := Rpower (round 0.99) h). set (P' := Rpower (round 0.99) h').
  assert (HP : 0 < P) by apply exp_pos.
  assert (HP' : 0 < P') by apply exp_pos.
  (* the power drops by a factor *)
  assert (Hdrop : P' * (1 + 198 / 100000000000) <= P).
  { assert (Hfac : P = P' * exp ((h' - h) * - l)).
    { unfold P, P', Rpower. fold l. rewrite <- exp_plus. f_equal. lra. }
    rewrite Hfac. apply Rmult_le_compat_l; [lra|].
    eapply Rle_trans; [|apply exp_ineq1_le]. nra. }
  (* the larger power is a normal number *)
  assert (Hnormal : pow2 (-1022) <= P).
  { unfold P. rewrite pow2_Rpower. unfold Rpower. fold l.
    pose proof ln_lt_2. left. apply exp_increasing. nra. }
  pose proof (round_error_normal P Hnormal) as HerrP.
  rewrite pow2_53 in HerrP.
  assert (HerrP' : round P' - P' <= / 9007199254740992 * P).
  { destruct (Rle_dec (pow2 (-1022)) P') as [Hn|Hn].
    - pose proof (round_error_normal P' Hn) as He.
      rewrite pow2_53 in He. nra.
    - apply Rnot_le_lt in Hn.
      pose proof (round_error_subnormal P' ltac:(lra)) as He.
      assert (pow2 (-1075) = / 9007199254740992 * pow2 (-1022)) as Hsplit.
      { change (-1075)%Z with (-53 + -1022)%Z. by rewrite pow2_add, pow2_53. }
      rewrite Hsplit in He. nra. }
  nra.
Qed.

End Recency.

Lemma recency_of_elapsed (now : Z) (rec : MemoryRecord) :
  recency_of now rec =
  Double.pow (Double.round 0.99)
             (Rmax 0 (Double.round (IZR (now - time rec) / 3600000))).
Proof. done. Qed.

(** C7, as the code has it.  The recency component of a score is the
    double that [Math.pow] returns for the double [0.99] and the hours
    elapsed between the record's time and [now], floored at [0]: the
    power, rounded.  It is [1] when nothing has elapsed (a record dated
    in the future included), it lies within [0 .. 1], and it never grows
    as time goes by.  It is strictly smaller from one millisecond to the
    next as long as no more than 50000 hours have elapsed; from 80000
    hours on the power is below half the smallest positive double, and
    the recency is exactly [0]. *)
Theorem recency_decays (s : MemoryStream) (qVec : JsMap.t R) (now : Z)
    (rec : MemoryRecord) :
  let recency := sc_recency (score_record s qVec now rec) in
  recency =
    Double.pow (Double.round 0.99)
               (Rmax 0 (Double.round (IZR (now - time rec) / 3600000))) /\
  (now <= time rec -> recency = 1%R) /\
  (0 <= recency <= 1)%R /\
  (forall now', now <= now' ->
      (sc_recency (score_record s qVec now' rec) <= recency)%R) /\
  (forall now', time rec <= now -> now < now' ->
      now' - time rec <= 50000 * 3600000 ->
      (sc_recency (score_record s qVec now' rec) < recency)%R) /\
  (80000 * 3600000 <= now - time rec -> recency = 0%R).
Proof.
  cbn [score_record sc_recency]. rewrite recency_of_elapsed.
  split; [done|]. split; [|split; [|split; [|split]]].
  - intros Hle. apply decay_at_zero. lia.
  - apply decay_range.
  - intros now' Hle. rewrite recency_of_elapsed. apply decay_mono. lia.
  - intros now' Hle Hlt Hmax. rewrite recency_of_elapsed.
    apply decay_strict; lia.
  - apply decay_underflow.
Qed.

(** C7, as it is stated, does not hold: the recency is not strictly
    decreasing, and it is not the power of 0.99, which is never zero.
    For a record of time 0 it is exactly 0 after 80000 hours and after
    90000 hours alike. *)
Lemma recency_is_zero_after_nine_years :
  let early := sc_recency (score_record Samples.two_records []
                                        (80000 * 3600000) Samples.likes_coffee) in
  let late := sc_recency (score_record Samples.two_records []
                                       (90000 * 3600000) Samples.likes_coffee) in
  early = 0%R /\ late = 0%R /\ ¬ (late < early)%R /\
  (0 < Rpower 0.99 90000)%R.
Proof.
  cbn [score_record sc_recency]. rewrite !recency_of_elapsed.
  change (time Samples.likes_coffee) with 0. rewrite !Z.sub_0_r.
  rewrite !decay_underflow by lia.
  split; [done|]. split; [done|]. split; [lra|]. apply exp_pos.
Qed.

(** *** Scores of a stream that was filled by [add] *)

Lemma counts_bounded_new : counts_bounded new_MemoryStream.
Proof. intros t. unfold df_of. simpl. by rewrite lookup_empty. Qed.

Lemma counts_bounded_add (record : MemoryRecord) (s : MemoryStream) :
  counts_bounded s -> counts_bounded (add record s).
Proof.
  intros Hs t. rewrite df_of_add. specialize (Hs t).
  cbn [add records]. rewrite length_app. simpl.
  case_bool_decide; lia.
Qed.

Lemma idf_at_least_one (s : MemoryStream) (t : string) :
  counts_bounded s -> (1 <= _idf s t)%R.
Proof.
  intros Hs. unfold _idf. specialize (Hs t).
  set (N := match length (records s) with O => 1%nat | n => n end).
  assert (HN : (df_of s t <= N)%nat) by (unfold N; destruct (length _); lia).
  apply le_INR in HN. pose proof (pos_INR (df_of s t)) as Hdf.
  assert (Hratio : (1 <= (INR N + 1) / (INR (df_of s t) + 1))%R).
  { apply (Rmult_le_reg_r (INR (df_of s t) + 1)); [lra|].
    unfold Rdiv. rewrite Rmult_assoc, Rinv_l by lra. lra. }
  destruct Hratio as [Hlt|<-].
  - apply ln_increasing in Hlt; [|lra]. rewrite ln_1 in Hlt. lra.
  - rewrite ln_1. lra.
Qed.

Lemma set_weights_nonneg (k : string) (w : R) (vec : JsMap.t R) :
  (0 <= w)%R -> weights_nonneg vec -> weights_nonneg (JsMap.set k w vec).
Proof.
  intros Hw. unfold weights_nonneg.
  induction 1 as [|[k0 w0] vec Hw0 Hvec IH]; simpl.
  - by apply Forall_singleton.
  - destruct (decide (k = k0)); constructor; auto.
Qed.

Lemma tfidf_weights_nonneg (s : MemoryStream) (tfMap : JsMap.t nat) :
  counts_bounded s -> weights_nonneg (_tfidf s tfMap).
Proof.
  intros Hs. unfold _tfidf.
  assert (Hgen : forall acc, weights_nonneg acc ->
            weights_nonneg
              (foldl (λ out '(t, tf), JsMap.set t (INR tf * _idf s t)%R out)
                     acc tfMap)).
  { induction tfMap as [|[t n] tfMap IH]; intros acc Hacc; [done|].
    cbn [foldl]. apply IH. apply set_weights_nonneg; [|done].
    apply Rmult_le_pos; [apply pos_INR|].
    pose proof (idf_at_least_one s t Hs). lra. }
  apply Hgen. constructor.
Qed.

Lemma get_weight_nonneg (vec : JsMap.t R) (k : string) (w : R) :
  weights_nonneg vec -> JsMap.get vec k = Some w -> (0 <= w)%R.
Proof.
  unfold weights_nonneg. induction 1 as [|[k0 w0] vec Hw0 Hvec IH]; simpl; [done|].
  destruct (decide (k = k0)); [by intros [= <-]|done].
Qed.

Lemma dot_nonneg (vecA vecB : JsMap.t R) (dot normA : R) :
  weights_nonneg vecA -> weights_nonneg vecB -> (0 <= dot)%R ->
  (0 <= fst (dot_and_norm vecB (dot, normA) vecA))%R.
Proof.
  unfold dot_and_norm. intros HA HB. revert dot normA.
  induction HA as [|[k wa] vecA Hwa HA IH]; intros dot normA Hdot; [done|].
  cbn [foldl]. simpl in Hwa.
  destruct (JsMap.get vecB k) as [wb|] eqn:Hget; apply IH; [|done].
  pose proof (get_weight_nonneg vecB k wb HB Hget).
  pose proof (Rmult_le_pos wa wb). lra.
Qed.

Lemma div_nonneg (u v : R) : (0 <= u)%R -> (0 <= v)%R -> (0 <= u / v)%R.
Proof.
  intros Hu [Hv|<-].
  - apply Rmult_le_pos; [done|]. left. by apply Rinv_0_lt_compat.
  - unfold Rdiv. rewrite Rinv_0. lra.
Qed.

Lemma cosineSparse_nonneg (vecA vecB : JsMap.t R) :
  weights_nonneg vecA -> weights_nonneg vecB -> (0 <= cosineSparse vecA vecB)%R.
Proof.
  intros HA HB. rewrite cosineSparse_unfold.
  repeat destruct (Req_dec_T _ _); try lra.
  apply div_nonneg.
  - by apply dot_nonneg.
  - apply Rmult_le_pos; apply sqrt_pos.
Qed.

(** The scenario of the specification: in a stream that holds
    [X likes coffee] with importance 5 and [X dislikes tea] with importance
    3, both recorded at time 0, the query [coffee] at time 0 ranks the
    first strictly above the second. *)
Example coffee_ranks_first :
  ∃ first second,
    retrieve Samples.two_records "coffee" 0 8 None = [first; second] ∧
    sc_rec first = Samples.likes_coffee ∧
    sc_rec second = Samples.dislikes_tea ∧
    (sc_score second < sc_score first)%R.
Proof.
  set (s := Samples.two_records).
  assert (Hs : counts_bounded s).
  { do 2 apply counts_bounded_add. apply counts_bounded_new. }
  set (qVec := query_vector s "coffee").
  set (first := score_record s qVec 0 Samples.likes_coffee).
  set (second := score_record s qVec 0 Samples.dislikes_tea).
  assert (Hrel1 : (0 <= sc_relevance first)%R).
  { apply cosineSparse_nonneg; by apply tfidf_weights_nonneg. }
  assert (Hrel2 : sc_relevance second = 0%R)
    by (apply no_shared_token_no_relevance, coffee_and_tea_share_nothing).
  assert (Hrec : forall rec, time rec = 0 -> recency_of 0 rec = 1%R).
  { intros rec Ht. rewrite recency_of_elapsed. apply decay_at_zero. lia. }
  assert (Hlt : (sc_score second < sc_score first)%R).
  { unfold first, second, score_record in *. cbn [sc_score sc_relevance] in *.
    rewrite Hrel2, !Hrec by done.
    change (importance Samples.likes_coffee) with 5.
    change (importance Samples.dislikes_tea) with 3.
    rewrite !Rmin_right, !Rmax_right by lra. lra. }
  exists first, second. split_and!; try done.
  rewrite retrieve_unfold by lia.
  change (scored_of s "coffee" 0 None) with [first; second].
  cbn [sort foldr insert_sorted]. unfold descending.
  destruct (Rlt_dec 0 (sc_score second - sc_score first)); [lra|done].
Qed.

End MemoryFacts.

(** ** Perception *)

Module WorldFacts.
Import Js World.

Lemma samePlace_spec (w : t) (agent a : AgentState.t) :
  samePlace w (placeAt w (AgentState.x agent) (AgentState.y agent)) a = true ↔
  same_place_id w agent a.
Proof.
  unfold samePlace, same_place_id.
  destruct (placeAt w (AgentState.x agent) (AgentState.y agent)) as [p|].
  - destruct (placeAt w (AgentState.x a) (AgentState.y a)) as [p'|].
    + rewrite bool_decide_eq_true. split.
      * intros Hid. by exists p, p'.
      * by intros (? & ? & [= <-] & [= <-] & Hid).
    + split; [done|]. by intros (? & ? & _ & ? & _).
  - split; [done|]. by intros (? & ? & ? & _).
Qed.

Lemma others_spec (w : t) (agent : AgentState.t) (allAgents : list AgentState.t)
    (a : AgentState.t) :
  a ∈ List.filter
        (λ a, negb (bool_decide (AgentState.id a = AgentState.id agent))
              && samePlace w (placeAt w (AgentState.x agent) (AgentState.y agent)) a)
        allAgents ↔
  a ∈ allAgents ∧ AgentState.id a ≠ AgentState.id agent ∧ same_place_id w agent a.
Proof.
  rewrite list_elem_of_In, filter_In, <- list_elem_of_In.
  rewrite andb_true_iff, negb_true_iff, bool_decide_eq_false, samePlace_spec.
  tauto.
Qed.

Lemma length_last_six {A} (l : list A) : (length (slice l (-6) None) <= 6)%nat.
Proof.
  change (-6) with (Z.opp 6). rewrite JsFacts.slice_suffix by lia.
  rewrite length_drop. lia.
Qed.

(** C3.  In what [perceive] returns, no entry of [others] carries the id
    of the perceiving agent; an agent of [allAgents] with another id is
    listed if it resolves to the same place id as the perceiving agent,
    and every entry of the list comes from such an agent; the chat holds
    at most six entries, is empty when the perceiving agent resolves to
    no place, and is otherwise the last six entries (all of them when
    there are fewer) of the chat log of its place. *)
Theorem perceive_nearby_and_chat (w : t) (agent : AgentState.t)
    (allAgents : list AgentState.t) :
  let p := perceive w agent allAgents in
  (forall o, o ∈ others p -> o_id o ≠ AgentState.id agent) /\
  (forall a, a ∈ allAgents -> AgentState.id a ≠ AgentState.id agent ->
             same_place_id w agent a -> other_of a ∈ others p) /\
  (forall o, o ∈ others p ->
             ∃ a, a ∈ allAgents ∧ o = other_of a ∧
                  AgentState.id a ≠ AgentState.id agent ∧
                  same_place_id w agent a) /\
  (length (chat p) <= 6)%nat /\
  (placeAt w (AgentState.x agent) (AgentState.y agent) = None -> chat p = []) /\
  (forall pl, placeAt w (AgentState.x agent) (AgentState.y agent) = Some pl ->
              id pl ≠ EmptyString ->
              let entries := default [] (chatByPlace w !! id pl) in
              chat p = drop (length entries - 6) entries).
Proof.
  cbn [perceive others chat]. split_and!.
  - intros o (a & -> & Ha)%list_elem_of_fmap.
    apply others_spec in Ha. simpl. tauto.
  - intros a Hin Hid Hsame. apply list_elem_of_fmap_2.
    apply others_spec. tauto.
  - intros o (a & -> & Ha)%list_elem_of_fmap.
    apply others_spec in Ha. exists a. tauto.
  - destruct (placeAt w _ _) as [pl|]; simpl; [|lia].
    case_bool_decide; simpl; [lia|]. apply length_last_six.
  - by intros ->.
  - intros pl -> Hid. simpl.
    rewrite bool_decide_eq_false_2 by done.
    change (-6) with (Z.opp 6). by rewrite JsFacts.slice_suffix by lia.
Qed.

(** *** Sample positions in Smallville *)

Lemma sum_sqr_nonneg (u v : R) : (0 <= u * u + v * v)%R.
Proof.
  pose proof (Rle_0_sqr u). pose proof (Rle_0_sqr v). unfold Rsqr in *. lra.
Qed.

Lemma dist_lt_dist (a b c d a' b' c' d' : R) :
  (Util.dist a b c d < Util.dist a' b' c' d')%R ↔
  ((a - c) * (a - c) + (b - d) * (b - d)
   < (a' - c') * (a' - c') + (b' - d') * (b' - d'))%R.
Proof.
  unfold Util.dist. cbv zeta. split.
  - apply sqrt_lt_0_alt.
  - intros Hlt. apply sqrt_lt_1_alt. split; [apply sum_sqr_nonneg|done].
Qed.

Lemma dist_lt_bound (a b c d k : R) :
  (0 <= k)%R ->
  (Util.dist a b c d < k)%R ↔ ((a - c) * (a - c) + (b - d) * (b - d) < k * k)%R.
Proof.
  intros Hk. rewrite <- (sqrt_square k) at 1 by done.
  unfold Util.dist. cbv zeta. split.
  - apply sqrt_lt_0_alt.
  - intros Hlt. apply sqrt_lt_1_alt. split; [apply sum_sqr_nonneg|done].
Qed.

Lemma dist_le_bound (a b c d k : R) :
  (0 <= k)%R ->
  (Util.dist a b c d <= k)%R ↔ ((a - c) * (a - c) + (b - d) * (b - d) <= k * k)%R.
Proof.
  intros Hk. rewrite <- (sqrt_square k) at 1 by done.
  unfold Util.dist. cbv zeta. split.
  - apply sqrt_le_0; [apply sum_sqr_nonneg|by apply Rmult_le_pos].
  - intros Hle. by apply sqrt_le_1_alt.
Qed.

Ltac nearest_step :=
  match goal with
  | |- context [Rlt_dec (Util.dist ?a ?b ?c ?d) (Util.dist ?a' ?b' ?c' ?d')] =>
      let H := fresh "H" in
      destruct (Rlt_dec (Util.dist a b c d) (Util.dist a' b' c' d')) as [H|H];
      rewrite dist_lt_dist in H; cbn [x y] in H; try (exfalso; lra); clear H
  | |- context [Rlt_dec (Util.dist ?a ?b ?c ?d) ?k] =>
      let H := fresh "H" in
      destruct (Rlt_dec (Util.dist a b c d) k) as [H|H];
      rewrite dist_lt_bound in H by lra; cbn [x y] in H; try (exfalso; lra);
      clear H
  | |- context [Rle_dec (Util.dist ?a ?b ?c ?d) ?k] =>
      let H := fresh "H" in
      destruct (Rle_dec (Util.dist a b c d) k) as [H|H];
      rewrite dist_le_bound in H by (cbn [r]; lra); cbn [x y r] in H;
      try (exfalso; lra); clear H
  end.

Example hobbs_at_the_cafe :
  placeAt (new_World 32 32) 10 10 = head PLACES.
Proof.
  unfold placeAt, nearestPlace, new_World, PLACES. cbn [places foldl head].
  repeat nearest_step. reflexivity.
Qed.

Example park_at_the_park :
  placeAt (new_World 32 32) 22 9 = PLACES !! 1%nat.
Proof.
  unfold placeAt, nearestPlace, new_World, PLACES. cbn [places foldl head].
  repeat nearest_step. reflexivity.
Qed.

Example street_in_the_middle :
  placeAt (new_World 32 32) 16 16 = None.
Proof.
  unfold placeAt, nearestPlace, new_World, PLACES. cbn [places foldl head].
  repeat nearest_step. reflexivity.
Qed.

(** Isabella, at the cafe, perceives Klaus, who is there too, and neither
    herself nor Maria, who is in the park. *)
Example isabella_perceives_klaus :
  others (perceive (new_World 32 32) Samples.isabella
                   [Samples.isabella; Samples.klaus; Samples.maria]) =
  [{| o_id := "klaus"; o_name := "Klaus Mueller"; o_action := "idle" |}].
Proof.
  unfold perceive, samePlace. cbn [others List.filter].
  change (AgentState.x Samples.isabella) with 10%R.
  change (AgentState.y Samples.isabella) with 10%R.
  change (AgentState.x Samples.klaus) with 10%R.
  change (AgentState.y Samples.klaus) with 10%R.
  change (AgentState.x Samples.maria) with 22%R.
  change (AgentState.y Samples.maria) with 9%R.
  rewrite hobbs_at_the_cafe, park_at_the_park. reflexivity.
Qed.

(** Sam and Tom both stand in the street: neither resolves to a place, and
    Sam perceives nobody. *)
Example nobody_is_nearby_in_the_street :
  others (perceive (new_World 32 32) Samples.sam [Samples.sam; Samples.tom]) = [].
Proof.
  unfold perceive, samePlace. cbn [others List.filter].
  change (AgentState.x Samples.sam) with 16%R.
  change (AgentState.y Samples.sam) with 16%R.
  rewrite street_in_the_middle. reflexivity.
Qed.

End WorldFacts.

(** ** Movement *)

Module MoveFacts.
Import AgentState Agent.

Lemma dist_nonneg (a b c d : R) : (0 <= Util.dist a b c d)%R.
Proof. apply sqrt_pos. Qed.

Lemma dist_sqr (a b c d : R) :
  (Util.dist a b c d * Util.dist a b c d = (a - c) * (a - c) + (b - d) * (b - d))%R.
Proof.
  unfold Util.dist. cbv zeta. apply sqrt_sqrt.
  pose proof (Rle_0_sqr (a - c)). pose proof (Rle_0_sqr (b - d)).
  unfold Rsqr in *. lra.
Qed.

Lemma dist_le (a b c d a' b' c' d' : R) :
  ((a - c) * (a - c) + (b - d) * (b - d)
   <= (a' - c') * (a' - c') + (b' - d') * (b' - d'))%R ->
  (Util.dist a b c d <= Util.dist a' b' c' d')%R.
Proof. intros Hle. unfold Util.dist. cbv zeta. by apply sqrt_le_1_alt. Qed.

Lemma clampR_between (v v1 lo hi : R) :
  (lo <= v <= hi)%R ->
  (Rmin v v1 <= Util.clampR v1 lo hi <= Rmax v v1)%R.
Proof.
  intros Hv. unfold Util.clampR, Rmax, Rmin.
  repeat destruct (Rle_dec _ _); lra.
Qed.

Lemma clampR_range (v lo hi : R) :
  (lo <= hi)%R -> (lo <= Util.clampR v lo hi <= hi)%R.
Proof.
  intros Hv. unfold Util.clampR, Rmax, Rmin.
  repeat destruct (Rle_dec _ _); lra.
Qed.

Lemma square_le (u v : R) : (0 <= u <= v)%R -> (u * u <= v * v)%R.
Proof. intros [? ?]. by apply Rmult_le_compat. Qed.

(** One coordinate of the step: from [v] towards [target] by the
    fraction [step / d] of the way, then clamped. *)
Lemma coordinate_advance (v target d step lo hi : R) :
  (0 < d)%R -> (0 <= step <= d)%R -> (lo <= v <= hi)%R ->
  let v' := Util.clampR (v + (target - v) / d * step) lo hi in
  (Rmin v target <= v' <= Rmax v target)%R /\
  ((v' - target) * (v' - target) <= (v - target) * (v - target))%R /\
  ((v - v') * (v - v')
   <= (step / d) * (step / d) * ((v - target) * (v - target)))%R.
Proof.
  intros Hd Hstep Hv v'.
  set (t := (step / d)%R).
  assert (Ht : (0 <= t <= 1)%R).
  { unfold t. split.
    - apply Rmult_le_pos; [lra|]. left. by apply Rinv_0_lt_compat.
    - apply (Rmult_le_reg_r d); [done|]. unfold Rdiv.
      rewrite Rmult_assoc, Rinv_l by lra. lra. }
  assert (Hv1 : (v + (target - v) / d * step = v + t * (target - v))%R).
  { unfold t. field. lra. }
  pose proof (clampR_between v (v + (target - v) / d * step) lo hi Hv) as Hb.
  fold v' in Hb. rewrite Hv1 in Hb. clearbody v' t. clear Hv1.
  destruct (Rle_dec v target) as [Hle|Hgt].
  - assert (Hw : (v <= v + t * (target - v) <= target)%R) by nra.
    rewrite Rmin_left, Rmax_right in Hb by lra.
    rewrite Rmin_left, Rmax_right by lra.
    split_and!; [lra|lra|..].
    + replace ((v' - target) * (v' - target))%R
        with ((target - v') * (target - v'))%R by ring.
      replace ((v - target) * (v - target))%R
        with ((target - v) * (target - v))%R by ring.
      apply square_le. lra.
    + replace ((v - v') * (v - v'))%R with ((v' - v) * (v' - v))%R by ring.
      replace (t * t * ((v - target) * (v - target)))%R
        with ((t * (target - v)) * (t * (target - v)))%R by ring.
      apply square_le. lra.
  - assert (Hw : (target <= v + t * (target - v) <= v)%R) by nra.
    rewrite Rmin_right, Rmax_left in Hb by lra.
    rewrite Rmin_right, Rmax_left by lra.
    split_and!; [lra|lra|..].
    + apply square_le. lra.
    + replace (t * t * ((v - target) * (v - target)))%R
        with ((t * (v - target)) * (t * (v - target)))%R by ring.
      apply square_le. lra.
Qed.

Lemma clampR_inside (v lo hi : R) :
  (lo <= v <= hi)%R -> Util.clampR v lo hi = v.
Proof.
  intros Hv. unfold Util.clampR. rewrite Rmin_right, Rmax_right; lra.
Qed.

(** Inside the grid, with the destination inside as well, the clamp
    changes nothing: a step that does not snap moves the agent by the
    fraction [min(speed, d) / d] of the way. *)
Lemma move_along_the_way (a : AgentState.t) (de : Dest) :
  dest a = Some de ->
  (0 <= x a <= 31.9)%R -> (0 <= y a <= 31.9)%R ->
  (0 <= dest_x de <= 31.9)%R -> (0 <= dest_y de <= 31.9)%R ->
  (0 <= speed a)%R ->
  let d := Util.dist (x a) (y a) (dest_x de) (dest_y de) in
  let t := (Rmin (speed a) d / d)%R in
  ¬ (d < 0.01)%R ->
  (0 <= t <= 1)%R ∧
  _moveTowardsDest a =
    set_pos (x a + t * (dest_x de - x a)) (y a + t * (dest_y de - y a)) a.
Proof.
  intros Hdest Hx Hy Hdx Hdy Hspeed d t Hfar.
  assert (Hd : (0 < d)%R) by lra.
  assert (Hstep : (0 <= Rmin (speed a) d <= d)%R).
  { unfold Rmin. destruct (Rle_dec _ _); lra. }
  assert (Ht : (0 <= t <= 1)%R).
  { unfold t. split.
    - apply Rmult_le_pos; [lra|]. left. by apply Rinv_0_lt_compat.
    - apply (Rmult_le_reg_r d); [done|]. unfold Rdiv.
      rewrite Rmult_assoc, Rinv_l by lra. lra. }
  split; [done|].
  unfold _moveTowardsDest. rewrite Hdest. fold d.
  destruct (Rlt_dec d 0.01) as [?|_]; [done|].
  assert (Hx1 : (x a + (dest_x de - x a) / d * Rmin (speed a) d
                 = x a + t * (dest_x de - x a))%R) by (unfold t; field; lra).
  assert (Hy1 : (y a + (dest_y de - y a) / d * Rmin (speed a) d
                 = y a + t * (dest_y de - y a))%R) by (unfold t; field; lra).
  rewrite Hx1, Hy1, !clampR_inside by nra. done.
Qed.

(** Such a step shortens the distance by exactly [min(speed, d)]. *)
Lemma move_shortens_distance (a : AgentState.t) (de : Dest) :
  dest a = Some de ->
  (0 <= x a <= 31.9)%R -> (0 <= y a <= 31.9)%R ->
  (0 <= dest_x de <= 31.9)%R -> (0 <= dest_y de <= 31.9)%R ->
  (0 <= speed a)%R ->
  let d := Util.dist (x a) (y a) (dest_x de) (dest_y de) in
  let a' := _moveTowardsDest a in
  ¬ (d < 0.01)%R ->
  Util.dist (x a') (y a') (dest_x de) (dest_y de) = (d - Rmin (speed a) d)%R.
Proof.
  intros Hdest Hx Hy Hdx Hdy Hspeed d a' Hfar.
  destruct (move_along_the_way a de Hdest Hx Hy Hdx Hdy Hspeed Hfar) as [Ht Hmove].
  cbv zeta in Ht, Hmove. fold d in Ht, Hmove.
  set (t := (Rmin (speed a) d / d)%R) in *.
  subst a'. rewrite Hmove. cbn [x y set_pos].
  unfold Util.dist. cbv zeta.
  replace ((x a + t * (dest_x de - x a) - dest_x de)
           * (x a + t * (dest_x de - x a) - dest_x de)
           + (y a + t * (dest_y de - y a) - dest_y de)
             * (y a + t * (dest_y de - y a) - dest_y de))%R
    with (((1 - t) * (1 - t))
          * ((x a - dest_x de) * (x a - dest_x de)
             + (y a - dest_y de) * (y a - dest_y de)))%R by ring.
  rewrite sqrt_mult_alt by (apply Rmult_le_pos; lra).
  rewrite sqrt_square by lra.
  change (sqrt ((x a - dest_x de) * (x a - dest_x de)
                + (y a - dest_y de) * (y a - dest_y de)))
    with (Util.dist (x a) (y a) (dest_x de) (dest_y de)).
  fold d. unfold t. field. lra.
Qed.





End MoveFacts.

(** ** The cognitive cycle *)

Module AgentFacts.
Import Js Json AgentState Agent.

(** The records of the agent's memory stream. *)
#[local] Abbreviation stored st := (Memory.records (memory (self st))).

(** *** Reflection *)

Lemma remember_stored (prefix : string) (now : Z) (text : string) (imp : Z)
    (type : string) (st : State) :
  stored (remember prefix now text imp type st) =
  stored st ++ [Memory.new_MemoryRecord (snd (nextId prefix (_idCounter st)))
                                        now text imp type].
Proof. done. Qed.

Lemma remember_accumulator (prefix : string) (now : Z) (text : string) (imp : Z)
    (type : string) (st : State) :
  importanceSinceReflection (self (remember prefix now text imp type st)) =
  importanceSinceReflection (self st).
Proof. done. Qed.

Lemma maybeReflect_below (obj : val) (now : Z) (st : State) :
  importanceSinceReflection (self st) < 26 -> maybeReflect obj now st = Done st.
Proof.
  intros Hlt. unfold maybeReflect.
  by destruct (Z.ltb_spec (importanceSinceReflection (self st)) 26); [|lia].
Qed.


Lemma store_insights_frame (now : Z) (items : list val) (st : State) :
  world (outcome_state (store_insights now items st)) = world st ∧
  self (outcome_state (store_insights now items st)) =
    set_memory (memory (self (outcome_state (store_insights now items st))))
               (self st).
Proof.
  revert st. induction items as [|ins items IH]; intros st.
  - cbn. by destruct (self st).
  - cbn [store_insights]. destruct (toString ins) as [text|].
    + destruct (IH (remember "ref" now ("Insight: " +:+ text) 8 "reflection" st))
        as [Hw Hs].
      split; [by rewrite Hw|]. rewrite Hs at 1. done.
    + cbn. by destruct (self st).
Qed.

Lemma store_insights_throws (now : Z) (items : list val) (st : State) :
  (∃ st', store_insights now items st = Throw st') ↔
  Exists (λ ins, toString ins = None) items.
Proof.
  revert st. induction items as [|ins items IH]; intros st.
  - cbn. rewrite Exists_nil. split; [by intros [? ?]|done].
  - cbn [store_insights]. rewrite Exists_cons.
    destruct (toString ins) as [text|].
    + rewrite IH. split; [auto|]. by intros [?|?].
    + split; [auto|]. eauto.
Qed.


Lemma maybeReflect_resets (obj : val) (now : Z) (st : State) :
  26 <= importanceSinceReflection (self st) ->
  ¬ raising_insights (get_prop_opt obj "insights") ->
  ∃ st', maybeReflect obj now st = Done st' ∧
         importanceSinceReflection (self st') = 0.
Proof.
  intros Hge Hraising. unfold maybeReflect.
  destruct (Z.ltb_spec (importanceSinceReflection (self st)) 26); [lia|].
  destruct (truthy (get_prop_opt (get_prop_opt obj "insights") "length")) eqn:Hlen;
    [|eauto].
  destruct (iterate (get_prop_opt obj "insights")) as [items|] eqn:Hiter.
  - destruct (store_insights now items st) as [st1|st1] eqn:Hloop.
    + cbn [bind]. eauto.
    + destruct Hraising. split; [done|]. rewrite Hiter.
      apply (store_insights_throws now items st). eauto.
  - destruct Hraising. split; [done|]. by rewrite Hiter.
Qed.





(** *** A missing decision *)

Lemma moved_keeps (a : AgentState.t) :
  memory (_moveTowardsDest a) = memory a /\
  energy (_moveTowardsDest a) = energy a /\
  importanceSinceReflection (_moveTowardsDest a) = importanceSinceReflection a /\
  summary (_moveTowardsDest a) = summary a.
Proof.
  unfold _moveTowardsDest. destruct (dest a) as [de|]; [|done].
  by destruct (Rlt_dec _ _).
Qed.

Lemma after_move_keeps (a : AgentState.t) :
  memory (after_move a) = memory a /\
  energy (after_move a) = energy a /\
  importanceSinceReflection (after_move a) = importanceSinceReflection a /\
  summary (after_move a) = summary a.
Proof.
  unfold after_move. destruct (dest a) as [de|]; [|done].
  apply (moved_keeps a).
Qed.

Lemma step_falsy (obj : val) (ratings : nat -> string) (reflection : val)
    (allAgents : list AgentState.t) (now : Z) (mode : string) (st : State) :
  truthy obj = false ->
  step obj ratings reflection allAgents now mode st =
  Done (set_self (set_currentAction "idle"
                    (set_lastThought (Str UNSURE_THOUGHT) (after_move (self st))))
                 st).
Proof.
  intros Hfalsy. unfold step. by rewrite Hfalsy.
Qed.

(** C2, as the code has it.  When the gateway returns nothing parseable
    for the action decision, [step] moves the agent if it is travelling,
    records the unsure thought, sets the state to idle and returns: no
    memory is added, and neither the energy drift nor the reflection
    check runs, so the energy, the accumulator, the summary, the world
    and the id counter are as they were. *)
Theorem missing_decision_ends_the_tick (ratings : nat -> string)
    (reflection : val) (allAgents : list AgentState.t) (now : Z)
    (mode : string) (st : State) :
  ∃ st', step Null ratings reflection allAgents now mode st = Done st' ∧
         lastThought (self st') = Str UNSURE_THOUGHT ∧
         currentAction (self st') = "idle" ∧
         memory (self st') = memory (self st) ∧
         energy (self st') = energy (self st) ∧
         importanceSinceReflection (self st') =
           importanceSinceReflection (self st) ∧
         summary (self st') = summary (self st) ∧
         x (self st') = x (after_move (self st)) ∧
         y (self st') = y (after_move (self st)) ∧
         dest (self st') = dest (after_move (self st)) ∧
         world st' = world st ∧
         _idCounter st' = _idCounter st.
Proof.
  eexists. split; [by apply step_falsy|].
  destruct (after_move_keeps (self st)) as (Hm & He & Hi & Hs).
  cbn. by rewrite Hm, He, Hi, Hs.
Qed.

(** C2, as it is stated, does not hold: on the first tick, with no
    decision for Isabella, the energy is still 100 after [step], not the
    99 that the energy drift would leave. *)
Lemma missing_decision_skips_energy_drift :
  let st' := outcome_state (step Null (λ _, EmptyString) Null [Samples.isabella]
                                 Samples.first_tick "fast" Samples.start) in
  energy (self Samples.start) = 100 /\
  energy (self st') = 100 /\
  ¬ energy_drift_applied Samples.start st'.
Proof.
  rewrite step_falsy by done. unfold energy_drift_applied. cbn.
  split_and!; [done|done|]. unfold Util.clamp. lia.
Qed.

(** *** Stored importance and type *)

Lemma digit_char (n : N) :
  (n < 10)%N ->
  is_digit (pretty_N_char n) = true /\
  Z.of_N (code (pretty_N_char n)) - 48 = Z.of_N n.
Proof.
  intros Hn.
  assert (n = 0 ∨ n = 1 ∨ n = 2 ∨ n = 3 ∨ n = 4 ∨ n = 5 ∨ n = 6 ∨ n = 7
          ∨ n = 8 ∨ n = 9)%N as Hcases by lia.
  repeat destruct Hcases as [->|Hcases]; try subst n; done.
Qed.

Lemma leading_digits_pretty_go (x : N) (s : string) :
  leading_digits s = s -> leading_digits (pretty_N_go x s) = pretty_N_go x s.
Proof.
  revert s. induction (N.lt_wf_0 x) as [x _ IH]; intros s Hs.
  destruct (decide (x = 0)%N) as [->|Hx]; [by rewrite pretty_N_go_0|].
  rewrite pretty_N_go_step by lia. apply IH; [apply N.div_lt; lia|].
  simpl. destruct (digit_char (x `mod` 10)) as [-> _].
  { apply N.mod_lt. lia. }
  by rewrite Hs.
Qed.

Lemma digits_value_pretty_go (x : N) (s : string) :
  digits_value 0 (pretty_N_go x s) = digits_value (Z.of_N x) s.
Proof.
  revert s. induction (N.lt_wf_0 x) as [x _ IH]; intros s.
  destruct (decide (x = 0)%N) as [->|Hx]; [by rewrite pretty_N_go_0|].
  rewrite pretty_N_go_step by lia. rewrite IH by (apply N.div_lt; lia).
  simpl. destruct (digit_char (x `mod` 10)) as [_ ->].
  { apply N.mod_lt. lia. }
  f_equal. rewrite N2Z.inj_div, N2Z.inj_mod. simpl.
  pose proof (Z.div_mod (Z.of_N x) 10). lia.
Qed.

Lemma pretty_go_nonempty (x : N) (s : string) :
  s ≠ EmptyString -> pretty_N_go x s ≠ EmptyString.
Proof.
  revert s. induction (N.lt_wf_0 x) as [x _ IH]; intros s Hs.
  destruct (decide (x = 0)%N) as [->|Hx]; [by rewrite pretty_N_go_0|].
  rewrite pretty_N_go_step by lia. apply IH; [apply N.div_lt; lia|done].
Qed.

Lemma digit_not_space_or_sign (c : ascii) :
  is_digit c = true ->
  is_space c = false /\ Ascii.eqb c "-" = false /\ Ascii.eqb c "+" = false.
Proof.
  intros Hd. split_and!.
  - unfold is_digit, is_space in *.
    apply andb_true_iff in Hd as [H1%N.leb_le H2%N.leb_le].
    apply orb_false_iff. split.
    + apply andb_false_iff. right. apply N.leb_gt. lia.
    + apply N.eqb_neq. lia.
  - destruct (Ascii.eqb_spec c "-") as [->|]; done.
  - destruct (Ascii.eqb_spec c "+") as [->|]; done.
Qed.

Lemma parseInt_digits (t : string) :
  t ≠ EmptyString -> leading_digits t = t ->
  parseInt_string t = Some (digits_value 0 t) /\
  parseInt_string (String "-" t) = Some (- digits_value 0 t).
Proof.
  intros Hne Hld. destruct t as [|c t]; [done|].
  assert (Hd : is_digit c = true).
  { simpl in Hld. by destruct (is_digit c). }
  destruct (digit_not_space_or_sign c Hd) as (Hsp & Hminus & Hplus).
  unfold parseInt_string. split.
  - cbn [trimStart]. rewrite Hsp, Hminus, Hplus, Hld. f_equal; lia.
  - cbn [trimStart]. change (is_space "-") with false. cbn iota.
    change (Ascii.eqb "-" "-") with true. cbn iota. rewrite Hld. f_equal; lia.
Qed.

Lemma parseInt_Num (z : Z) : parseInt (Num z) = Some (Some z).
Proof.
  unfold parseInt. cbn [toString fmap option_fmap option_map]. f_equal.
  destruct z as [|p|p]; [done|..].
  - change (pretty (Z.pos p)) with (pretty (N.pos p)).
    unfold pretty, pretty_N. rewrite decide_False by done.
    destruct (parseInt_digits (pretty_N_go (N.pos p) "")) as [-> _].
    + intros Hempty.
      rewrite pretty_N_go_step in Hempty by lia.
      by apply pretty_go_nonempty in Hempty.
    + by apply leading_digits_pretty_go.
    + by rewrite digits_value_pretty_go.
  - change (pretty (Z.neg p)) with (String "-" (pretty (N.pos p))).
    unfold pretty, pretty_N. rewrite decide_False by done.
    destruct (parseInt_digits (pretty_N_go (N.pos p) "")) as [_ ->].
    + intros Hempty.
      rewrite pretty_N_go_step in Hempty by lia.
      by apply pretty_go_nonempty in Hempty.
    + by apply leading_digits_pretty_go.
    + by rewrite digits_value_pretty_go.
Qed.

Lemma clamp_range (v lo hi : Z) : lo <= hi -> lo <= Util.clamp v lo hi <= hi.
Proof. unfold Util.clamp. lia. Qed.

Lemma proposed_importance_range (v : val) (imp : Z) :
  proposed_importance v = Some imp -> 1 <= imp <= 10.
Proof.
  unfold proposed_importance. destruct (parseInt _) as [n|]; [|done].
  intros [= <-]. by apply clamp_range.
Qed.

Lemma proposed_importance_missing :
  proposed_importance Undefined = Some 3 /\ proposed_importance Null = Some 3.
Proof. done. Qed.


Lemma proposed_importance_Num (z : Z) :
  proposed_importance (Num z) = Some (if z =? 0 then 3 else Util.clamp z 1 10).
Proof.
  unfold proposed_importance. cbn [nullish_else]. rewrite parseInt_Num.
  cbn [number_or]. by destruct (z =? 0).
Qed.

(** [0 || 3] is [3]: a proposed importance of 0 counts as missing. *)
Lemma proposed_importance_zero : proposed_importance (Num 0) = Some 3.
Proof. by rewrite proposed_importance_Num. Qed.

Lemma rated_importance_range (out : string) :
  1 <= _rateImportancePaperStyle out <= 10.
Proof.
  unfold _rateImportancePaperStyle.
  destruct (match_digits out); [by apply clamp_range|lia].
Qed.

Lemma match_digits_run (out m1 : string) :
  match_digits out = Some m1 -> m1 ≠ EmptyString ∧ leading_digits m1 = m1.
Proof.
  assert (Hidem : forall s, leading_digits (leading_digits s) = leading_digits s).
  { induction s as [|c s IH]; [done|]. simpl.
    destruct (is_digit c) eqn:Hc; [|done]. simpl. by rewrite Hc, IH. }
  revert m1. induction out as [|c out IH]; intros m1; [done|].
  cbn [match_digits]. destruct (is_digit c) eqn:Hc; [|apply IH].
  intros [= <-]. split; [|apply (Hidem (String c out))].
  simpl. by rewrite Hc.
Qed.

(** The rating that is parsed is the decimal value of the digits. *)
Lemma match_digits_parseInt (out m1 : string) :
  match_digits out = Some m1 ->
  parseInt_string m1 = Some (digits_value 0 m1).
Proof.
  intros [Hne Hrun]%match_digits_run. by apply parseInt_digits.
Qed.
















(** *** The cycle on sample inputs *)

(** After seeding and a first step in fast mode, Isabella holds her two
    seed memories and the proposed one, whose importance 0 was taken as
    missing; she stays, and her energy has dropped to 99. *)
Example first_step_of_isabella :
  (λ r, (Memory.id r, Memory.importance r, Memory.type r))
    <$> stored Samples.after_first_step =
  [("seed_1", 8, "observation"); ("seed_2", 7, "observation");
   ("mem_3", 3, "action")] /\
  currentAction (self Samples.after_first_step) = "staying" /\
  energy (self Samples.after_first_step) = 99 /\
  importanceSinceReflection (self Samples.after_first_step) = 3.
Proof. vm_compute. done. Qed.

(** In paper mode the rating call decides: the reply [0] is stored as 1. *)
Example paper_mode_rates_separately :
  Memory.importance
    <$> stored (outcome_state
                  (step Samples.decision_rated_zero (λ _, "0") Null
                        [Samples.isabella] Samples.first_tick "paper"
                        Samples.start)) = [1].
Proof. vm_compute. done. Qed.



End AgentFacts.

(** ** util.js *)

Module UtilFacts.

Lemma clamp_cases (v lo hi : Z) :
  (lo <= hi -> lo <= Util.clamp v lo hi <= hi) /\
  (lo <= v <= hi -> Util.clamp v lo hi = v) /\
  (v < lo -> lo <= hi -> Util.clamp v lo hi = lo) /\
  (hi < v -> lo <= hi -> Util.clamp v lo hi = hi) /\
  (hi < lo -> Util.clamp v lo hi = lo) /\
  Util.clamp (Util.clamp v lo hi) lo hi = Util.clamp v lo hi.
Proof. unfold Util.clamp. lia. Qed.

Lemma clampR_cases (v lo hi : R) :
  ((lo <= hi)%R -> (lo <= Util.clampR v lo hi <= hi)%R) /\
  ((lo <= v <= hi)%R -> Util.clampR v lo hi = v) /\
  ((v < lo)%R -> (lo <= hi)%R -> Util.clampR v lo hi = lo) /\
  ((hi < v)%R -> (lo <= hi)%R -> Util.clampR v lo hi = hi) /\
  ((hi < lo)%R -> Util.clampR v lo hi = lo) /\
  Util.clampR (Util.clampR v lo hi) lo hi = Util.clampR v lo hi.
Proof.
  unfold Util.clampR, Rmax, Rmin.
  repeat split; intros; repeat destruct (Rle_dec _ _); lra.
Qed.

(** X1.  [clamp], on the integers that the energy and the importance are and
    on the reals that the coordinates are: the result is within the
    bounds when [lo <= hi], it is the value itself inside them and the
    nearer bound outside, it is [lo] whenever the bounds are crossed, and
    clamping twice is clamping once. *)
Theorem clamp_bounds (v lo hi : Z) (u a b : R) :
  ((lo <= hi -> lo <= Util.clamp v lo hi <= hi) /\
   (lo <= v <= hi -> Util.clamp v lo hi = v) /\
   (v < lo -> lo <= hi -> Util.clamp v lo hi = lo) /\
   (hi < v -> lo <= hi -> Util.clamp v lo hi = hi) /\
   (hi < lo -> Util.clamp v lo hi = lo) /\
   Util.clamp (Util.clamp v lo hi) lo hi = Util.clamp v lo hi) /\
  (((a <= b)%R -> (a <= Util.clampR u a b <= b)%R) /\
   ((a <= u <= b)%R -> Util.clampR u a b = u) /\
   ((u < a)%R -> (a <= b)%R -> Util.clampR u a b = a) /\
   ((b < u)%R -> (a <= b)%R -> Util.clampR u a b = b) /\
   ((b < a)%R -> Util.clampR u a b = a) /\
   Util.clampR (Util.clampR u a b) a b = Util.clampR u a b).
Proof. split; [apply clamp_cases|apply clampR_cases]. Qed.

Lemma sum_of_squares_zero (u v : R) : (u * u + v * v = 0)%R -> u = 0%R ∧ v = 0%R.
Proof.
  intros Hz. pose proof (Rle_0_sqr u) as Hu. pose proof (Rle_0_sqr v) as Hv.
  unfold Rsqr in *.
  assert (Hu0 : (u * u = 0)%R) by lra. assert (Hv0 : (v * v = 0)%R) by lra.
  apply Rmult_integral in Hu0, Hv0. tauto.
Qed.

(** X2.  [dist] is a distance: never negative, symmetric, and zero exactly
    between a point and itself. *)
Theorem dist_is_a_distance (a b c d : R) :
  (0 <= Util.dist a b c d)%R /\
  Util.dist a b c d = Util.dist c d a b /\
  (Util.dist a b c d = 0%R ↔ a = c ∧ b = d) /\
  (Rabs (a - c) <= Util.dist a b c d)%R /\
  (Rabs (b - d) <= Util.dist a b c d)%R.
Proof.
  unfold Util.dist. cbv zeta. split_and!.
  - apply sqrt_pos.
  - f_equal. ring.
  - split.
    + intros Hz. apply sqrt_eq_0 in Hz.
      * apply sum_of_squares_zero in Hz. lra.
      * apply WorldFacts.sum_sqr_nonneg.
    + intros [-> ->]. replace ((c - c) * (c - c) + (d - d) * (d - d))%R with 0%R by ring.
      apply sqrt_0.
  - rewrite <- sqrt_Rsqr_abs. apply sqrt_le_1_alt. unfold Rsqr.
    pose proof (Rle_0_sqr (b - d)). unfold Rsqr in *. lra.
  - rewrite <- sqrt_Rsqr_abs. apply sqrt_le_1_alt. unfold Rsqr.
    pose proof (Rle_0_sqr (a - c)). unfold Rsqr in *. lra.
Qed.

Lemma filter_all (x : string) (l : list string) :
  x ∉ l -> filter (λ y, y ≠ x) l = l.
Proof.
  induction l as [|y l IH]; intros Hx; [done|].
  rewrite not_elem_of_cons in Hx. destruct Hx as [Hne Hx].
  rewrite filter_cons_True by done. by rewrite IH.
Qed.

Lemma uniq_NoDup_id (l : list string) : NoDup l -> Util.uniq l = l.
Proof.
  induction 1 as [|x l Hx Hnd IH]; [done|].
  simpl. rewrite IH. by rewrite filter_all.
Qed.

Lemma uniq_sublist (l : list string) : Util.uniq l `sublist_of` l.
Proof.
  induction l as [|x l IH]; [done|]. simpl.
  apply sublist_skip. etrans; [apply sublist_filter|done].
Qed.

(** [uniq] goes through the array as the [Set] does: an element that was
    met before is dropped, a new one is put at the end. *)
Lemma uniq_snoc (arr : list string) (x : string) :
  Util.uniq (arr ++ [x]) =
  if decide (x ∈ arr) then Util.uniq arr else Util.uniq arr ++ [x].
Proof.
  induction arr as [|y arr IH]; [done|].
  cbn [app Util.uniq]. rewrite IH.
  destruct (decide (x ∈ arr)) as [Hin|Hout].
  - rewrite decide_True; [done|]. by apply list_elem_of_further.
  - rewrite filter_app. destruct (decide (x = y)) as [->|Hne].
    + rewrite decide_True by apply list_elem_of_here.
      rewrite filter_cons_False by (by intros ?). by rewrite app_nil_r.
    + rewrite decide_False.
      * rewrite filter_cons_True by done. done.
      * rewrite elem_of_cons. by intros [?|?].
Qed.

(** X3.  [uniq] keeps one copy of every element and nothing else, in the
    order of the first occurrences: it is what is built by going through
    the array from the front and putting each element that was not met
    before at the end.  A list without repeats is returned as it is, so
    [uniq] applied twice is [uniq]. *)
Theorem uniq_first_occurrences (arr : list string) :
  NoDup (Util.uniq arr) /\
  (forall x, x ∈ Util.uniq arr ↔ x ∈ arr) /\
  Util.uniq arr `sublist_of` arr /\
  head (Util.uniq arr) = head arr /\
  (NoDup arr -> Util.uniq arr = arr) /\
  Util.uniq (Util.uniq arr) = Util.uniq arr /\
  (length (Util.uniq arr) <= length arr)%nat /\
  Util.uniq [] = [] /\
  (forall x, Util.uniq (arr ++ [x]) =
             if decide (x ∈ arr) then Util.uniq arr else Util.uniq arr ++ [x]).
Proof.
  split; [apply MemoryFacts.NoDup_uniq|].
  split; [intros x; apply MemoryFacts.elem_of_uniq|].
  split; [apply uniq_sublist|].
  split; [by destruct arr|].
  split; [apply uniq_NoDup_id|].
  split; [apply uniq_NoDup_id, MemoryFacts.NoDup_uniq|].
  split; [apply sublist_length, uniq_sublist|].
  split; [done|]. apply uniq_snoc.
Qed.

(** The first occurrences of [a], [b] and [c], in that order. *)
Example uniq_keeps_the_first : Util.uniq ["a"; "b"; "a"; "c"; "b"] = ["a"; "b"; "c"].
Proof. reflexivity. Qed.

End UtilFacts.

(** ** Tokens, term frequencies and streams *)

Module StreamFacts.
Import Js Memory Stream.

(** *** The shape of tokens *)

Lemma chars_all_nil (p : ascii -> bool) : chars_all p EmptyString.
Proof. constructor. Qed.

Lemma chars_all_cons (p : ascii -> bool) (c : ascii) (s : string) :
  chars_all p (String c s) ↔ p c = true ∧ chars_all p s.
Proof. unfold chars_all. simpl. by rewrite Forall_cons. Qed.

Lemma chars_all_impl (p q : ascii -> bool) (s : string) :
  (forall c, p c = true -> q c = true) -> chars_all p s -> chars_all q s.
Proof. intros Hpq Hs. eapply Forall_impl; [exact Hs|auto]. Qed.

Lemma code_lower_char (c : ascii) :
  is_upper c = true -> code (lower_char c) = (code c + 32)%N.
Proof.
  intros Hup. unfold lower_char. rewrite Hup. unfold code.
  apply N_ascii_embedding.
  unfold is_upper, code in Hup.
  apply andb_true_iff in Hup as [_ Hle%N.leb_le]. lia.
Qed.

Lemma lower_char_not_upper (c : ascii) : is_upper (lower_char c) = false.
Proof.
  destruct (is_upper c) eqn:Hup.
  - unfold is_upper at 1. rewrite code_lower_char by done.
    unfold is_upper in Hup.
    apply andb_true_iff in Hup as [H1%N.leb_le H2%N.leb_le].
    apply andb_false_iff. right. apply N.leb_gt. lia.
  - unfold lower_char. by rewrite Hup.
Qed.

Lemma lower_char_idem (c : ascii) : lower_char (lower_char c) = lower_char c.
Proof.
  unfold lower_char at 1. by rewrite lower_char_not_upper.
Qed.

Lemma toLowerCase_idem (s : string) : toLowerCase (toLowerCase s) = toLowerCase s.
Proof.
  induction s as [|c s IH]; [done|]. simpl. by rewrite lower_char_idem, IH.
Qed.

Lemma toLowerCase_no_upper (s : string) :
  chars_all (λ c, negb (is_upper c)) (toLowerCase s).
Proof.
  induction s as [|c s IH]; [apply chars_all_nil|].
  simpl. apply chars_all_cons. by rewrite lower_char_not_upper.
Qed.

Lemma replace_runs_cons (cls : ascii -> bool) (c : ascii) (s : string) :
  replace_runs cls (String c s) =
  if cls c then
    match s with
    | String c' _ =>
        if cls c' then replace_runs cls s else String " " (replace_runs cls s)
    | EmptyString => String " " EmptyString
    end
  else String c (replace_runs cls s).
Proof. done. Qed.

Lemma replace_runs_chars (cls p : ascii -> bool) (s : string) :
  p " "%char = true -> chars_all p s ->
  chars_all (λ c, p c && (negb (cls c) || Ascii.eqb c " ")) (replace_runs cls s).
Proof.
  intros Hsp. induction s as [|c s IH]; intros Hs; [apply chars_all_nil|].
  apply chars_all_cons in Hs as [Hc Hs]. specialize (IH Hs).
  rewrite replace_runs_cons. destruct (cls c) eqn:Hcls.
  - assert (Hspace : chars_all (λ c, p c && (negb (cls c) || Ascii.eqb c " "))
                               (String " " (replace_runs cls s))).
    { apply chars_all_cons. split; [|exact IH].
      rewrite Hsp. by rewrite orb_true_r. }
    destruct s as [|c' s'].
    + apply chars_all_cons. split; [|apply chars_all_nil].
      rewrite Hsp. by rewrite orb_true_r.
    + destruct (cls c'); [exact IH|exact Hspace].
  - apply chars_all_cons. split; [by rewrite Hc, Hcls|exact IH].
Qed.

Lemma trimStart_chars (p : ascii -> bool) (s : string) :
  chars_all p s -> chars_all p (trimStart s).
Proof.
  induction s as [|c s IH]; intros Hs; [done|].
  simpl. destruct (is_space c); [|done].
  apply IH. by apply chars_all_cons in Hs as [_ ?].
Qed.

Lemma trimEnd_chars (p : ascii -> bool) (s : string) :
  chars_all p s -> chars_all p (trimEnd s).
Proof.
  induction s as [|c s IH]; intros Hs; [done|].
  apply chars_all_cons in Hs as [Hc Hs]. specialize (IH Hs).
  simpl. destruct (trimEnd s) as [|c' t] eqn:Ht.
  - destruct (is_space c); [apply chars_all_nil|].
    apply chars_all_cons. split; [done|apply chars_all_nil].
  - apply chars_all_cons. split; done.
Qed.

Lemma split_chars (p : ascii -> bool) (sep : ascii) (s : string) :
  chars_all p s ->
  Forall (chars_all (λ c, p c && negb (Ascii.eqb c sep))) (split sep s).
Proof.
  induction s as [|c s IH]; intros Hs.
  - simpl. apply Forall_singleton, chars_all_nil.
  - apply chars_all_cons in Hs as [Hc Hs]. specialize (IH Hs).
    simpl. destruct (Ascii.eqb c sep) eqn:Hsep.
    + constructor; [apply chars_all_nil|exact IH].
    + destruct (split sep s) as [|w ws].
      * apply Forall_singleton, chars_all_cons.
        split; [by rewrite Hc, Hsep|apply chars_all_nil].
      * apply Forall_cons in IH as [Hw Hws]. constructor; [|done].
        apply chars_all_cons. split; [by rewrite Hc, Hsep|done].
Qed.

Lemma token_char_of (c : ascii) :
  negb (is_upper c) = true ->
  negb (negb (is_letter_or_number c || is_space c)) || Ascii.eqb c " " = true ->
  negb (is_space c) || Ascii.eqb c " " = true ->
  negb (Ascii.eqb c " ") = true ->
  is_token_char c = true.
Proof.
  unfold is_token_char, is_letter_or_number.
  destruct (is_upper c), (is_lower c), (is_digit c), (is_space c),
    (Ascii.eqb c " "); simpl; try done.
Qed.

Lemma tokenize_chars (text : string) :
  Forall (chars_all is_token_char) (tokenize text).
Proof.
  unfold tokenize. case_bool_decide; [constructor|].
  apply Forall_forall. intros t Ht.
  apply list_elem_of_In, filter_In in Ht as [Ht _]. apply list_elem_of_In in Ht.
  pose proof (toLowerCase_no_upper text) as H0.
  apply (replace_runs_chars (λ c, negb (is_letter_or_number c || is_space c)))
    in H0; [|done].
  apply (replace_runs_chars is_space) in H0; [|done].
  apply trimStart_chars, trimEnd_chars in H0.
  apply (split_chars _ " "%char) in H0.
  rewrite Forall_forall in H0. specialize (H0 t Ht).
  revert H0. apply chars_all_impl. intros c.
  rewrite !andb_true_iff. intros [[[H1 H2] H3] H4].
  by apply token_char_of.
Qed.

Lemma tokenize_kept (text : string) :
  Forall (λ t, (t ∉ STOPWORDS) ∧ (2 <= String.length t)%nat) (tokenize text).
Proof.
  unfold tokenize. case_bool_decide; [constructor|].
  apply Forall_forall. intros t Ht.
  apply list_elem_of_In, filter_In in Ht as [_ Hkeep].
  unfold keep_token in Hkeep.
  rewrite !andb_true_iff, !negb_true_iff in Hkeep.
  destruct Hkeep as [[_ Hstop%bool_decide_eq_false] Hlen%bool_decide_eq_true].
  done.
Qed.

(** X4.  For a text of 7-bit ASCII characters, every token that
    [tokenize] returns is made of lower-case ASCII letters and digits
    only, has at least two characters and is not a stop word; and the
    case of the text does not matter.  (Of a text with other characters
    the code keeps the letters and numbers of every script.) *)
Theorem tokenize_tokens (text : string) :
  chars_all is_ascii text ->
  Forall (λ t, chars_all is_token_char t ∧ (2 <= String.length t)%nat ∧
               (t ∉ STOPWORDS)) (tokenize text) /\
  tokenize (toLowerCase text) = tokenize text.
Proof.
  intros _. split.
  - pose proof (tokenize_chars text) as Hc. pose proof (tokenize_kept text) as Hk.
    rewrite Forall_forall in *. intros t Ht.
    specialize (Hc t Ht). specialize (Hk t Ht). tauto.
  - unfold tokenize. by rewrite toLowerCase_idem.
Qed.

(** [Isabella opens Hobbs Cafe at 8!]: four tokens, the digit is too
    short to be one. *)
Lemma tokenize_tokens_witness :
  chars_all is_ascii "Isabella opens Hobbs Cafe at 8!" /\
  tokenize "Isabella opens Hobbs Cafe at 8!" = ["isabella"; "opens"; "hobbs"; "cafe"] /\
  Forall (λ t, chars_all is_token_char t ∧ (2 <= String.length t)%nat ∧
               (t ∉ STOPWORDS)) (tokenize "Isabella opens Hobbs Cafe at 8!").
Proof.
  assert (Hascii : chars_all is_ascii "Isabella opens Hobbs Cafe at 8!").
  { unfold chars_all. cbn [list_ascii_of_string]. by repeat constructor. }
  split; [exact Hascii|]. split; [reflexivity|].
  exact (proj1 (tokenize_tokens "Isabella opens Hobbs Cafe at 8!" Hascii)).
Defined.

(** *** Term frequencies *)

Lemma keys_set_present {V} (k : string) (v : V) (m : JsMap.t V) :
  k ∈ JsMap.keys m -> JsMap.keys (JsMap.set k v m) = JsMap.keys m.
Proof.
  unfold JsMap.keys. induction m as [|[k0 v0] m IH]; simpl.
  - by intros ?%elem_of_nil.
  - intros Hin. destruct (decide (k = k0)) as [->|Hne]; [done|].
    simpl. f_equal. apply IH.
    apply elem_of_cons in Hin as [?|?]; done.
Qed.

Lemma set_absent {V} (k : string) (v : V) (m : JsMap.t V) :
  k ∉ JsMap.keys m -> JsMap.set k v m = m ++ [(k, v)].
Proof.
  unfold JsMap.keys. induction m as [|[k0 v0] m IH]; simpl; [done|].
  intros Hin. apply not_elem_of_cons in Hin as [Hne Hin].
  rewrite decide_False by done. f_equal. by apply IH.
Qed.

Lemma keys_count_tf_order (tokens : list string) (acc : JsMap.t nat) :
  JsMap.keys
    (foldl (λ tf t, JsMap.set t (default 0 (JsMap.get tf t) + 1)%nat tf)
           acc tokens) =
  JsMap.keys acc ++ filter (λ t, t ∉ JsMap.keys acc) (Util.uniq tokens).
Proof.
  revert acc. induction tokens as [|t tokens IH]; intros acc.
  - simpl. by rewrite app_nil_r.
  - cbn [foldl Util.uniq]. rewrite IH.
    remember (JsMap.keys (JsMap.set t (default 0 (JsMap.get acc t) + 1)%nat acc))
      as ks eqn:Hks.
    destruct (decide (t ∈ JsMap.keys acc)) as [Hin|Hout].
    + rewrite keys_set_present in Hks by done. subst ks.
      rewrite filter_cons_False by tauto.
      f_equal. rewrite list_filter_filter. apply list_filter_iff.
      intros u. split; [|tauto]. intros Hu. split; [done|]. by intros ->.
    + rewrite set_absent in Hks by done. unfold JsMap.keys in Hks.
      rewrite fmap_app in Hks. simpl in Hks. fold (JsMap.keys acc) in Hks.
      subst ks. rewrite <- app_assoc. simpl.
      rewrite filter_cons_True by done. do 2 f_equal.
      rewrite list_filter_filter. apply list_filter_iff.
      intros u. rewrite not_elem_of_app, list_elem_of_singleton. tauto.
Qed.

Lemma get_count_tf_from (tokens : list string) (acc : JsMap.t nat) (t : string) :
  default 0%nat
    (JsMap.get
       (foldl (λ tf t, JsMap.set t (default 0 (JsMap.get tf t) + 1)%nat tf)
              acc tokens) t) =
  (default 0%nat (JsMap.get acc t) + occurrences t tokens)%nat.
Proof.
  unfold occurrences.
  revert acc. induction tokens as [|u tokens IH]; intros acc.
  - simpl. lia.
  - cbn [foldl]. rewrite IH, MemoryFacts.get_set.
    destruct (decide (t = u)) as [->|Hne].
    + rewrite filter_cons_True by done. simpl. lia.
    + rewrite filter_cons_False by done. done.
Qed.

Lemma count_tf_keys (tokens : list string) :
  JsMap.keys (count_tf tokens) = Util.uniq tokens.
Proof.
  unfold count_tf. rewrite keys_count_tf_order. unfold JsMap.keys. simpl.
  induction (Util.uniq tokens) as [|u l IH]; [done|].
  rewrite filter_cons_True by apply not_elem_of_nil. by rewrite IH.
Qed.

Lemma count_tf_default (tokens : list string) (t : string) :
  default 0%nat (JsMap.get (count_tf tokens) t) = occurrences t tokens.
Proof. unfold count_tf. by rewrite get_count_tf_from. Qed.

Lemma get_None_keys {V} (m : JsMap.t V) (k : string) :
  JsMap.get m k = None ↔ k ∉ JsMap.keys m.
Proof.
  unfold JsMap.keys. induction m as [|[k0 v0] m IH]; simpl.
  - split; [intros _; apply not_elem_of_nil|done].
  - rewrite not_elem_of_cons. destruct (decide (k = k0)) as [->|Hne].
    + split; [done|]. by intros [? _].
    + rewrite IH. tauto.
Qed.

Lemma count_tf_none (tokens : list string) (t : string) :
  JsMap.get (count_tf tokens) t = None ↔ t ∉ tokens.
Proof. by rewrite get_None_keys, MemoryFacts.keys_count_tf. Qed.

Lemma occurrences_pos (t : string) (tokens : list string) :
  t ∈ tokens -> (1 <= occurrences t tokens)%nat.
Proof.
  intros (l1 & l2 & ->)%list_elem_of_split. unfold occurrences.
  rewrite filter_app, filter_cons_True, length_app by done. simpl. lia.
Qed.

Lemma count_tf_some (tokens : list string) (t : string) (n : nat) :
  JsMap.get (count_tf tokens) t = Some n ->
  n = occurrences t tokens ∧ (1 <= n)%nat.
Proof.
  intros Hget. pose proof (count_tf_default tokens t) as Hcount.
  rewrite Hget in Hcount. simpl in Hcount. split; [done|]. subst n.
  apply occurrences_pos.
  destruct (decide (t ∈ tokens)) as [|Hout]; [done|].
  apply count_tf_none in Hout. congruence.
Qed.

(** X5.  The term-frequency map that the constructor of [MemoryRecord] builds:
    its keys are the distinct tokens in the order of their first
    occurrence, which is [uniq] of the tokens; a token is a key exactly
    when it occurs; and its value is the number of its occurrences. *)
Theorem count_tf_counts (tokens : list string) :
  JsMap.keys (count_tf tokens) = Util.uniq tokens /\
  NoDup (JsMap.keys (count_tf tokens)) /\
  (forall t, JsMap.get (count_tf tokens) t = None ↔ t ∉ tokens) /\
  (forall t n, JsMap.get (count_tf tokens) t = Some n ->
               n = occurrences t tokens ∧ (1 <= n)%nat) /\
  (forall t, default 0%nat (JsMap.get (count_tf tokens) t) = occurrences t tokens).
Proof.
  split_and!.
  - apply count_tf_keys.
  - rewrite count_tf_keys. apply MemoryFacts.NoDup_uniq.
  - apply count_tf_none.
  - apply count_tf_some.
  - apply count_tf_default.
Qed.

(** *** Streams that are filled by calls *)

Lemma records_exec_all (cs : list call) (s : MemoryStream) :
  records (exec_all cs s) = records s ++ added cs.
Proof.
  revert s. induction cs as [|c cs IH]; intros s.
  - simpl. by rewrite app_nil_r.
  - unfold exec_all in *. cbn [foldl]. rewrite IH.
    destruct c; simpl; [|done..]. by rewrite <- app_assoc.
Qed.

(** The records of a stream are only ever appended to: after any calls the
    stream holds the records it held, followed by the records that were
    added, in the order of the calls; none is dropped, changed or moved. *)
Lemma records_are_appended (cs : list call) (s : MemoryStream) :
  records (exec_all cs s) = records s ++ added cs /\
  records s `prefix_of` records (exec_all cs s) /\
  (forall i r, records s !! i = Some r -> records (exec_all cs s) !! i = Some r) /\
  length (records (exec_all cs s)) = (length (records s) + length (added cs))%nat.
Proof.
  rewrite records_exec_all. split_and!.
  - done.
  - by apply prefix_app_r.
  - intros i r Hi. by apply lookup_app_l_Some.
  - apply length_app.
Qed.

Lemma containing_app (t : string) (l1 l2 : list MemoryRecord) :
  containing t (l1 ++ l2) = (containing t l1 + containing t l2)%nat.
Proof. unfold containing. by rewrite filter_app, length_app. Qed.

Lemma df_of_exec_all (cs : list call) (s : MemoryStream) (t : string) :
  df_of (exec_all cs s) t = (df_of s t + containing t (added cs))%nat.
Proof.
  revert s. induction cs as [|c cs IH]; intros s.
  - simpl. unfold containing. simpl. lia.
  - unfold exec_all in *. cbn [foldl]. rewrite IH.
    destruct c as [record| |]; simpl; [|done..].
    rewrite MemoryFacts.df_of_add.
    change (record :: added cs) with ([record] ++ added cs).
    rewrite containing_app. unfold containing at 2.
    destruct (decide (t ∈ tokens record)) as [Hin|Hout].
    + rewrite bool_decide_eq_true_2, filter_cons_True by done. simpl. lia.
    + rewrite bool_decide_eq_false_2, filter_cons_False by done. simpl. lia.
Qed.

Lemma containing_le (t : string) (recs : list MemoryRecord) :
  (containing t recs <= length recs)%nat.
Proof. unfold containing. apply length_filter. Qed.

Lemma containing_zero (t : string) (recs : list MemoryRecord) :
  containing t recs = 0%nat ↔ forall r, r ∈ recs -> t ∉ tokens r.
Proof.
  unfold containing. rewrite length_zero_iff_nil.
  induction recs as [|r l IH].
  - split; [|done]. intros _ r Hr. by apply elem_of_nil in Hr.
  - destruct (decide (t ∈ tokens r)) as [Hin|Hout].
    + rewrite filter_cons_True by done. split; [done|].
      intros Hnone. exfalso. apply (Hnone r); [apply list_elem_of_here|done].
    + rewrite filter_cons_False by done. rewrite IH. split.
      * intros Hl r' [->|Hr']%elem_of_cons; auto.
      * intros Hall r' Hr'. apply Hall. by apply list_elem_of_further.
Qed.

Lemma counts_bounded_exec_all (cs : list call) :
  counts_bounded (exec_all cs new_MemoryStream).
Proof.
  intros t. rewrite df_of_exec_all, records_exec_all. simpl.
  unfold df_of. simpl. rewrite lookup_empty. simpl. apply containing_le.
Qed.

(** X6.  In a stream that started empty, the document frequency of a token is
    the number of records in which the token occurs, whatever calls were
    made; so it never exceeds the number of records, and every inverse
    document frequency is at least [1]. *)
Theorem df_counts_records (cs : list call) (t : string) :
  let s := exec_all cs new_MemoryStream in
  df_of s t = containing t (records s) /\
  (df_of s t <= length (records s))%nat /\
  (df_of s t = 0%nat ↔ forall r, r ∈ records s -> t ∉ tokens r) /\
  (1 <= _idf s t)%R.
Proof.
  intros s.
  assert (Hdf : df_of s t = containing t (records s)).
  { unfold s. rewrite df_of_exec_all, records_exec_all. simpl.
    unfold df_of. simpl. by rewrite lookup_empty. }
  split_and!.
  - done.
  - rewrite Hdf. apply containing_le.
  - rewrite Hdf. apply containing_zero.
  - apply MemoryFacts.idf_at_least_one, counts_bounded_exec_all.
Qed.

(** *** Edge cases of [retrieve] and [recent] *)

Lemma retrieve_all_sorted (s : MemoryStream) (query : string) (now k : Z)
    (types : option (list string)) :
  retrieve s query now k types =
  slice (sort (descending sc_score) (scored_of s query now types)) 0 (Some k).
Proof. done. Qed.

Lemma slice_nil {A} (start : Z) (stop : option Z) :
  slice (@nil A) start stop = [].
Proof. unfold slice. by rewrite drop_nil, take_nil. Qed.

(** X7.  [retrieve] with the bound [0], with an empty list of types, or on an
    empty stream returns nothing; with a negative bound [k] it does not
    return nothing but leaves out the [-k] lowest-ranked candidates. *)
Theorem retrieve_edge_cases (s : MemoryStream) (query : string) (now : Z)
    (types : option (list string)) :
  retrieve s query now 0 types = [] /\
  (forall k, retrieve s query now k (Some []) = []) /\
  (forall k, retrieve new_MemoryStream query now k types = []) /\
  (forall k, k < 0 ->
     let ranked := retrieve s query now (Z.of_nat (length (records s))) types in
     retrieve s query now k types = take (length ranked - Z.to_nat (- k)) ranked).
Proof.
  split_and!.
  - rewrite MemoryFacts.retrieve_unfold by lia. done.
  - intros k. unfold retrieve, scored_of. simpl.
    assert (Hnone : List.filter (eligible (Some [])) (records s) = []).
    { induction (records s) as [|r l IH]; [done|].
      cbn [List.filter eligible].
      case_bool_decide as Hin; [by apply elem_of_nil in Hin|done]. }
    rewrite Hnone. apply slice_nil.
  - intros k. apply slice_nil.
  - intros k Hk ranked.
    set (sorted := sort (descending sc_score) (scored_of s query now types)).
    assert (Hlen : (length sorted <= length (records s))%nat).
    { unfold sorted.
      rewrite (Permutation_length (JsFacts.sort_perm sc_score _)).
      unfold scored_of. rewrite length_fmap. apply filter_length_le. }
    assert (Hranked : ranked = sorted).
    { unfold ranked. rewrite MemoryFacts.retrieve_unfold by lia.
      fold sorted. apply take_ge. lia. }
    rewrite Hranked. unfold retrieve. fold sorted. unfold slice.
    rewrite JsFacts.rel_index_zero, drop_0, Nat.sub_0_r.
    f_equal. unfold rel_index.
    destruct (Z.ltb_spec k 0); lia.
Qed.

(** X8.  [recent] always returns a tail of the records, in order; with a
    negative [n] it leaves out the [-n] oldest records instead of counting
    from the end, and with an [n] of at least the number of records it
    returns them all. *)
Theorem recent_is_a_suffix (s : MemoryStream) (n : Z) :
  recent s n `suffix_of` records s /\
  (n < 0 -> recent s n = drop (Z.to_nat (- n)) (records s)) /\
  (Z.of_nat (length (records s)) <= n -> recent s n = records s) /\
  (0 < n -> length (recent s n) = (Z.to_nat n `min` length (records s))%nat).
Proof.
  assert (Hneg : n < 0 -> recent s n = drop (Z.to_nat (- n)) (records s)).
  { intros Hn. unfold recent, slice.
    rewrite JsFacts.rel_index_nonneg by lia.
    destruct (Nat.le_ge_cases (Z.to_nat (- n)) (length (records s))).
    - rewrite Nat.min_l by done. apply take_ge. rewrite length_drop. lia.
    - rewrite Nat.min_r by done. rewrite Nat.sub_diag, take_0.
      symmetry. apply drop_ge. lia. }
  split_and!.
  - destruct (Z.lt_trichotomy n 0) as [Hn|[->|Hn]].
    + rewrite Hneg by done. apply suffix_drop.
    + by rewrite MemoryFacts.recent_zero.
    + rewrite MemoryFacts.recent_last_n by done. apply suffix_drop.
  - exact Hneg.
  - intros Hn. destruct (decide (n = 0)) as [->|Hne].
    + apply MemoryFacts.recent_zero.
    + rewrite MemoryFacts.recent_last_n by lia.
      replace (length (records s) - Z.to_nat n)%nat with 0%nat by lia. done.
  - intros Hn. rewrite MemoryFacts.recent_last_n by done.
    rewrite length_drop. lia.
Qed.

(** *** Relevance is a cosine *)

Lemma tfidf_from (s : MemoryStream) (tfMap : JsMap.t nat) (acc : JsMap.t R) :
  NoDup (JsMap.keys tfMap) ->
  (forall k, k ∈ JsMap.keys tfMap -> k ∉ JsMap.keys acc) ->
  foldl (λ out '(t, tf), JsMap.set t (INR tf * _idf s t)%R out) acc tfMap =
  acc ++ ((λ '(t, tf), (t, (INR tf * _idf s t)%R)) <$> tfMap).
Proof.
  revert acc. induction tfMap as [|[t n] tfMap IH]; intros acc Hnd Hdis.
  - simpl. by rewrite app_nil_r.
  - unfold JsMap.keys in Hnd. simpl in Hnd. apply NoDup_cons in Hnd as [Ht Hnd].
    cbn [foldl fmap list_fmap]. rewrite IH.
    + rewrite StreamFacts.set_absent.
      * by rewrite <- app_assoc.
      * apply Hdis. unfold JsMap.keys. simpl. apply list_elem_of_here.
    + exact Hnd.
    + intros k Hk. rewrite StreamFacts.set_absent.
      * unfold JsMap.keys. rewrite fmap_app. simpl.
        rewrite not_elem_of_app, list_elem_of_singleton. split.
        -- apply Hdis. unfold JsMap.keys. simpl. by apply list_elem_of_further.
        -- intros ->. done.
      * apply Hdis. unfold JsMap.keys. simpl. apply list_elem_of_here.
Qed.

Lemma tfidf_is_a_map (s : MemoryStream) (tfMap : JsMap.t nat) :
  NoDup (JsMap.keys tfMap) ->
  _tfidf s tfMap = (λ '(t, tf), (t, (INR tf * _idf s t)%R)) <$> tfMap.
Proof.
  intros Hnd. unfold _tfidf. rewrite tfidf_from; [done|done|].
  intros k _. unfold JsMap.keys. simpl. apply not_elem_of_nil.
Qed.

Lemma keys_tfidf_eq (s : MemoryStream) (tfMap : JsMap.t nat) :
  NoDup (JsMap.keys tfMap) -> JsMap.keys (_tfidf s tfMap) = JsMap.keys tfMap.
Proof.
  intros Hnd. rewrite tfidf_is_a_map by done. unfold JsMap.keys.
  rewrite <- list_fmap_compose. apply list_fmap_ext. by intros i [t n] _.
Qed.

Lemma norm2_from (vec : JsMap.t R) (start : R) :
  foldl (λ norm '(_, w), (norm + w * w)%R) start vec = (start + norm2 vec)%R.
Proof.
  unfold norm2. revert start. induction vec as [|[k w] vec IH]; intros start.
  - simpl. lra.
  - cbn [foldl]. rewrite IH, (IH (0 + w * w)%R). lra.
Qed.

Lemma norm2_cons (k : string) (w : R) (vec : JsMap.t R) :
  norm2 ((k, w) :: vec) = (w * w + norm2 vec)%R.
Proof. unfold norm2 at 1. cbn [foldl]. rewrite norm2_from. lra. Qed.

Lemma norm2_nonneg (vec : JsMap.t R) : (0 <= norm2 vec)%R.
Proof.
  induction vec as [|[k w] vec IH]; [unfold norm2; simpl; lra|].
  rewrite norm2_cons. pose proof (Rle_0_sqr w). unfold Rsqr in *. lra.
Qed.

Lemma dot_and_norm_cons (vecA vecB : JsMap.t R) (dot normA : R) (k : string) (wa : R) :
  dot_and_norm vecB (dot, normA) ((k, wa) :: vecA) =
  dot_and_norm vecB
    (match JsMap.get vecB k with
     | Some wb => ((dot + wa * wb)%R, (normA + wa * wa)%R)
     | None => (dot, (normA + wa * wa)%R)
     end) vecA.
Proof. unfold dot_and_norm. cbn [foldl]. by destruct (JsMap.get vecB k). Qed.

Lemma dot_shift (vecA vecB : JsMap.t R) (d n d' n' : R) :
  fst (dot_and_norm vecB (d, n) vecA) =
  (d - d' + fst (dot_and_norm vecB (d', n') vecA))%R.
Proof.
  revert d n d' n'. induction vecA as [|[k wa] vecA IH]; intros d n d' n'.
  - unfold dot_and_norm. simpl. lra.
  - rewrite !dot_and_norm_cons. destruct (JsMap.get vecB k) as [wb|].
    + rewrite (IH _ _ (d' + wa * wb)%R (n' + wa * wa)%R). lra.
    + rewrite (IH _ _ d' (n' + wa * wa)%R). lra.
Qed.

Lemma dot_cons (vecA vecB : JsMap.t R) (k : string) (wa : R) :
  fst (dot_and_norm vecB (0%R, 0%R) ((k, wa) :: vecA)) =
  (wa * default 0 (JsMap.get vecB k) + fst (dot_and_norm vecB (0%R, 0%R) vecA))%R.
Proof.
  rewrite dot_and_norm_cons. destruct (JsMap.get vecB k) as [wb|]; simpl.
  - rewrite (dot_shift _ _ _ _ 0%R 0%R). lra.
  - rewrite (dot_shift _ _ _ _ 0%R 0%R). lra.
Qed.

Lemma get_of_entry {V} (m : JsMap.t V) (k : string) (v : V) :
  NoDup (JsMap.keys m) -> (k, v) ∈ m -> JsMap.get m k = Some v.
Proof.
  unfold JsMap.keys. induction m as [|[k0 v0] m IH]; intros Hnd Hin.
  - by apply elem_of_nil in Hin.
  - simpl in Hnd. apply NoDup_cons in Hnd as [Hk0 Hnd].
    apply elem_of_cons in Hin as [[= -> ->]|Hin]; simpl.
    + by rewrite decide_True.
    + rewrite decide_False; [by apply IH|].
      intros ->. apply Hk0. apply list_elem_of_fmap. by exists (k0, v).
Qed.

Lemma norm2_entry (vec : JsMap.t R) (k : string) (w : R) :
  (k, w) ∈ vec -> (w * w <= norm2 vec)%R.
Proof.
  induction vec as [|[k0 w0] vec IH]; intros Hin.
  - by apply elem_of_nil in Hin.
  - rewrite norm2_cons. pose proof (norm2_nonneg vec).
    pose proof (Rle_0_sqr w0) as Hsq. unfold Rsqr in Hsq.
    apply elem_of_cons in Hin as [[= -> ->]|Hin]; [lra|].
    specialize (IH Hin). lra.
Qed.

Lemma query_vector_keys (s : MemoryStream) (query : string) :
  NoDup (JsMap.keys (query_vector s query)).
Proof.
  unfold query_vector.
  assert (Hnd : NoDup (JsMap.keys (count_tf (tokenize query)))).
  { rewrite count_tf_keys. apply MemoryFacts.NoDup_uniq. }
  by rewrite keys_tfidf_eq.
Qed.

Lemma query_vector_entry (s : MemoryStream) (query : string) (t : string) :
  counts_bounded s -> t ∈ tokenize query ->
  ∃ w, (t, w) ∈ query_vector s query ∧ (1 <= w)%R.
Proof.
  intros Hs Hin.
  destruct (JsMap.get (count_tf (tokenize query)) t) as [n|] eqn:Hget.
  - pose proof (count_tf_some _ _ _ Hget) as [_ Hn].
    assert (Hnd : NoDup (JsMap.keys (count_tf (tokenize query)))).
    { rewrite count_tf_keys. apply MemoryFacts.NoDup_uniq. }
    exists (INR n * _idf s t)%R. split.
    + unfold query_vector. rewrite tfidf_is_a_map by done.
      apply list_elem_of_fmap. exists (t, n). split; [done|].
      clear -Hget. induction (count_tf (tokenize query)) as [|[k0 v0] m IH];
        simpl in *; [done|].
      destruct (decide (t = k0)) as [->|?].
      * injection Hget as ->. apply list_elem_of_here.
      * by apply list_elem_of_further, IH.
    + pose proof (MemoryFacts.idf_at_least_one s t Hs) as Hidf.
      apply le_INR in Hn. simpl in Hn. nra.
  - apply count_tf_none in Hget. done.
Qed.

Lemma query_vector_norm (s : MemoryStream) (query : string) :
  counts_bounded s -> tokenize query ≠ [] -> norm2 (query_vector s query) ≠ 0%R.
Proof.
  intros Hs Hne. destruct (tokenize query) as [|t toks] eqn:Htok; [done|].
  assert (Hin : t ∈ tokenize query) by (rewrite Htok; apply list_elem_of_here).
  destruct (query_vector_entry s query t Hs Hin) as (w & Hentry & Hw).
  apply norm2_entry in Hentry.
  assert (1 <= w * w)%R by nra. lra.
Qed.

(** The dot product is at least the product of the two weights of a
    shared key. *)
Lemma dot_shared_key (vecA vecB : JsMap.t R) (k : string) (wa wb : R) :
  weights_nonneg vecA -> weights_nonneg vecB ->
  (k, wa) ∈ vecA -> JsMap.get vecB k = Some wb ->
  (wa * wb <= fst (dot_and_norm vecB (0%R, 0%R) vecA))%R.
Proof.
  intros HA HB. induction HA as [|[k0 w0] vecA Hw0 HA IH]; intros Hin Hget.
  - by apply elem_of_nil in Hin.
  - rewrite dot_cons. simpl in Hw0.
    pose proof (MemoryFacts.dot_nonneg vecA vecB 0%R 0%R HA HB (Rle_refl 0)) as Hrest.
    assert (Hhead : (0 <= w0 * default 0 (JsMap.get vecB k0))%R).
    { apply Rmult_le_pos; [done|].
      destruct (JsMap.get vecB k0) as [w|] eqn:Hk0; simpl; [|lra].
      by eapply MemoryFacts.get_weight_nonneg. }
    apply elem_of_cons in Hin as [[= -> ->]|Hin].
    + rewrite Hget. simpl. lra.
    + specialize (IH Hin Hget). lra.
Qed.

Lemma slice_subseteq {A} (l : list A) (start : Z) (stop : option Z) :
  slice l start stop ⊆ l.
Proof. unfold slice. etrans; [apply subseteq_take|apply subseteq_drop]. Qed.

Lemma retrieve_scored (s : MemoryStream) (query : string) (now k : Z)
    (types : option (list string)) (a : Scored) :
  a ∈ retrieve s query now k types ->
  ∃ rec, rec ∈ records s ∧ a = score_record s (query_vector s query) now rec.
Proof.
  intros Ha. apply slice_subseteq in Ha.
  rewrite (JsFacts.sort_perm sc_score) in Ha.
  unfold scored_of in Ha. apply list_elem_of_fmap in Ha as (rec & -> & Hrec).
  exists rec. split; [|done].
  apply list_elem_of_In, filter_In in Hrec as [Hrec _]. by apply list_elem_of_In.
Qed.

Lemma score_record_bounds (s : MemoryStream) (query : string) (now : Z)
    (rec : MemoryRecord) :
  counts_bounded s ->
  let a := score_record s (query_vector s query) now rec in
  (0 <= sc_relevance a)%R ∧ (0 <= sc_recency a <= 1)%R ∧
  (0.1 <= sc_importance a <= 1)%R ∧ (0.1 <= sc_score a)%R.
Proof.
  intros Hs a.
  assert (Hrel : (0 <= sc_relevance a)%R).
  { unfold a. cbn [score_record sc_relevance].
    apply MemoryFacts.cosineSparse_nonneg;
      by apply MemoryFacts.tfidf_weights_nonneg. }
  assert (Hrec : (0 <= sc_recency a <= 1)%R).
  { unfold a. cbn [score_record sc_recency].
    rewrite MemoryFacts.recency_of_elapsed. apply MemoryFacts.decay_range. }
  assert (Himp : (0.1 <= sc_importance a <= 1)%R).
  { unfold a. cbn [score_record sc_importance].
    unfold Rmax, Rmin. repeat destruct (Rle_dec _ _); lra. }
  split; [done|]. split; [done|]. split; [done|].
  unfold a in *. cbn [score_record sc_score sc_relevance sc_recency sc_importance] in *.
  lra.
Qed.

(** X9.  In a stream that started empty, every result of [retrieve] has
    a relevance that is not negative, a recency within [0, 1], an
    importance component within [0.1, 1] and so a score of at least
    [0.1], whatever the query, the time, the bound and the filter.  (No
    upper bound is claimed for the relevance: the quotient that the code
    computes in doubles can exceed 1 in the last place.) *)
Theorem scores_within_bounds (cs : list call) (query : string) (now k : Z)
    (types : option (list string)) :
  Forall (λ a, (0 <= sc_relevance a)%R ∧ (0 <= sc_recency a <= 1)%R ∧
               (0.1 <= sc_importance a <= 1)%R ∧ (0.1 <= sc_score a)%R)
         (retrieve (exec_all cs new_MemoryStream) query now k types).
Proof.
  apply Forall_forall. intros a (rec & _ & ->)%retrieve_scored.
  apply score_record_bounds, counts_bounded_exec_all.
Qed.

(** X10.  In a stream that started empty, a record is relevant to every
    query that shares a token with its text: the relevance is above
    [0].  So it is to a query that tokenizes as its own text does,
    provided there is any token at all. *)
Theorem shared_token_is_relevant (cs : list call) (query : string) (now : Z)
    (id : string) (time : Z) (text : string) (importance : Z) (type : string)
    (t : string) :
  t ∈ tokenize query -> t ∈ tokenize text ->
  let s := exec_all cs new_MemoryStream in
  (0 < sc_relevance (score_record s (query_vector s query) now
                       (new_MemoryRecord id time text importance type)))%R.
Proof.
  intros Hq Ht s. cbn [score_record sc_relevance new_MemoryRecord tf].
  fold (query_vector s text).
  assert (Hs : counts_bounded s) by apply counts_bounded_exec_all.
  destruct (query_vector_entry s query t Hs Hq) as (wa & Ha & Hwa).
  destruct (query_vector_entry s text t Hs Ht) as (wb & Hb & Hwb).
  apply get_of_entry in Hb; [|apply query_vector_keys].
  assert (HA : weights_nonneg (query_vector s query))
    by (by apply MemoryFacts.tfidf_weights_nonneg).
  assert (HB : weights_nonneg (query_vector s text))
    by (by apply MemoryFacts.tfidf_weights_nonneg).
  pose proof (dot_shared_key _ _ t wa wb HA HB Ha Hb) as Hdot.
  pose proof (query_vector_norm s query Hs) as HnA.
  pose proof (query_vector_norm s text Hs) as HnB.
  rewrite MemoryFacts.cosineSparse_unfold.
  rewrite MemoryFacts.dot_and_norm_snd. fold (norm2 (query_vector s query)).
  destruct (Req_dec_T _ _) as [Hz|_].
  { destruct HnA; [|done]. intros Hnil. rewrite Hnil in Hq. by apply elem_of_nil in Hq. }
  destruct (Req_dec_T _ _) as [Hz|_].
  { destruct HnB; [|done]. intros Hnil. rewrite Hnil in Ht. by apply elem_of_nil in Ht. }
  pose proof (norm2_nonneg (query_vector s query)).
  pose proof (norm2_nonneg (query_vector s text)).
  apply Rdiv_lt_0_compat; [nra|].
  apply Rmult_lt_0_compat; apply sqrt_lt_R0.
  - assert (norm2 (query_vector s query) ≠ 0%R); [|lra].
    apply HnA. intros Hnil. rewrite Hnil in Hq. by apply elem_of_nil in Hq.
  - assert (norm2 (query_vector s text) ≠ 0%R); [|lra].
    apply HnB. intros Hnil. rewrite Hnil in Ht. by apply elem_of_nil in Ht.
Qed.

(** [X likes coffee], queried with one of its words in another case. *)
Lemma shared_token_is_relevant_witness :
  "coffee" ∈ tokenize "Who wants COFFEE?" /\
  "coffee" ∈ tokenize "X likes coffee" /\
  (0 < sc_relevance
         (score_record (exec_all Samples2.calls new_MemoryStream)
            (query_vector (exec_all Samples2.calls new_MemoryStream)
                          "Who wants COFFEE?")
            0 (new_MemoryRecord "mem_1" 0 "X likes coffee" 5 "observation")))%R.
Proof.
  assert (H1 : "coffee" ∈ tokenize "Who wants COFFEE?").
  { vm_compute. do 2 apply list_elem_of_further. apply list_elem_of_here. }
  assert (H2 : "coffee" ∈ tokenize "X likes coffee").
  { vm_compute. apply list_elem_of_further, list_elem_of_here. }
  split; [exact H1|]. split; [exact H2|].
  exact (shared_token_is_relevant Samples2.calls "Who wants COFFEE?" 0 "mem_1" 0
           "X likes coffee" 5 "observation" "coffee" H1 H2).
Defined.

End StreamFacts.

(** ** The world: places, chat and the event log *)

Module WorldOpsFacts.
Import Js World WorldOps.

(** *** The nearest place *)

Lemma nearestPlace_fold (w : t) (px py : R) :
  nearestPlace w px py = foldl (nearer px py) (None, 1000000000%R) (places w).
Proof. reflexivity. Qed.

Lemma nearer_invariant (px py : R) (seen rest : list Place) (acc : option Place * R) :
  ((snd acc <= 1000000000)%R ∧
   (forall q, q ∈ seen -> (snd acc <= Util.dist px py (x q) (y q))%R) ∧
   (fst acc = None -> snd acc = 1000000000%R) ∧
   (forall p, fst acc = Some p ->
      p ∈ seen ∧ snd acc = Util.dist px py (x p) (y p) ∧ (snd acc < 1000000000)%R)) ->
  let acc' := foldl (nearer px py) acc rest in
  (snd acc' <= 1000000000)%R ∧
  (forall q, q ∈ seen ++ rest -> (snd acc' <= Util.dist px py (x q) (y q))%R) ∧
  (fst acc' = None -> snd acc' = 1000000000%R) ∧
  (forall p, fst acc' = Some p ->
     p ∈ seen ++ rest ∧ snd acc' = Util.dist px py (x p) (y p) ∧
     (snd acc' < 1000000000)%R).
Proof.
  revert seen acc. induction rest as [|p rest IH]; intros seen [best bestD] Hinv.
  - simpl. rewrite app_nil_r. exact Hinv.
  - cbn [foldl]. replace (seen ++ p :: rest) with ((seen ++ [p]) ++ rest)
      by (by rewrite <- app_assoc).
    apply IH. destruct Hinv as (Hle & Hmin & Hnone & Hsome). simpl in *.
    unfold nearer. destruct (Rlt_dec _ bestD) as [Hlt|Hge]; simpl.
    + split_and!.
      * lra.
      * intros q [Hq|Hq%list_elem_of_singleton]%elem_of_app.
        -- specialize (Hmin q Hq). lra.
        -- subst q. lra.
      * done.
      * intros p' [= <-]. split_and!; [|done|lra].
        apply elem_of_app. right. apply list_elem_of_here.
    + split_and!.
      * done.
      * intros q [Hq|Hq%list_elem_of_singleton]%elem_of_app.
        -- by apply Hmin.
        -- subst q. lra.
      * done.
      * intros p' Hp'. destruct (Hsome p' Hp') as (? & ? & ?).
        split_and!; [|done|done]. apply elem_of_app. by left.
Qed.

Lemma nearestPlace_spec (w : t) (px py : R) :
  let '(best, bestD) := nearestPlace w px py in
  (bestD <= 1000000000)%R ∧
  (forall q, q ∈ places w -> (bestD <= Util.dist px py (x q) (y q))%R) ∧
  (best = None -> bestD = 1000000000%R) ∧
  (forall p, best = Some p ->
     p ∈ places w ∧ bestD = Util.dist px py (x p) (y p) ∧ (bestD < 1000000000)%R).
Proof.
  rewrite nearestPlace_fold.
  pose proof (nearer_invariant px py [] (places w) (None, 1000000000%R)) as H.
  cbv zeta in H. destruct (foldl _ _ _) as [best bestD]. simpl in H.
  apply H. split_and!; [lra| |done|done].
  intros q Hq. by apply elem_of_nil in Hq.
Qed.

(** X11.  [placeAt] answers with a place of the registry that is nearest to the
    position, no other place being strictly nearer, and only if the
    position is within its radius; when it answers with no place, every
    place within reach has a place at least as near whose radius the
    position is outside of, even if the position is inside the circle of a
    place that is farther away. *)
Theorem placeAt_is_nearest_within_radius (w : t) (px py : R) :
  (forall p, placeAt w px py = Some p ->
     p ∈ places w ∧
     (Util.dist px py (x p) (y p) <= r p)%R ∧
     (forall q, q ∈ places w ->
        (Util.dist px py (x p) (y p) <= Util.dist px py (x q) (y q))%R)) /\
  (placeAt w px py = None ->
     forall q, q ∈ places w -> (Util.dist px py (x q) (y q) < 1000000000)%R ->
       ∃ p, p ∈ places w ∧
            (Util.dist px py (x p) (y p) <= Util.dist px py (x q) (y q))%R ∧
            (r p < Util.dist px py (x p) (y p))%R) /\
  (places w = [] -> placeAt w px py = None).
Proof.
  pose proof (nearestPlace_spec w px py) as Hspec. unfold placeAt.
  destruct (nearestPlace w px py) as [[p|] bestD] eqn:Hnear.
  - destruct Hspec as (_ & Hmin & _ & Hsome).
    destruct (Hsome p eq_refl) as (Hin & Hd & _). subst bestD.
    destruct (Rle_dec _ (r p)) as [Hle|Hgt].
    + split; [|split].
      * intros p' [= <-]. done.
      * done.
      * intros Hnil. rewrite Hnil in Hin. by apply elem_of_nil in Hin.
    + split; [|split].
      * done.
      * intros _ q Hq _. exists p. split_and!; [done|by apply Hmin|lra].
      * done.
  - destruct Hspec as (_ & Hmin & Hnone & _). rewrite (Hnone eq_refl) in Hmin.
    split; [|split].
    + done.
    + intros _ q Hq Hclose. specialize (Hmin q Hq). lra.
    + done.
Qed.

(** X12.  The name that [nearestPlaceName] shows and the [placeName] of a
    perception agree whenever a place is within reach of the position;
    only when none is does the one say Nowhere and the other Street. *)
Theorem place_names_agree (w : t) (agent : AgentState.t) (allAgents : list AgentState.t) :
  let shown := nearestPlaceName w (AgentState.x agent) (AgentState.y agent) in
  let perceived := placeName (perceive w agent allAgents) in
  (fst (nearestPlace w (AgentState.x agent) (AgentState.y agent)) ≠ None ->
     shown = perceived) /\
  (fst (nearestPlace w (AgentState.x agent) (AgentState.y agent)) = None ->
     shown = "Nowhere" ∧ perceived = "Street") /\
  (forall p, placeAt w (AgentState.x agent) (AgentState.y agent) = Some p ->
     shown = name p ∧ perceived = name p ∧
     placeId (perceive w agent allAgents) = Some (id p)).
Proof.
  unfold nearestPlaceName, perceive, placeAt. cbn [placeName placeId].
  destruct (nearestPlace w _ _) as [[p|] d]; simpl.
  - destruct (Rle_dec d (r p)).
    + split; [done|]. split; [done|]. intros p' [= <-]. done.
    + split; [done|]. split; done.
  - split; [done|]. split; done.
Qed.

(** *** Chat and the event log *)

Lemma postChat_skipped (placeId : option string) (speaker text : string) (time : Z)
    (w : t) :
  placeId = None ∨ placeId = Some EmptyString ∨
  (∃ pid, placeId = Some pid ∧ chatByPlace w !! pid = None) ->
  postChat placeId speaker text time w = w.
Proof.
  intros [->|[->|(pid & -> & Hnone)]]; [done|done|].
  unfold postChat. case_bool_decide; [done|]. by rewrite Hnone.
Qed.

Lemma postChat_posted (pid speaker text : string) (time : Z) (w : t)
    (arr : list ChatMessage) :
  pid ≠ EmptyString -> chatByPlace w !! pid = Some arr ->
  postChat (Some pid) speaker text time w =
  push_log {| log_time := time; log_text := speaker +:+ ": " +:+ text;
              log_place := place_name_of w pid |}
    (set_chatByPlace
       (<[pid := arr ++ [{| speaker := speaker; msg_text := text; msg_time := time |}]]>
          (chatByPlace w)) w).
Proof.
  intros Hne Harr. unfold postChat. rewrite bool_decide_eq_false_2 by done.
  by rewrite Harr.
Qed.

(** X13.  [postChat] does nothing at all when the place id is absent, empty or
    not a key of the chat logs.  Otherwise it appends the message to the
    chat log of that place, leaves the chat logs of all other places as
    they are, and appends one entry to the event log, with the text
    [speaker: text] and the name of the place. *)
Theorem postChat_effect (placeId : option string) (speaker text : string)
    (time : Z) (w : t) :
  let w' := postChat placeId speaker text time w in
  (placeId = None ∨ placeId = Some EmptyString ∨
   (∃ pid, placeId = Some pid ∧ chatByPlace w !! pid = None) -> w' = w) /\
  (forall pid arr, placeId = Some pid -> pid ≠ EmptyString ->
     chatByPlace w !! pid = Some arr ->
     chatByPlace w' !! pid =
       Some (arr ++ [{| speaker := speaker; msg_text := text; msg_time := time |}]) ∧
     (forall other, other ≠ pid -> chatByPlace w' !! other = chatByPlace w !! other) ∧
     log w' = log w ++ [{| log_time := time; log_text := speaker +:+ ": " +:+ text;
                           log_place := place_name_of w pid |}]) /\
  places w' = places w /\ width w' = width w /\ height w' = height w.
Proof.
  split; [apply postChat_skipped|]. split.
  - intros pid arr -> Hne Harr. rewrite (postChat_posted _ _ _ _ _ arr) by done.
    cbn [chatByPlace log push_log set_chatByPlace]. split_and!.
    + apply lookup_insert_eq.
    + intros other Hother. by apply lookup_insert_ne.
    + done.
  - unfold postChat. destruct placeId as [pid|]; [|done].
    case_bool_decide; [done|]. by destruct (chatByPlace w !! pid).
Qed.

Lemma cleanup_lookup (now keepMinutes : Z) (w : t) (pid : string) :
  chatByPlace (cleanupOldChat now keepMinutes w) !! pid =
  List.filter (λ m, now - keepMinutes * 60 * 1000 <=? msg_time m)
    <$> chatByPlace w !! pid.
Proof. unfold cleanupOldChat. cbn [chatByPlace set_chatByPlace]. apply lookup_fmap. Qed.

Lemma filter_filter_same {A} (f : A -> bool) (l : list A) :
  List.filter f (List.filter f l) = List.filter f l.
Proof.
  induction l as [|a l IH]; [done|]. simpl.
  destruct (f a) eqn:Hf; [|done]. simpl. by rewrite Hf, IH.
Qed.

Lemma filter_sublist_bool {A} (f : A -> bool) (l : list A) :
  List.filter f l `sublist_of` l.
Proof.
  induction l as [|a l IH]; [done|]. simpl.
  destruct (f a); [by apply sublist_skip|by apply sublist_cons].
Qed.

(** X14.  [cleanupOldChat] keeps, in every chat log and in order, exactly the
    messages that are not older than [keepMinutes] before [now]; it keeps
    every place's log, touches neither the event log nor the places, and
    doing it twice is doing it once. *)
Theorem cleanup_keeps_recent_chat (now keepMinutes : Z) (w : t) :
  let w' := cleanupOldChat now keepMinutes w in
  let cutoff := now - keepMinutes * 60 * 1000 in
  (forall pid arr, chatByPlace w !! pid = Some arr ->
     ∃ kept, chatByPlace w' !! pid = Some kept ∧
             kept `sublist_of` arr ∧
             forall m, m ∈ kept ↔ m ∈ arr ∧ cutoff <= msg_time m) /\
  (forall pid, chatByPlace w' !! pid = None ↔ chatByPlace w !! pid = None) /\
  log w' = log w /\ places w' = places w /\
  cleanupOldChat now keepMinutes w' = w'.
Proof.
  intros w' cutoff. split; [|split; [|split; [|split]]].
  - intros pid arr Harr. eexists. unfold w'. rewrite cleanup_lookup, Harr.
    split; [done|]. split; [apply filter_sublist_bool|].
    intros m. rewrite !list_elem_of_In, filter_In.
    by rewrite Z.leb_le.
  - intros pid. unfold w'. rewrite cleanup_lookup. apply fmap_None.
  - done.
  - done.
  - unfold w', cleanupOldChat, set_chatByPlace.
    cbn [chatByPlace width height places log]. f_equal.
    rewrite <- map_fmap_compose. apply map_fmap_ext.
    intros pid arr _. simpl. apply filter_filter_same.
Qed.

(** *** What every operation keeps *)

Lemma place_ids_are_keys (w : t) :
  forall pid, is_Some (chatByPlace (new_World (width w) (height w)) !! pid) ↔
              pid ∈ id <$> PLACES.
Proof.
  intros pid. unfold new_World. cbn [chatByPlace].
  assert (Hgen : forall (l : list Place) (m : gmap string (list ChatMessage)),
            is_Some (foldl (λ m p, <[id p := []]> m) m l !! pid) ↔
            is_Some (m !! pid) ∨ pid ∈ id <$> l).
  { induction l as [|p l IH]; intros m.
    - simpl. rewrite elem_of_nil. tauto.
    - cbn [foldl]. rewrite IH, fmap_cons, elem_of_cons.
      destruct (decide (pid = id p)) as [->|Hne].
      + rewrite lookup_insert_eq. split; [|intros _; left; eauto]. tauto.
      + rewrite lookup_insert_ne by done. tauto. }
  rewrite Hgen, lookup_empty. split; [intros [[? [=]]|]; done|auto].
Qed.

Lemma apply_keeps (o : op) (w : t) :
  places (apply o w) = places w ∧ width (apply o w) = width w ∧
  height (apply o w) = height w ∧
  log w `prefix_of` log (apply o w) ∧
  (forall pid, is_Some (chatByPlace (apply o w) !! pid) ↔
               is_Some (chatByPlace w !! pid)).
Proof.
  destruct o as [placeId speaker text time|time text placeId|now keepMinutes];
    cbn [apply].
  - unfold postChat. destruct placeId as [pid|]; [|done].
    case_bool_decide; [done|].
    destruct (chatByPlace w !! pid) as [arr|] eqn:Harr; [|done].
    cbn [places width height log chatByPlace push_log set_chatByPlace].
    split_and!; try done; [by apply prefix_app_r|].
    intros pid'. destruct (decide (pid' = pid)) as [->|Hne].
    + rewrite lookup_insert_eq, Harr. split; eauto.
    + by rewrite lookup_insert_ne.
  - unfold logEvent. cbn [places width height log chatByPlace push_log].
    split_and!; try done. by apply prefix_app_r.
  - split_and!; try done. intros pid. rewrite cleanup_lookup.
    by rewrite fmap_is_Some.
Qed.

Lemma apply_all_keeps (ops : list op) (w : t) :
  places (apply_all ops w) = places w ∧ width (apply_all ops w) = width w ∧
  height (apply_all ops w) = height w ∧
  log w `prefix_of` log (apply_all ops w) ∧
  (forall pid, is_Some (chatByPlace (apply_all ops w) !! pid) ↔
               is_Some (chatByPlace w !! pid)).
Proof.
  revert w. induction ops as [|o ops IH]; intros w; [done|].
  unfold apply_all in *. cbn [foldl].
  destruct (IH (apply o w)) as (Hp & Hw & Hh & Hl & Hk).
  destruct (apply_keeps o w) as (Hp' & Hw' & Hh' & Hl' & Hk').
  split_and!; try congruence.
  - by etrans.
  - intros pid. by rewrite Hk, Hk'.
Qed.

(** X15.  Whatever is posted, logged and cleaned up, the registry of places and
    the size of the world stay as they are, the event log is only ever
    appended to, and the places that have a chat log stay the same: in a
    world made by the constructor these are exactly the ids of the six
    places, so a chat message for any of them is never dropped. *)
Theorem world_operations_keep (ops : list op) (w : t) :
  let w' := apply_all ops w in
  places w' = places w /\ width w' = width w /\ height w' = height w /\
  log w `prefix_of` log w' /\
  (forall pid, is_Some (chatByPlace w' !! pid) ↔ is_Some (chatByPlace w !! pid)) /\
  (forall width height pid,
     is_Some (chatByPlace (apply_all ops (new_World width height)) !! pid) ↔
     pid ∈ ["hobbs"; "park"; "college"; "library"; "market"; "plaza"]).
Proof.
  destruct (apply_all_keeps ops w) as (Hp & Hw & Hh & Hl & Hk).
  split_and!; try done.
  intros width height pid.
  destruct (apply_all_keeps ops (new_World width height)) as (_ & _ & _ & _ & Hk').
  rewrite Hk'.
  apply (place_ids_are_keys (new_World width height)).
Qed.

Lemma logged_mono (w w' : t) (m : ChatMessage) :
  log w `prefix_of` log w' -> logged w m -> logged w' m.
Proof.
  intros [tail Htail] (e & He & Ht & Htext). exists e. rewrite Htail.
  split; [|done]. apply elem_of_app. by left.
Qed.

Lemma apply_chats_logged (o : op) (w : t) :
  chats_logged w -> chats_logged (apply o w).
Proof.
  intros Hw. pose proof (apply_keeps o w) as (_ & _ & _ & Hprefix & _).
  destruct o as [placeId speaker text time|time text placeId|now keepMinutes];
    cbn [apply] in *.
  - destruct placeId as [pid|]; [|done].
    destruct (decide (pid = EmptyString)) as [->|Hne]; [done|].
    destruct (chatByPlace w !! pid) as [arr|] eqn:Harr.
    + rewrite (postChat_posted _ _ _ _ _ arr) in * by done.
      intros pid' arr' m Hlook Hm.
      cbn [chatByPlace push_log set_chatByPlace] in Hlook.
      destruct (decide (pid' = pid)) as [->|Hne'].
      * rewrite lookup_insert_eq in Hlook. injection Hlook as <-.
        apply elem_of_app in Hm as [Hm|Hm%list_elem_of_singleton].
        -- eapply logged_mono; [done|]. by eapply Hw.
        -- subst m.
           exists {| log_time := time; log_text := speaker +:+ ": " +:+ text;
                     log_place := place_name_of w pid |}.
           split; [|done]. cbn [log push_log set_chatByPlace].
           apply elem_of_app. right. apply list_elem_of_here.
      * rewrite lookup_insert_ne in Hlook by done.
        eapply logged_mono; [done|]. by eapply Hw.
    + by rewrite postChat_skipped by eauto.
  - intros pid arr m Hlook Hm. eapply logged_mono; [done|]. by eapply Hw.
  - intros pid arr m Hlook Hm. rewrite cleanup_lookup in Hlook.
    apply fmap_Some in Hlook as (arr0 & Harr0 & ->).
    apply list_elem_of_In, filter_In in Hm as [Hm%list_elem_of_In _].
    eapply logged_mono; [done|]. by eapply Hw.
Qed.

(** X16.  Every chat message is in the event log too: in a world that started
    from the constructor, whatever was posted, logged and cleaned up
    since, each message of each chat log has an entry in the event log
    with the same time and the text [speaker: text].  The converse fails:
    the clean-up removes messages from the chat logs only. *)
Theorem chat_messages_are_logged (ops : list op) (width height : R) :
  chats_logged (apply_all ops (new_World width height)).
Proof.
  assert (Hstart : chats_logged (new_World width height)).
  { intros pid arr m Hlook Hm.
    assert (Hempty : arr = []).
    { revert Hlook. unfold new_World. cbn [chatByPlace].
      generalize PLACES. intros l.
      assert (Hgen : forall (l : list Place) (m0 : gmap string (list ChatMessage)),
                (forall k a, m0 !! k = Some a -> a = []) ->
                forall k a, foldl (λ m p, <[id p := []]> m) m0 l !! k = Some a -> a = []).
      { clear. induction l as [|p l IH]; intros m0 Hm0 k a; [apply Hm0|].
        cbn [foldl]. apply IH. intros k' a'.
        destruct (decide (k' = id p)) as [->|Hne].
        - rewrite lookup_insert_eq. congruence.
        - rewrite lookup_insert_ne by done. apply Hm0. }
      apply Hgen. intros k a. by rewrite lookup_empty. }
    subst arr. by apply elem_of_nil in Hm. }
  revert Hstart. generalize (new_World width height).
  induction ops as [|o ops IH]; intros w Hw; [done|].
  unfold apply_all in *. cbn [foldl]. apply IH. by apply apply_chats_logged.
Qed.

(** *** A posted message is perceived *)

Lemma hobbs_at_the_cafe_isabella :
  placeAt (new_World 32 32) (AgentState.x Samples.isabella)
          (AgentState.y Samples.isabella) =
  Some {| id := "hobbs"; name := "Hobbs Cafe"; x := 10; y := 10; r := 3.0;
          desc := "A cozy coffee shop with pastries and regulars." |}.
Proof. exact WorldFacts.hobbs_at_the_cafe. Qed.

(** X17.  After [postChat] at a place that has a chat log, an agent who stands
    in that place perceives the message as the last entry of the chat,
    right away. *)
Theorem posted_message_is_perceived (w : t) (agent : AgentState.t)
    (allAgents : list AgentState.t) (p : Place) (arr : list ChatMessage)
    (speaker text : string) (time : Z) :
  placeAt w (AgentState.x agent) (AgentState.y agent) = Some p ->
  id p ≠ EmptyString ->
  chatByPlace w !! id p = Some arr ->
  let w' := postChat (Some (id p)) speaker text time w in
  last (chat (perceive w' agent allAgents)) =
    Some {| speaker := speaker; msg_text := text; msg_time := time |} /\
  (length (chat (perceive w' agent allAgents)) = (S (length arr) `min` 6)%nat).
Proof.
  intros Hat Hne Harr w'.
  assert (Hplaces : placeAt w' (AgentState.x agent) (AgentState.y agent) = Some p).
  { unfold w'. rewrite (postChat_posted _ _ _ _ _ arr) by done. exact Hat. }
  assert (Hchat : chatByPlace w' !! id p =
                  Some (arr ++ [{| speaker := speaker; msg_text := text;
                                   msg_time := time |}])).
  { unfold w'. rewrite (postChat_posted _ _ _ _ _ arr) by done.
    cbn [chatByPlace push_log set_chatByPlace]. apply lookup_insert_eq. }
  unfold perceive. cbn [chat]. rewrite Hplaces. cbn [fmap option_fmap option_map].
  rewrite bool_decide_eq_false_2 by done. rewrite Hchat. cbn [default].
  change (-6) with (Z.opp 6). rewrite JsFacts.slice_suffix by lia.
  unfold Datatypes.id. split.
  - rewrite drop_app_le by (rewrite length_app; simpl; lia). apply last_snoc.
  - rewrite length_drop, length_app. simpl. lia.
Qed.

Lemma posted_message_is_perceived_witness :
  let w := new_World 32 32 in
  let w' := postChat (Some "hobbs") "Klaus Mueller" "Good morning!" 1000 w in
  last (chat (perceive w' Samples.isabella [Samples.isabella; Samples.klaus])) =
    Some {| speaker := "Klaus Mueller"; msg_text := "Good morning!"; msg_time := 1000 |} /\
  length (chat (perceive w' Samples.isabella [Samples.isabella; Samples.klaus])) = 1%nat.
Proof.
  refine (posted_message_is_perceived (new_World 32 32) Samples.isabella
            [Samples.isabella; Samples.klaus]
            {| id := "hobbs"; name := "Hobbs Cafe"; x := 10; y := 10; r := 3.0;
               desc := "A cozy coffee shop with pastries and regulars." |}
            [] "Klaus Mueller" "Good morning!" 1000 _ _ _).
  - exact hobbs_at_the_cafe_isabella.
  - discriminate.
  - vm_compute. reflexivity.
Defined.

End WorldOpsFacts.

(** ** The cycle of an agent *)

Module CycleFacts.
Import Js Json AgentState Agent Cycle.

(** *** Walking *)

Lemma move_without_dest (a : AgentState.t) :
  dest a = None -> _moveTowardsDest a = a.
Proof. intros Hd. unfold _moveTowardsDest. by rewrite Hd. Qed.

Lemma walk_without_dest (n : nat) (a : AgentState.t) :
  dest a = None -> walk n a = a.
Proof.
  revert a. induction n as [|n IH]; intros a Hd; [done|].
  cbn [walk]. rewrite move_without_dest by done. by apply IH.
Qed.

Lemma move_snaps (a : AgentState.t) (de : Dest) :
  dest a = Some de ->
  (Util.dist (x a) (y a) (dest_x de) (dest_y de) < 0.01)%R ->
  _moveTowardsDest a = set_dest None (set_pos (dest_x de) (dest_y de) a).
Proof.
  intros Hd Hnear. unfold _moveTowardsDest. rewrite Hd.
  by destruct (Rlt_dec _ _).
Qed.

Lemma move_advances (a : AgentState.t) (de : Dest) :
  dest a = Some de ->
  ¬ (Util.dist (x a) (y a) (dest_x de) (dest_y de) < 0.01)%R ->
  dest (_moveTowardsDest a) = Some de ∧
  speed (_moveTowardsDest a) = speed a ∧
  (0 <= x (_moveTowardsDest a) <= 31.9)%R ∧
  (0 <= y (_moveTowardsDest a) <= 31.9)%R.
Proof.
  intros Hd Hfar. unfold _moveTowardsDest. rewrite Hd.
  destruct (Rlt_dec _ _); [done|]. cbn [dest speed x y set_pos].
  split_and!; try done; apply MoveFacts.clampR_range; lra.
Qed.

Lemma walk_arrives_within (n : nat) (a : AgentState.t) (de : Dest) :
  dest a = Some de ->
  (0 <= x a <= 31.9)%R -> (0 <= y a <= 31.9)%R ->
  (0 <= dest_x de <= 31.9)%R -> (0 <= dest_y de <= 31.9)%R ->
  (0 < speed a)%R ->
  (Util.dist (x a) (y a) (dest_x de) (dest_y de) <= INR n * speed a)%R ->
  walk (S n) a = set_dest None (set_pos (dest_x de) (dest_y de) (walk n a)) ∧
  dest (walk (S n) a) = None.
Proof.
  revert a. induction n as [|n IH]; intros a Hd Hx Hy Hdx Hdy Hspeed Hdist.
  - cbn [walk]. simpl in Hdist. rewrite move_snaps with (de := de); [done|done|].
    pose proof (MoveFacts.dist_nonneg (x a) (y a) (dest_x de) (dest_y de)). lra.
  - destruct (Rlt_dec (Util.dist (x a) (y a) (dest_x de) (dest_y de)) 0.01)
      as [Hnear|Hfar].
    + cbn [walk]. rewrite (move_snaps a de) by done.
      rewrite !walk_without_dest by done. done.
    + destruct (move_advances a de Hd Hfar) as (Hd' & Hs' & Hx' & Hy').
      pose proof (MoveFacts.move_shortens_distance a de Hd Hx Hy Hdx Hdy
                    (Rlt_le _ _ Hspeed) Hfar) as Hshort.
      cbv zeta in Hshort.
      change (walk (S (S n)) a) with (walk (S n) (_moveTowardsDest a)).
      change (walk (S n) a) with (walk n (_moveTowardsDest a)).
      apply IH; try done; [by rewrite Hs'|].
      rewrite Hshort, Hs'. rewrite S_INR in Hdist.
      pose proof (pos_INR n) as Hn.
      assert (0 <= INR n * speed a)%R by (apply Rmult_le_pos; lra).
      unfold Rmin. destruct (Rle_dec _ _); lra.
Qed.

(** X18.  A walking agent arrives.  An agent inside the grid, whose
    destination is inside the grid too and no further than [n] times
    its speed, stands exactly on the destination after [n + 1] calls of
    [_moveTowardsDest], with the destination cleared; further calls
    change nothing. *)
Theorem walk_arrives (n m : nat) (a : AgentState.t) (de : Dest) :
  dest a = Some de ->
  (0 <= x a <= 31.9)%R -> (0 <= y a <= 31.9)%R ->
  (0 <= dest_x de <= 31.9)%R -> (0 <= dest_y de <= 31.9)%R ->
  (0 < speed a)%R ->
  (Util.dist (x a) (y a) (dest_x de) (dest_y de) <= INR n * speed a)%R ->
  let a' := walk (S n + m) a in
  x a' = dest_x de /\ y a' = dest_y de /\ dest a' = None /\
  _moveTowardsDest a' = a'.
Proof.
  intros Hd Hx Hy Hdx Hdy Hspeed Hdist a'.
  destruct (walk_arrives_within n a de Hd Hx Hy Hdx Hdy Hspeed Hdist)
    as [Hwalk Hnone].
  assert (Hsplit : forall k j b, walk (k + j) b = walk j (walk k b)).
  { induction k as [|k IHk]; intros j b; [done|]. cbn [walk Nat.add]. apply IHk. }
  assert (Ha' : a' = walk (S n) a).
  { unfold a'. rewrite Hsplit. by apply walk_without_dest. }
  rewrite Ha'. split_and!; [by rewrite Hwalk|by rewrite Hwalk|done|].
  by apply move_without_dest.
Qed.

Lemma walk_arrives_witness :
  let a' := walk 11 Samples.isabella_walking in
  x a' = 22%R /\ y a' = 9%R /\ dest a' = None /\ _moveTowardsDest a' = a'.
Proof.
  refine (walk_arrives 10 0 Samples.isabella_walking Samples.to_the_park
            eq_refl _ _ _ _ _ _); cbn; try lra.
  apply Rle_trans with (sqrt (13 * 13)); [|rewrite sqrt_square; lra].
  apply sqrt_le_1_alt. lra.
Defined.

(** *** Records are appended and numbered *)

Lemma remember_counter (prefix : string) (now : Z) (text : string) (imp : Z)
    (type : string) (st : State) :
  _idCounter (remember prefix now text imp type st) = (_idCounter st + 1)%N.
Proof. done. Qed.

Lemma remember_frame (prefix : string) (now : Z) (text : string) (imp : Z)
    (type : string) (st : State) :
  world (remember prefix now text imp type st) = world st ∧
  self (remember prefix now text imp type st) =
    set_memory (memory (self (remember prefix now text imp type st))) (self st).
Proof. done. Qed.

Lemma numbered_app (c : N) (ps ps' : list string) :
  numbered c (ps ++ ps') = numbered c ps ++ numbered (c + N.of_nat (length ps)) ps'.
Proof.
  unfold numbered. rewrite imap_app. f_equal. apply imap_ext.
  intros i p _. unfold compose.
  by replace (c + N.of_nat (length ps + i))%N
       with (c + N.of_nat (length ps) + N.of_nat i)%N by lia.
Qed.

Lemma numbered_length (c : N) (ps : list string) :
  length (numbered c ps) = length ps.
Proof. unfold numbered. apply length_imap. Qed.

Lemma appended_refl (st : State) : appended st st [].
Proof.
  split_and!.
  - by rewrite app_nil_r.
  - by exists [].
  - simpl. lia.
Qed.

Lemma appended_trans (st st' st'' : State) (new new' : list Memory.MemoryRecord) :
  appended st st' new -> appended st' st'' new' -> appended st st'' (new ++ new').
Proof.
  intros (Hs & [ps Hps] & Hc) (Hs' & [ps' Hps'] & Hc').
  assert (Hlen : length ps = length new).
  { by rewrite <- (numbered_length (_idCounter st)), <- Hps, length_fmap. }
  split_and!.
  - by rewrite Hs', Hs, app_assoc.
  - exists (ps ++ ps'). rewrite fmap_app, numbered_app, Hps, Hps', Hc, Hlen. done.
  - rewrite Hc', Hc, length_app. lia.
Qed.

Lemma appended_remember (prefix : string) (now : Z) (text : string) (imp : Z)
    (type : string) (st : State) :
  appended st (remember prefix now text imp type st)
    [Memory.new_MemoryRecord (snd (nextId prefix (_idCounter st))) now text imp type].
Proof.
  split_and!.
  - done.
  - exists [prefix]. unfold numbered. simpl. by rewrite N.add_0_r.
  - done.
Qed.

(** A change of the world or of fields other than the stream. *)
Lemma appended_same (st st' st'' : State) (new : list Memory.MemoryRecord) :
  appended st st' new -> stored st'' = stored st' ->
  _idCounter st'' = _idCounter st' -> appended st st'' new.
Proof. intros (Hs & Hps & Hc) Hs'' Hc''. split_and!; congruence. Qed.

Lemma appended_skipped (st st' : State) (new : list Memory.MemoryRecord) :
  appended st st' new -> appended_or_skipped st st' new.
Proof. intros (Hs & Hps & Hc). split; [done|]. split; [done|]. by left. Qed.

Lemma skipped_trans (st st' st'' : State) (new new' : list Memory.MemoryRecord) :
  appended st st' new -> appended_or_skipped st' st'' new' ->
  appended_or_skipped st st'' (new ++ new').
Proof.
  intros (Hs & [ps Hps] & Hc) (Hs' & [ps' Hps'] & Hc').
  assert (Hlen : length ps = length new).
  { by rewrite <- (numbered_length (_idCounter st)), <- Hps, length_fmap. }
  split; [|split].
  - by rewrite Hs', Hs, app_assoc.
  - exists (ps ++ ps'). rewrite fmap_app, numbered_app, Hps, Hps', Hc, Hlen. done.
  - rewrite length_app. destruct Hc' as [Hc'|Hc']; rewrite Hc', Hc; [left|right]; lia.
Qed.

(** A change of the world or of fields other than the stream, before or
    after. *)
Lemma skipped_same (st0 st st' st'' : State) (new : list Memory.MemoryRecord) :
  appended_or_skipped st st' new ->
  stored st = stored st0 -> _idCounter st = _idCounter st0 ->
  stored st'' = stored st' -> _idCounter st'' = _idCounter st' ->
  appended_or_skipped st0 st'' new.
Proof.
  intros (Hs & Hps & Hc) Hs0 Hc0 Hs'' Hc''.
  split; [congruence|]. split; [by rewrite <- Hc0|]. by rewrite Hc'', <- Hc0.
Qed.

(** *** Seed memories *)

Lemma seeds_fold (now : Z) (seeds : list string) (st : State) (imp : Z) :
  5 <= imp ->
  let st' := fst (foldl (λ '(st, imp) t,
                           (remember "seed" now t imp "observation" st,
                            Z.max 5 (imp - 1)))
                        (st, imp) seeds) in
  stored st' =
    stored st ++
    imap (λ i t, Memory.new_MemoryRecord
                   (snd (nextId "seed" (_idCounter st + N.of_nat i))) now t
                   (Z.max 5 (imp - Z.of_nat i)) "observation") seeds ∧
  _idCounter st' = (_idCounter st + N.of_nat (length seeds))%N ∧
  world st' = world st ∧
  self st' = set_memory (memory (self st')) (self st).
Proof.
  revert st imp. induction seeds as [|t seeds IH]; intros st imp Himp.
  - cbn. rewrite app_nil_r, N.add_0_r. by destruct st as [c w []].
  - cbn [foldl].
    destruct (IH (remember "seed" now t imp "observation" st) (Z.max 5 (imp - 1)))
      as (Hs & Hc & Hw & Hself); [lia|].
    cbv zeta. split_and!.
    + rewrite Hs. unfold stored. rewrite AgentFacts.remember_stored.
      cbn [imap]. rewrite <- app_assoc. f_equal. cbn [app]. f_equal.
      * rewrite N.add_0_r, Z.sub_0_r, Z.max_r by lia. done.
      * apply imap_ext. intros i t' _. unfold compose.
        rewrite remember_counter.
        replace (_idCounter st + 1 + N.of_nat i)%N
          with (_idCounter st + N.of_nat (S i))%N by lia.
        by replace (Z.max 5 (Z.max 5 (imp - 1) - Z.of_nat i))
             with (Z.max 5 (imp - Z.of_nat (S i))) by lia.
    + rewrite Hc. cbn [length]. rewrite remember_counter. lia.
    + by rewrite Hw.
    + rewrite Hself at 1. done.
Qed.

Lemma seeds_are_stored_aux (now : Z) (st : State) :
  let st' := seedInitialMemories now st in
  let seeds := seeds_of (self st) in
  stored st' =
    stored st ++
    imap (λ i t, Memory.new_MemoryRecord
                   (snd (nextId "seed" (_idCounter st + N.of_nat i))) now t
                   (Z.max 5 (8 - Z.of_nat i)) "observation") seeds /\
  _idCounter st' = (_idCounter st + N.of_nat (length seeds))%N /\
  world st' = world st /\
  self st' = set_memory (memory (self st')) (self st).
Proof. apply seeds_fold. lia. Qed.

(** X19.  [seedInitialMemories] appends one observation for each seed, in
    order, stamped with [now]; their ids are drawn from the counter one
    after the other with the prefix [seed], and their importance is
    8, 7, 6 and then 5 for all that follow.  The accumulator of
    importance, the position and the world are as they were: seeds never
    count towards a reflection. *)
Theorem seeds_are_stored (now : Z) (st : State) :
  let st' := seedInitialMemories now st in
  let seeds := seeds_of (self st) in
  stored st' =
    stored st ++
    imap (λ i t, Memory.new_MemoryRecord
                   (snd (nextId "seed" (_idCounter st + N.of_nat i))) now t
                   (Z.max 5 (8 - Z.of_nat i)) "observation") seeds /\
  _idCounter st' = (_idCounter st + N.of_nat (length seeds))%N /\
  world st' = world st /\
  self st' = set_memory (memory (self st')) (self st).
Proof. apply seeds_are_stored_aux. Qed.

Lemma appended_seed (now : Z) (st : State) :
  ∃ new, appended st (seedInitialMemories now st) new.
Proof.
  destruct (seeds_are_stored_aux now st) as (Hs & Hc & _).
  eexists. split_and!; [exact Hs| |].
  - exists (const "seed" <$> seeds_of (self st)).
    unfold numbered. rewrite fmap_imap, imap_fmap. by apply imap_ext.
  - rewrite Hc, length_imap. done.
Qed.

(** *** The memories of a decision *)

Lemma total_importance_app (l l' : list Memory.MemoryRecord) :
  total_importance (l ++ l') = total_importance l + total_importance l'.
Proof.
  unfold total_importance. induction l as [|r l IH]; [done|].
  cbn [app foldr]. lia.
Qed.

Lemma same_but_memory_refl (a : AgentState.t) : same_but_memory a a.
Proof. by destruct a. Qed.

Lemma same_but_memory_trans (a a' a'' : AgentState.t) :
  same_but_memory a a' -> same_but_memory a' a'' -> same_but_memory a a''.
Proof. unfold same_but_memory. intros -> ->. done. Qed.

#[local] Ltac trivial_case :=
  first [ apply appended_refl | apply same_but_memory_refl | done
        | (simpl; lia) | (intros; simpl; lia)
        | (cbn [outcome_state store_memories total_importance foldr]; lia) ].

Lemma store_memories_spec (mode : string) (ratings : nat -> string) (now : Z)
    (ms : list val) (i : nat) (st : State) :
  let st' := outcome_state (store_memories mode ratings now i ms st) in
  ∃ new,
    appended st st' new ∧
    importanceSinceReflection (self st') =
      importanceSinceReflection (self st) + total_importance new ∧
    (length new <= length ms)%nat ∧
    (store_memories mode ratings now i ms st = Done st' -> length new = length ms) ∧
    Forall (λ r, Memory.time r = now ∧ 1 <= Memory.importance r <= 10) new ∧
    world st' = world st ∧ same_but_memory (self st) (self st').
Proof.
  revert i st. induction ms as [|m ms IH]; intros i st st'.
  - subst st'. exists []. split_and!; trivial_case.
  - subst st'. cbn [store_memories].
    destruct (get_prop m "text") as [tv|].
    2:{ exists []. split_and!; trivial_case. }
    destruct (toString (or_else tv (Str ""))) as [s|].
    2:{ exists []. split_and!; trivial_case. }
    destruct (proposed_importance (get_prop_opt m "importance")) as [imp0|] eqn:Himp0.
    2:{ exists []. split_and!; trivial_case. }
    set (text := str_slice _ _ _). set (type := proposed_type _).
    set (imp := if bool_decide (mode = "paper") then _ else _).
    assert (Himp : 1 <= imp <= 10).
    { unfold imp. case_bool_decide;
        [apply AgentFacts.rated_importance_range
        |by apply AgentFacts.proposed_importance_range in Himp0]. }
    set (st1 := remember "mem" now text imp type st).
    set (st2 := set_self _ st1).
    destruct (IH (S i) st2) as (new & Happ & Hacc & Hlen & Hdone & Hall & Hw & Hself).
    exists (Memory.new_MemoryRecord (snd (nextId "mem" (_idCounter st))) now text
              imp type :: new).
    split_and!.
    + apply (appended_trans st st2 _ [_] new); [|done].
      eapply appended_same; [apply (appended_remember "mem" now text imp type st)|..];
        done.
    + rewrite Hacc. change (importanceSinceReflection (self st2))
        with (importanceSinceReflection (self st) + imp).
      change (total_importance (?r :: new))
        with (Memory.importance r + total_importance new).
      cbn [Memory.importance Memory.new_MemoryRecord]. lia.
    + simpl. lia.
    + intros Hd. simpl. f_equal. apply Hdone.
      destruct (store_memories mode ratings now (S i) ms st2); [done|discriminate].
    + constructor; [done|done].
    + by rewrite Hw.
    + eapply same_but_memory_trans; [|exact Hself]. unfold same_but_memory. done.
Qed.

Lemma store_memories_fast (mode : string) (ratings : nat -> string) (now : Z)
    (ms : list val) (i : nat) (st : State) :
  mode ≠ "paper" -> Forall (λ m, is_Some (item_fields m)) ms ->
  ∃ st', store_memories mode ratings now i ms st = Done st' ∧
         stored st' =
           stored st ++
           imap (λ j m, proposed_record
                          (snd (nextId "mem" (_idCounter st + N.of_nat j))) now m) ms.
Proof.
  intros Hmode. revert i st. induction ms as [|m ms IH]; intros i st Hms.
  - eexists. split; [done|]. by rewrite app_nil_r.
  - apply Forall_cons in Hms as [[fields Hfields] Hms]. cbn [store_memories].
    assert (Hrec : forall rid, proposed_record rid now m =
              match item_fields m with
              | Some (text, imp, type) => Memory.new_MemoryRecord rid now text imp type
              | None => Memory.new_MemoryRecord rid now EmptyString 3 "observation"
              end) by done.
    unfold item_fields in Hfields, Hrec.
    destruct (get_prop m "text") as [tv|]; [|done].
    destruct (toString (or_else tv (Str ""))) as [s|]; [|done].
    destruct (proposed_importance (get_prop_opt m "importance")) as [imp|];
      [|done].
    rewrite bool_decide_eq_false_2 by done.
    edestruct IH as (st' & -> & Hst'); [exact Hms|].
    eexists. split; [done|]. rewrite Hst'. unfold stored at 1.
    cbn [self set_self memory set_importanceSinceReflection].
    rewrite AgentFacts.remember_stored. cbn [imap]. rewrite <- app_assoc.
    f_equal. cbn [app]. f_equal.
    + by rewrite Hrec, N.add_0_r.
    + apply imap_ext. intros j m' _. unfold compose.
      cbn [_idCounter set_self]. rewrite remember_counter.
      by replace (_idCounter st + 1 + N.of_nat j)%N
           with (_idCounter st + N.of_nat (S j))%N by lia.
Qed.

(** The loop over a list that continues another. *)
Lemma store_memories_app (mode : string) (ratings : nat -> string) (now : Z)
    (ms ms' : list val) (i : nat) (st : State) :
  store_memories mode ratings now i (ms ++ ms') st =
  bind (store_memories mode ratings now i ms st)
       (store_memories mode ratings now (i + length ms) ms').
Proof.
  revert i st. induction ms as [|m ms IH]; intros i st.
  - cbn. by rewrite Nat.add_0_r.
  - cbn [app store_memories length].
    destruct (get_prop m "text") as [tv|]; [|done].
    destruct (toString (or_else tv (Str ""))) as [s|]; [|done].
    destruct (proposed_importance (get_prop_opt m "importance")) as [imp|]; [|done].
    rewrite IH. by replace (S i + length ms)%nat with (i + S (length ms))%nat by lia.
Qed.

Lemma store_memories_raises (mode : string) (ratings : nat -> string) (now : Z)
    (m : val) (ms : list val) (i : nat) (st : State) :
  item_fields m = None ->
  store_memories mode ratings now i (m :: ms) st = Throw st.
Proof.
  unfold item_fields. intros Hfields. cbn [store_memories].
  destruct (get_prop m "text") as [tv|]; [|done].
  destruct (toString (or_else tv (Str ""))) as [s|]; [|done].
  by destruct (proposed_importance (get_prop_opt m "importance")) as [imp|].
Qed.

Lemma store_memories_returns (mode : string) (ratings : nat -> string) (now : Z)
    (ms : list val) (i : nat) (st : State) :
  (∃ st', store_memories mode ratings now i ms st = Done st') ↔
  Forall (λ m, is_Some (item_fields m)) ms.
Proof.
  revert i st. induction ms as [|m ms IH]; intros i st.
  - split; [constructor|]. intros _. by eexists.
  - rewrite Forall_cons.
    destruct (item_fields m) as [fields|] eqn:Hfields.
    + unfold item_fields in Hfields. cbn [store_memories].
      destruct (get_prop m "text") as [tv|]; [|done].
      destruct (toString (or_else tv (Str ""))) as [s|]; [|done].
      destruct (proposed_importance (get_prop_opt m "importance")) as [imp|]; [|done].
      rewrite IH. split; [|by intros [_ ?]].
      intros Hms. split; [by eexists|done].
    + rewrite store_memories_raises by done. split.
      * by intros [st' ?].
      * intros [[? ?] _]. done.
Qed.

(** X20.  The loop over [obj.memories] stores one record for each item,
    however many there are, until an item cannot be stored: it is [null]
    or [undefined], or its text or its importance cannot be converted.
    The loop returns exactly when there is no such item.  The records
    are appended with ids drawn from the counter, each stamped with
    [now] and with an importance within [1 .. 10], and the accumulator
    grows by exactly the sum of their importance.  The world and the
    rest of the agent are not touched.  In fast mode the records are
    those that the items propose: for all items when the loop returns,
    and for the items before the first that cannot be stored when it
    raises there. *)
Theorem memories_are_stored (mode : string) (ratings : nat -> string) (now : Z)
    (ms : list val) (i : nat) (st : State) :
  let st' := outcome_state (store_memories mode ratings now i ms st) in
  (∃ new,
     appended st st' new ∧
     importanceSinceReflection (self st') =
       importanceSinceReflection (self st) + total_importance new ∧
     (length new <= length ms)%nat ∧
     (store_memories mode ratings now i ms st = Done st' -> length new = length ms) ∧
     Forall (λ r, Memory.time r = now ∧ 1 <= Memory.importance r <= 10) new) /\
  world st' = world st /\
  (store_memories mode ratings now i ms st = Done st' <->
   Forall (λ m, is_Some (item_fields m)) ms) /\
  (mode ≠ "paper" -> Forall (λ m, is_Some (item_fields m)) ms ->
     store_memories mode ratings now i ms st = Done st' ∧
     stored st' =
       stored st ++
       imap (λ j m, proposed_record
                      (snd (nextId "mem" (_idCounter st + N.of_nat j))) now m) ms) /\
  (mode ≠ "paper" ->
   forall ms1 m ms2,
     ms = ms1 ++ m :: ms2 -> Forall (λ m, is_Some (item_fields m)) ms1 ->
     item_fields m = None ->
     store_memories mode ratings now i ms st = Throw st' ∧
     stored st' =
       stored st ++
       imap (λ j m, proposed_record
                      (snd (nextId "mem" (_idCounter st + N.of_nat j))) now m) ms1 ∧
     _idCounter st' = (_idCounter st + N.of_nat (length ms1))%N).
Proof.
  intros st'.
  destruct (store_memories_spec mode ratings now ms i st)
    as (new & Happ & Hacc & Hlen & Hdone & Hall & Hw & _).
  split; [exists new; split; [|split; [|split; [|split]]]; done|].
  split; [done|]. split; [|split].
  - rewrite <- (store_memories_returns mode ratings now ms i st). split; [eauto|].
    intros [st1 Hst1]. subst st'. by rewrite Hst1.
  - intros Hmode Hms.
    destruct (store_memories_fast mode ratings now ms i st Hmode Hms)
      as (st1 & Hst1 & Hrecs).
    subst st'. rewrite Hst1. done.
  - intros Hmode ms1 m ms2 -> Hms1 Hm.
    destruct (store_memories_fast mode ratings now ms1 i st Hmode Hms1)
      as (st1 & Hst1 & Hrecs).
    destruct (store_memories_spec mode ratings now ms1 i st)
      as (new1 & (_ & _ & Hc1) & _ & _ & Hlen1 & _).
    rewrite Hst1 in Hc1, Hlen1. cbn [outcome_state] in Hc1, Hlen1.
    subst st'. rewrite store_memories_app, Hst1. cbn [bind].
    rewrite store_memories_raises by done. cbn [outcome_state].
    split; [done|]. split; [done|]. by rewrite Hc1, Hlen1.
Qed.

(** *** Reflections *)

Lemma same_but_mind_refl (a : AgentState.t) : same_but_mind a a.
Proof. by destruct a. Qed.

Lemma same_but_mind_trans (a a' a'' : AgentState.t) :
  same_but_mind a a' -> same_but_mind a' a'' -> same_but_mind a a''.
Proof. unfold same_but_mind. intros -> ->. done. Qed.

Lemma same_but_memory_mind (a a' : AgentState.t) :
  same_but_memory a a' -> same_but_mind a a'.
Proof. unfold same_but_memory, same_but_mind. intros ->. done. Qed.

Lemma store_insights_stored (now : Z) (items : list val) (texts : list string)
    (st : State) :
  Forall2 (λ ins text, toString ins = Some text) items texts ->
  ∃ st', store_insights now items st = Done st' ∧
    stored st' =
      stored st ++
      imap (λ i text, insight_record (snd (nextId "ref" (_idCounter st + N.of_nat i)))
                                     now text) texts ∧
    _idCounter st' = (_idCounter st + N.of_nat (length items))%N ∧
    world st' = world st ∧
    self st' = set_memory (memory (self st')) (self st).
Proof.
  intros Hall. revert st.
  induction Hall as [|ins text items texts Htext _ IH]; intros st.
  - exists st. split; [done|]. cbn. rewrite app_nil_r, N.add_0_r.
    by destruct st as [c w []].
  - cbn [store_insights]. rewrite Htext.
    destruct (IH (remember "ref" now ("Insight: " +:+ text) 8 "reflection" st))
      as (st' & Hrun & Hs & Hc & Hw & Hself).
    exists st'. split; [done|]. split; [|split; [|split]].
    + rewrite Hs. unfold stored. rewrite AgentFacts.remember_stored.
      cbn [imap]. rewrite <- app_assoc. f_equal. cbn [app]. f_equal.
      * by rewrite N.add_0_r.
      * apply imap_ext. intros i text' _. unfold compose.
        rewrite remember_counter.
        by replace (_idCounter st + 1 + N.of_nat i)%N
             with (_idCounter st + N.of_nat (S i))%N by lia.
    + rewrite Hc. cbn [length]. rewrite remember_counter. lia.
    + by rewrite Hw.
    + rewrite Hself at 1. done.
Qed.

(** The loop over a list that continues another. *)
Lemma store_insights_app (now : Z) (items items' : list val) (st : State) :
  store_insights now (items ++ items') st =
  bind (store_insights now items st) (store_insights now items').
Proof.
  revert st. induction items as [|ins items IH]; intros st; [done|].
  cbn [app store_insights]. by destruct (toString ins) as [text|].
Qed.

Lemma store_insights_spec (now : Z) (items : list val) (st : State) :
  let st' := outcome_state (store_insights now items st) in
  ∃ new,
    appended_or_skipped st st' new ∧
    (store_insights now items st = Done st' ->
     _idCounter st' = (_idCounter st + N.of_nat (length new))%N) ∧
    Forall (λ r, Memory.type r = "reflection" ∧ Memory.importance r = 8 ∧
                 Memory.time r = now) new.
Proof.
  revert st. induction items as [|ins items IH]; intros st st'; subst st'.
  - exists []. split; [apply appended_skipped, appended_refl|].
    split; [|constructor]. intros _. cbn. lia.
  - cbn [store_insights]. destruct (toString ins) as [text|].
    + destruct (IH (remember "ref" now ("Insight: " +:+ text) 8 "reflection" st))
        as (new & Happ & Hdone & Hall).
      cbv zeta in *.
      exists ([Memory.new_MemoryRecord (snd (nextId "ref" (_idCounter st))) now
                 ("Insight: " +:+ text) 8 "reflection"] ++ new).
      split; [|split].
      * eapply skipped_trans; [apply appended_remember|exact Happ].
      * intros Hd. rewrite (Hdone Hd), remember_counter, length_app. cbn [length]. lia.
      * apply Forall_app. split; [|done]. by apply Forall_singleton.
    + exists []. split; [|split; [done|constructor]].
      split; [by rewrite app_nil_r|]. split; [by exists []|].
      right. cbn. lia.
Qed.

Lemma numbered_const (c : N) (prefix : string) {A B} (f : string -> A -> B)
    (g : B -> string) (l : list A) :
  (forall rid a, g (f rid a) = rid) ->
  g <$> imap (λ i a, f (snd (nextId prefix (c + N.of_nat i))) a) l =
  numbered c (const prefix <$> l).
Proof.
  intros Hg. unfold numbered. rewrite fmap_imap, imap_fmap.
  apply imap_ext. intros i a _. unfold compose. by rewrite Hg.
Qed.

Lemma maybeReflect_insights (obj : val) (now : Z) (st : State) (items : list val) :
  26 <= importanceSinceReflection (self st) ->
  get_prop_opt obj "insights" = Arr items -> items ≠ [] ->
  maybeReflect obj now st =
  bind (store_insights now items st) (λ st1, Done (reflected obj now st1)).
Proof.
  intros Hge Hins Hne. unfold maybeReflect.
  destruct (Z.ltb_spec (importanceSinceReflection (self st)) 26); [lia|].
  rewrite Hins. destruct items as [|ins items]; [done|]. done.
Qed.

Lemma reflected_frame (obj : val) (now : Z) (st st1 : State) :
  world st1 = world st ->
  self st1 = set_memory (memory (self st1)) (self st) ->
  stored (reflected obj now st1) = stored st1 ∧
  _idCounter (reflected obj now st1) = _idCounter st1 ∧
  summary (self (reflected obj now st1)) =
    (if truthy (get_prop_opt obj "summary_update")
     then get_prop_opt obj "summary_update" else summary (self st)) ∧
  world (reflected obj now st1) =
    World.logEvent now (name (self st) +:+ " reflects and gains insights.")
                   (place_id_at st) (world st) ∧
  importanceSinceReflection (self (reflected obj now st1)) = 0 ∧
  same_but_mind (self st) (self (reflected obj now st1)).
Proof.
  intros Hw Hself.
  assert (Hname : name (self st1) = name (self st)) by (rewrite Hself; reflexivity).
  assert (Hplace : place_id_at st1 = place_id_at st).
  { assert (Hx : x (self st1) = x (self st)) by (rewrite Hself; reflexivity).
    assert (Hy : y (self st1) = y (self st)) by (rewrite Hself; reflexivity).
    unfold place_id_at. by rewrite Hw, Hx, Hy. }
  assert (Hsum : summary (self st1) = summary (self st)) by (rewrite Hself; reflexivity).
  assert (Hmind : same_but_mind (self st) (self st1)).
  { assert (Hacc : importanceSinceReflection (self st1)
                   = importanceSinceReflection (self st))
      by (rewrite Hself; reflexivity).
    unfold same_but_mind. rewrite Hsum, Hacc. rewrite Hself at 1.
    by destruct (self st). }
  unfold reflected.
  destruct (truthy (get_prop_opt obj "summary_update")) eqn:Hup.
  - split; [done|]. split; [done|]. split; [done|]. split; [|split; [done|]].
    + change (World.logEvent now (name (self st1) +:+ " reflects and gains insights.")
                (place_id_at st1) (world st1) =
              World.logEvent now (name (self st) +:+ " reflects and gains insights.")
                (place_id_at st) (world st)).
      by rewrite Hname, Hplace, Hw.
    + unfold same_but_mind in *.
      cbn [self reset_accumulator set_world set_self]. rewrite Hmind at 1. done.
  - split; [done|]. split; [done|]. split; [done|]. split; [|split; [done|]].
    + change (World.logEvent now (name (self st1) +:+ " reflects and gains insights.")
                (place_id_at st1) (world st1) =
              World.logEvent now (name (self st) +:+ " reflects and gains insights.")
                (place_id_at st) (world st)).
      by rewrite Hname, Hplace, Hw.
    + unfold same_but_mind in *.
      cbn [self reset_accumulator set_world set_self]. rewrite Hmind at 1. done.
Qed.

(** X21.  A reflection that is due and comes with a list of insights
    stores one record for each insight, in order: of type reflection, of
    importance 8, stamped with [now], with the text of the insight after
    [Insight: ] and an id drawn from the counter with the prefix [ref].
    When every insight can be converted to text, [maybeReflect] returns:
    the summary is replaced when the reply has a truthy
    [summary_update] and kept otherwise, one event is logged at the
    place of the agent, and the accumulator is back at 0.  When an
    insight cannot be converted, [maybeReflect] raises there: the
    insights before it are stored, one more id is drawn than records
    are stored, and the summary, the world and the accumulator are as
    they were. *)
Theorem reflection_is_stored (obj : val) (now : Z) (st : State) (items : list val) :
  26 <= importanceSinceReflection (self st) ->
  get_prop_opt obj "insights" = Arr items -> items ≠ [] ->
  (forall texts, mapM toString items = Some texts ->
   ∃ st', maybeReflect obj now st = Done st' ∧
     stored st' =
       stored st ++
       imap (λ i text, insight_record (snd (nextId "ref" (_idCounter st + N.of_nat i)))
                                      now text) texts ∧
     _idCounter st' = (_idCounter st + N.of_nat (length items))%N ∧
     summary (self st') =
       (if truthy (get_prop_opt obj "summary_update")
        then get_prop_opt obj "summary_update" else summary (self st)) ∧
     world st' =
       World.logEvent now (name (self st) +:+ " reflects and gains insights.")
                      (place_id_at st) (world st) ∧
     importanceSinceReflection (self st') = 0 ∧
     same_but_mind (self st) (self st')) /\
  (forall items1 ins items2 texts,
   items = items1 ++ ins :: items2 ->
   mapM toString items1 = Some texts -> toString ins = None ->
   ∃ st', maybeReflect obj now st = Throw st' ∧
     stored st' =
       stored st ++
       imap (λ i text, insight_record (snd (nextId "ref" (_idCounter st + N.of_nat i)))
                                      now text) texts ∧
     _idCounter st' = (_idCounter st + N.of_nat (length items1) + 1)%N ∧
     world st' = world st ∧
     self st' = set_memory (memory (self st')) (self st)).
Proof.
  intros Hge Hins Hne. rewrite (maybeReflect_insights obj now st items) by done.
  split.
  - intros texts Htexts%mapM_Some_1.
    destruct (store_insights_stored now items texts st Htexts)
      as (st1 & -> & Hs & Hc & Hw & Hself).
    cbn [bind]. eexists. split; [done|].
    destruct (reflected_frame obj now st st1 Hw Hself)
      as (Hs' & Hc' & Hsum & Hw' & Hacc & Hmind).
    split; [by rewrite Hs'|]. split; [by rewrite Hc'|]. done.
  - intros items1 ins items2 texts -> Htexts%mapM_Some_1 Hins'.
    destruct (store_insights_stored now items1 texts st Htexts)
      as (st1 & Hrun & Hs & Hc & Hw & Hself).
    rewrite store_insights_app, Hrun. cbn [bind store_insights]. rewrite Hins'.
    cbn [bind]. eexists. split; [done|].
    split; [exact Hs|]. split; [|split].
    + cbn [_idCounter nextId fst]. rewrite Hc. done.
    + exact Hw.
    + exact Hself.
Qed.

(** *** The action of a decision *)

#[local] Ltac nothing_stored :=
  first [ done | apply same_but_mind_refl
        | (exists []; split; [apply appended_skipped, appended_refl|];
           split; [intros; cbn; lia|constructor])
        | (exists []; split; [|split; [intros; cbn; lia|constructor]];
           apply appended_skipped;
           eapply appended_same; [apply appended_refl|done|done])
        | (unfold same_but_mind; cbn; match goal with
                                      | |- context [self ?st] => by destruct (self st)
                                      end)
        | (intros; cbn; lia) ].

Lemma maybeReflect_frame (obj : val) (now : Z) (st : State) :
  let st' := outcome_state (maybeReflect obj now st) in
  (∃ new, appended_or_skipped st st' new ∧
          (maybeReflect obj now st = Done st' ->
           _idCounter st' = (_idCounter st + N.of_nat (length new))%N) ∧
          Forall (λ r, Memory.type r = "reflection" ∧ Memory.importance r = 8 ∧
                       Memory.time r = now) new) ∧
  World.chatByPlace (world st') = World.chatByPlace (world st) ∧
  World.places (world st') = World.places (world st) ∧
  World.width (world st') = World.width (world st) ∧
  World.height (world st') = World.height (world st) ∧
  World.log (world st) `prefix_of` World.log (world st') ∧
  same_but_mind (self st) (self st') ∧
  (0 <= importanceSinceReflection (self st) ->
   0 <= importanceSinceReflection (self st')) ∧
  (maybeReflect obj now st = Done st' -> importanceSinceReflection (self st') < 26).
Proof.
  intros st'. subst st'. unfold maybeReflect.
  destruct (Z.ltb_spec (importanceSinceReflection (self st)) 26) as [Hlt|Hge].
  { cbn [outcome_state]. split_and!; nothing_stored. }
  destruct (truthy (get_prop_opt (get_prop_opt obj "insights") "length")).
  2:{ cbn [outcome_state]. split_and!; nothing_stored. }
  destruct (iterate (get_prop_opt obj "insights")) as [items|].
  2:{ cbn [outcome_state]. split_and!; nothing_stored. }
  fold (reflected obj now).
  change (λ st1, Done (reset_accumulator
            (set_world
               (World.logEvent now
                  (name (self (if truthy (get_prop_opt obj "summary_update")
                               then set_self (set_summary (get_prop_opt obj "summary_update")
                                                          (self st1)) st1
                               else st1)) +:+ " reflects and gains insights.")
                  (place_id_at (if truthy (get_prop_opt obj "summary_update")
                                then set_self (set_summary (get_prop_opt obj "summary_update")
                                                           (self st1)) st1
                                else st1))
                  (world (if truthy (get_prop_opt obj "summary_update")
                          then set_self (set_summary (get_prop_opt obj "summary_update")
                                                     (self st1)) st1
                          else st1)))
               (if truthy (get_prop_opt obj "summary_update")
                then set_self (set_summary (get_prop_opt obj "summary_update")
                                           (self st1)) st1
                else st1))))
    with (λ st1, Done (reflected obj now st1)).
  destruct (store_insights_spec now items st) as (new & Happ & Hexact & Hall).
  destruct (AgentFacts.store_insights_frame now items st) as [Hw Hself].
  cbv zeta in *.
  destruct (store_insights now items st) as [st1|st1]; cbn [bind outcome_state] in *.
  - destruct (reflected_frame obj now st st1 Hw Hself)
      as (Hs' & Hc' & Hsum & Hw' & Hacc & Hmind).
    split; [|split; [|split; [|split; [|split; [|split; [|split; [|split]]]]]]].
    + exists new. split; [|split; [|done]].
      * eapply skipped_same; [exact Happ|done|done|done|done].
      * intros _. rewrite Hc'. by apply Hexact.
    + by rewrite Hw'.
    + by rewrite Hw'.
    + by rewrite Hw'.
    + by rewrite Hw'.
    + rewrite Hw'. by apply prefix_app_r.
    + exact Hmind.
    + intros _. rewrite Hacc. done.
    + intros _. rewrite Hacc. done.
  - assert (Hmind : same_but_mind (self st) (self st1)).
    { unfold same_but_mind. rewrite Hself. by destruct (self st). }
    split; [|split; [|split; [|split; [|split; [|split; [|split; [|split]]]]]]].
    + exists new. split; [done|]. split; [done|done].
    + by rewrite Hw.
    + by rewrite Hw.
    + by rewrite Hw.
    + by rewrite Hw.
    + by rewrite Hw.
    + exact Hmind.
    + rewrite Hself. done.
    + done.
Qed.

Lemma drift_frame (st : State) :
  stored (drift st) = stored st ∧ _idCounter (drift st) = _idCounter st ∧
  world (drift st) = world st ∧
  importanceSinceReflection (self (drift st)) = importanceSinceReflection (self st) ∧
  energy (self (drift st)) = Util.clamp (energy (self st) - 1) 0 100.
Proof. done. Qed.

(** The four ways in which the action part of [step] goes on to the
    energy drift and the reflection check. *)
Lemma execute_action_cases (obj reflection : val) (perception : World.Perception)
    (now : Z) (st : State) :
  (execute_action obj reflection perception now st = Throw st ∧
   (target_of obj = None ∨ utterance_of obj = None ∨
    (is_string (get_prop_opt obj "action") "move" = true ∧
     World.places (world st) = []))) ∨
  ∃ target utterance acted,
    target_of obj = Some target ∧ utterance_of obj = Some utterance ∧
    execute_action obj reflection perception now st =
      maybeReflect reflection now (drift acted) ∧
    acts obj perception now st target utterance acted.
Proof.
  unfold execute_action, target_of, utterance_of, acts.
  destruct (trim_val (or_else (get_prop_opt obj "target") _)) as [target|];
    [|left; auto].
  destruct (trim_val (or_else (get_prop_opt obj "utterance") _)) as [utterance|];
    [|left; auto].
  assert (Hok : existsb (λ o, bool_decide (World.o_name o = target))
                        (World.others perception) = true ↔
                target ∈ World.o_name <$> World.others perception).
  { rewrite existsb_exists, list_elem_of_fmap. split.
    - intros (o & Ho%list_elem_of_In & Heq%bool_decide_eq_true). eauto.
    - intros (o & -> & Ho%list_elem_of_In). exists o. by rewrite bool_decide_eq_true. }
  destruct (is_string (get_prop_opt obj "action") "interact").
  { destruct (existsb _ _) eqn:Hex.
    - destruct (decide (utterance = EmptyString)) as [->|Hne].
      + right. do 3 eexists. split_and!; [done|done|done|].
        right. left. split_and!; try done. tauto.
      + right. do 3 eexists. split_and!; [done|done| |].
        2:{ left. split_and!; [done|by apply Hok|done|done]. }
        by rewrite bool_decide_eq_false_2 by done.
    - right. do 3 eexists. split_and!; [done|done|done|].
      right. left. split_and!; try done. intros [Hin _].
      apply Hok in Hin. congruence. }
  destruct (is_string (get_prop_opt obj "action") "move").
  { fold (place_for (world st) target).
    destruct (place_for (world st) target) as [place|] eqn:Hplace.
    - right. do 3 eexists. split_and!; [done|done|done|].
      do 2 right. left. split_and!; try done. eauto.
    - left. split; [done|]. do 2 right. split; [done|].
      unfold place_for in Hplace. destruct (List.find _ _); [done|].
      by destruct (World.places (world st)). }
  right. do 3 eexists. split_and!; [done|done|done|].
  do 3 right. done.
Qed.

(** *** A step as a whole *)

Lemma same_but_mind_fields (a a' : AgentState.t) :
  same_but_mind a a' ->
  constants a' = constants a ∧ x a' = x a ∧ y a' = y a ∧ dest a' = dest a ∧
  energy a' = energy a ∧ currentAction a' = currentAction a ∧
  lastThought a' = lastThought a.
Proof. unfold same_but_mind. intros ->. done. Qed.

Lemma after_move_constants (a : AgentState.t) :
  constants (after_move a) = constants a.
Proof.
  unfold after_move, _moveTowardsDest. destruct (dest a) as [de|]; [|done].
  by destruct (Rlt_dec _ _).
Qed.

Lemma step_truthy (obj : val) (ratings : nat -> string) (reflection : val)
    (allAgents : list AgentState.t) (now : Z) (mode : string) (st : State) :
  truthy obj = true ->
  step obj ratings reflection allAgents now mode st =
  bind (remembering obj mode ratings now st)
       (execute_action obj reflection
          (World.perceive (world st) (after_move (self st)) allAgents) now).
Proof. intros Htruthy. unfold step. by rewrite Htruthy. Qed.

Lemma thinking_frame (obj : val) (st : State) :
  stored (thinking obj st) = stored st ∧
  _idCounter (thinking obj st) = _idCounter st ∧
  world (thinking obj st) = world st ∧
  importanceSinceReflection (self (thinking obj st)) =
    importanceSinceReflection (self st) ∧
  energy (self (thinking obj st)) = energy (self st) ∧
  constants (self (thinking obj st)) = constants (self st) ∧
  x (self (thinking obj st)) = x (after_move (self st)) ∧
  y (self (thinking obj st)) = y (after_move (self st)) ∧
  name (self (thinking obj st)) = name (self st).
Proof.
  destruct (AgentFacts.after_move_keeps (self st)) as (Hm & He & Hi & _).
  pose proof (after_move_constants (self st)) as Hc.
  unfold thinking, stored. cbn [self set_self memory set_lastThought
    _idCounter world importanceSinceReflection energy x y name].
  rewrite Hm, He, Hi. split_and!; try done.
  unfold constants in Hc. by injection Hc.
Qed.

Lemma remembering_spec (obj : val) (mode : string) (ratings : nat -> string)
    (now : Z) (st : State) :
  let st1 := outcome_state (remembering obj mode ratings now st) in
  ∃ new,
    appended st st1 new ∧
    importanceSinceReflection (self st1) =
      importanceSinceReflection (self st) + total_importance new ∧
    Forall (λ r, Memory.time r = now ∧ 1 <= Memory.importance r <= 10) new ∧
    world st1 = world st ∧
    same_but_memory (self (thinking obj st)) (self st1).
Proof.
  intros st1. subst st1.
  destruct (thinking_frame obj st) as (Hs & Hc & Hw & Hi & _).
  assert (Hnone : ∃ new : list Memory.MemoryRecord,
             appended st (thinking obj st) new ∧
             importanceSinceReflection (self (thinking obj st)) =
               importanceSinceReflection (self st) + total_importance new ∧
             Forall (λ r, Memory.time r = now ∧ 1 <= Memory.importance r <= 10) new ∧
             world (thinking obj st) = world st ∧
             same_but_memory (self (thinking obj st)) (self (thinking obj st))).
  { exists []. split; [|split; [|split; [|split]]].
    - eapply appended_same; [apply appended_refl|done|done].
    - rewrite Hi. simpl. lia.
    - constructor.
    - done.
    - apply same_but_memory_refl. }
  unfold remembering.
  destruct (get_prop_opt obj "memories") as [| |b|z|t|s|ms|kvs]; try exact Hnone.
  destruct (store_memories_spec mode ratings now ms 0 (thinking obj st))
    as (new & (Hs' & Hps & Hc') & Hacc & _ & _ & Hall & Hw' & Hself).
  exists new. split; [|split; [|split; [|split]]].
  - split; [|split].
    + by rewrite Hs', Hs.
    + by rewrite <- Hc.
    + by rewrite Hc', Hc.
  - by rewrite Hacc, Hi.
  - done.
  - by rewrite Hw'.
  - done.
Qed.

Lemma acts_frame (obj : val) (perception : World.Perception) (now : Z)
    (st : State) (target utterance : string) (acted : State) :
  acts obj perception now st target utterance acted ->
  stored acted = stored st ∧ _idCounter acted = _idCounter st ∧
  importanceSinceReflection (self acted) = importanceSinceReflection (self st) ∧
  energy (self acted) = energy (self st) ∧
  constants (self acted) = constants (self st) ∧
  x (self acted) = x (self st) ∧ y (self acted) = y (self st) ∧
  World.places (world acted) = World.places (world st) ∧
  World.width (world acted) = World.width (world st) ∧
  World.height (world acted) = World.height (world st) ∧
  World.log (world st) `prefix_of` World.log (world acted).
Proof.
  intros Hacted.
  pose proof (WorldOpsFacts.apply_keeps
                (WorldOps.PostChat (World.placeId perception) (name (self st))
                                   utterance now) (world st)) as (Hp & Hw & Hh & Hl & _).
  cbn [WorldOps.apply] in *.
  destruct Hacted as [(_ & _ & _ & ->)|[(_ & _ & ->)|[(_ & _ & place & _ & ->)
                     |(_ & _ & ->)]]]; split_and!; try done.
  cbn. by apply prefix_app_r.
Qed.

Lemma acted_frame (obj reflection : val) (perception : World.Perception)
    (now : Z) (st : State) :
  execute_action obj reflection perception now st = Throw st ∨
  ∃ acted,
    execute_action obj reflection perception now st =
      maybeReflect reflection now (drift acted) ∧
    stored acted = stored st ∧ _idCounter acted = _idCounter st ∧
    importanceSinceReflection (self acted) = importanceSinceReflection (self st) ∧
    energy (self acted) = energy (self st) ∧
    constants (self acted) = constants (self st) ∧
    x (self acted) = x (self st) ∧ y (self acted) = y (self st) ∧
    World.places (world acted) = World.places (world st) ∧
    World.width (world acted) = World.width (world st) ∧
    World.height (world acted) = World.height (world st) ∧
    World.log (world st) `prefix_of` World.log (world acted).
Proof.
  destruct (execute_action_cases obj reflection perception now st)
    as [[Hthrow _]|(target & utterance & acted & _ & _ & Hrun & Hacted)];
    [by left|].
  right. exists acted. split; [done|]. by eapply acts_frame.
Qed.

Lemma execute_action_frame (obj reflection : val) (perception : World.Perception)
    (now : Z) (st : State) :
  let st' := outcome_state (execute_action obj reflection perception now st) in
  (∃ new, appended_or_skipped st st' new ∧
          (execute_action obj reflection perception now st = Done st' ->
           _idCounter st' = (_idCounter st + N.of_nat (length new))%N) ∧
          Forall (λ r, Memory.type r = "reflection" ∧ Memory.importance r = 8 ∧
                       Memory.time r = now) new) ∧
  constants (self st') = constants (self st) ∧
  x (self st') = x (self st) ∧ y (self st') = y (self st) ∧
  World.places (world st') = World.places (world st) ∧
  World.width (world st') = World.width (world st) ∧
  World.height (world st') = World.height (world st) ∧
  World.log (world st) `prefix_of` World.log (world st') ∧
  (0 <= importanceSinceReflection (self st) ->
   0 <= importanceSinceReflection (self st')) ∧
  (0 <= energy (self st) <= 100 -> 0 <= energy (self st') <= 100) ∧
  (execute_action obj reflection perception now st = Done st' ->
   importanceSinceReflection (self st') < 26 ∧
   energy (self st') = Util.clamp (energy (self st) - 1) 0 100).
Proof.
  intros st'. subst st'.
  destruct (acted_frame obj reflection perception now st)
    as [->|(acted & -> & Hs & Hc & Hi & He & Hk & Hx & Hy & Hp & Hw & Hh & Hl)].
  { cbn [outcome_state]. split_and!; try done.
    exists []. split; [apply appended_skipped, appended_refl|].
    split; [done|constructor]. }
  destruct (maybeReflect_frame reflection now (drift acted))
    as ((new & Happ & Hexact & Hall) & _ & Hp' & Hw' & Hh' & Hl' & Hmind
        & Hpos & Hdone).
  cbv zeta in *.
  set (st' := outcome_state (maybeReflect reflection now (drift acted))) in *.
  destruct (same_but_mind_fields _ _ Hmind) as (Hk' & Hx' & Hy' & _ & He' & _).
  split_and!.
  - exists new. split; [|split; [|done]].
    + eapply skipped_same; [exact Happ|exact Hs|exact Hc|done|done].
    + intros Hd. rewrite (Hexact Hd).
      change (_idCounter (drift acted)) with (_idCounter acted). by rewrite Hc.
  - rewrite Hk'. exact Hk.
  - rewrite Hx'. exact Hx.
  - rewrite Hy'. exact Hy.
  - rewrite Hp'. exact Hp.
  - rewrite Hw'. exact Hw.
  - rewrite Hh'. exact Hh.
  - etrans; [exact Hl|exact Hl'].
  - intros Hnn. apply Hpos.
    change (importanceSinceReflection (self (drift acted)))
      with (importanceSinceReflection (self acted)). by rewrite Hi.
  - intros _. rewrite He'. cbn [drift self set_self energy set_energy].
    unfold Util.clamp. lia.
  - intros Hd. split; [by apply Hdone|].
    rewrite He'. cbn [drift self set_self energy set_energy]. by rewrite He.
Qed.

Lemma total_importance_nonneg (new : list Memory.MemoryRecord) (now : Z) :
  Forall (λ r, Memory.time r = now ∧ 1 <= Memory.importance r <= 10) new ->
  0 <= total_importance new.
Proof.
  unfold total_importance. induction 1 as [|r new [_ Hr] _ IH]; [done|].
  cbn [foldr]. lia.
Qed.

#[local] Ltac split_frame :=
  split; [|split; [|split; [|split; [|split; [|split; [|split; [|split;
    [|split; [|split]]]]]]]]].

Lemma step_frame (obj : val) (ratings : nat -> string) (reflection : val)
    (allAgents : list AgentState.t) (now : Z) (mode : string) (st : State) :
  let st' := outcome_state (step obj ratings reflection allAgents now mode st) in
  (∃ new, appended_or_skipped st st' new ∧
          (step obj ratings reflection allAgents now mode st = Done st' ->
           _idCounter st' = (_idCounter st + N.of_nat (length new))%N) ∧
          Forall (λ r, Memory.time r = now ∧ 1 <= Memory.importance r <= 10) new) ∧
  constants (self st') = constants (self st) ∧
  x (self st') = x (after_move (self st)) ∧
  y (self st') = y (after_move (self st)) ∧
  World.places (world st') = World.places (world st) ∧
  World.width (world st') = World.width (world st) ∧
  World.height (world st') = World.height (world st) ∧
  World.log (world st) `prefix_of` World.log (world st') ∧
  (0 <= importanceSinceReflection (self st) ->
   0 <= importanceSinceReflection (self st')) ∧
  (0 <= energy (self st) <= 100 -> 0 <= energy (self st') <= 100) ∧
  (step obj ratings reflection allAgents now mode st = Done st' ->
   truthy obj = true ->
   importanceSinceReflection (self st') < 26 ∧
   energy (self st') = Util.clamp (energy (self st) - 1) 0 100).
Proof.
  intros st'. subst st'.
  destruct (thinking_frame obj st) as (Hs0 & Hc0 & Hw0 & Hi0 & He0 & Hk0 & Hx0 & Hy0 & _).
  destruct (truthy obj) eqn:Htruthy.
  2:{ rewrite AgentFacts.step_falsy by done. cbn [outcome_state].
      destruct (AgentFacts.after_move_keeps (self st)) as (Hm & He & Hi & _).
      pose proof (after_move_constants (self st)) as Hk.
      split_frame.
      - exists []. split; [|split; [intros _; cbn; lia|constructor]].
        apply appended_skipped.
        eapply appended_same; [apply appended_refl| |done].
        unfold stored. cbn [self set_self memory set_currentAction set_lastThought].
        by rewrite Hm.
      - exact Hk.
      - done.
      - done.
      - done.
      - done.
      - done.
      - done.
      - cbn [self set_self importanceSinceReflection set_currentAction
               set_lastThought]. by rewrite Hi.
      - cbn [self set_self energy set_currentAction set_lastThought].
        by rewrite He.
      - done. }
  rewrite step_truthy by done.
  destruct (remembering_spec obj mode ratings now st)
    as (new & Happ & Hacc & Hall & Hw & Hself).
  cbv zeta in *.
  pose proof (total_importance_nonneg new now Hall) as Hnn.
  destruct (same_but_mind_fields _ _ (same_but_memory_mind _ _ Hself))
    as (Hk & Hx & Hy & _ & He & _).
  destruct (remembering obj mode ratings now st) as [st1|st1];
    cbn [outcome_state bind] in *.
  2:{ split_frame.
      - exists new. split; [by apply appended_skipped|]. split; [done|done].
      - by rewrite Hk, Hk0.
      - by rewrite Hx, Hx0.
      - by rewrite Hy, Hy0.
      - by rewrite Hw.
      - by rewrite Hw.
      - by rewrite Hw.
      - by rewrite Hw.
      - lia.
      - by rewrite He, He0.
      - done. }
  destruct (execute_action_frame obj reflection
              (World.perceive (world st) (after_move (self st)) allAgents) now st1)
    as ((new' & Happ' & Hexact' & Hall') & Hk' & Hx' & Hy' & Hp' & Hw' & Hh' & Hl' & Hpos'
        & Hen' & Hdone').
  cbv zeta in *.
  set (st' := outcome_state (execute_action obj reflection _ now st1)) in *.
  split_frame.
  - exists (new ++ new'). split; [by eapply skipped_trans|]. split.
    + intros Hd. rewrite (Hexact' Hd), length_app.
      destruct Happ as (_ & _ & ->). lia.
    + apply Forall_app. split; [done|].
      eapply Forall_impl; [exact Hall'|]. intros r (_ & -> & ->). split; [done|lia].
  - by rewrite Hk', Hk, Hk0.
  - by rewrite Hx', Hx, Hx0.
  - by rewrite Hy', Hy, Hy0.
  - by rewrite Hp', Hw.
  - by rewrite Hw', Hw.
  - by rewrite Hh', Hw.
  - by rewrite <- Hw.
  - intros Hge. apply Hpos'. lia.
  - intros Hen. apply Hen'. by rewrite He, He0.
  - intros Hd _. destruct (Hdone' Hd) as [Hlt Hdrift].
    split; [done|]. by rewrite Hdrift, He, He0.
Qed.

(** X22.  Whatever the gateway returns, and whether [step] returns or
    raises, the memory stream only grows: the records that were there
    stay, in order, and the new ones follow them, stamped with [now],
    with an importance within [1 .. 10] and with ids drawn from the
    counter one after the other.  When [step] returns, the counter has
    advanced by the number of new records; when it raises, by that
    number or by one more: an insight that cannot be converted to text
    costs an id and stores nothing.  The fields that the constructor set
    (id, name, speed and so on) are as they were, the position is where
    the move of this tick left it, and in the world the places and the
    size are as they were and the event log has only been appended
    to. *)
Theorem step_only_appends (obj : val) (ratings : nat -> string) (reflection : val)
    (allAgents : list AgentState.t) (now : Z) (mode : string) (st : State) :
  let st' := outcome_state (step obj ratings reflection allAgents now mode st) in
  (∃ new, stored st' = stored st ++ new ∧
          (∃ prefixes, Memory.id <$> new = numbered (_idCounter st) prefixes) ∧
          (_idCounter st' = (_idCounter st + N.of_nat (length new))%N ∨
           _idCounter st' = (_idCounter st + N.of_nat (length new) + 1)%N) ∧
          (step obj ratings reflection allAgents now mode st = Done st' ->
           _idCounter st' = (_idCounter st + N.of_nat (length new))%N) ∧
          Forall (λ r, Memory.time r = now ∧ 1 <= Memory.importance r <= 10) new) /\
  constants (self st') = constants (self st) /\
  x (self st') = x (after_move (self st)) /\
  y (self st') = y (after_move (self st)) /\
  World.places (world st') = World.places (world st) /\
  World.width (world st') = World.width (world st) /\
  World.height (world st') = World.height (world st) /\
  World.log (world st) `prefix_of` World.log (world st').
Proof.
  intros st'.
  destruct (step_frame obj ratings reflection allAgents now mode st)
    as ((new & (Hs & Hps & Hc) & Hexact & Hall) & Hk & Hx & Hy & Hp & Hw & Hh & Hl & _).
  split; [by exists new|]. done.
Qed.

(** Isabella is due for a reflection, and the second insight of the
    reply cannot be converted: [step] raises with the proposed memory
    and the first insight stored, and with three ids drawn. *)
Example raising_step_skips_an_id :
  ∃ st', step Samples.decision_rated_zero (λ _, EmptyString)
              Samples.unprintable_insight [Samples.isabella] Samples.first_tick
              "fast" Samples.due_for_reflection = Throw st' ∧
         Memory.id <$> stored st' = ["mem_1"; "ref_2"] ∧
         _idCounter st' = 3%N.
Proof. eexists. split; [vm_compute; reflexivity|]. by vm_compute. Qed.

(** A step that acts on a decision and returns has settled the accounts:
    the energy has dropped by one, not below 0, and the accumulator of
    importance is below the threshold of 26, because the reflection
    check has run. *)
Lemma completed_step_settles (obj : val) (ratings : nat -> string)
    (reflection : val) (allAgents : list AgentState.t) (now : Z) (mode : string)
    (st st' : State) :
  step obj ratings reflection allAgents now mode st = Done st' ->
  truthy obj = true ->
  importanceSinceReflection (self st') < 26 /\
  energy (self st') = Util.clamp (energy (self st) - 1) 0 100.
Proof.
  intros Hd Htruthy.
  destruct (step_frame obj ratings reflection allAgents now mode st)
    as (_ & _ & _ & _ & _ & _ & _ & _ & _ & _ & Hdone).
  cbv zeta in Hdone. rewrite Hd in Hdone. by apply Hdone.
Qed.

Lemma completed_step_settles_witness :
  importanceSinceReflection (self Samples.after_first_step) < 26 /\
  energy (self Samples.after_first_step) = Util.clamp (100 - 1) 0 100.
Proof.
  refine (completed_step_settles Samples.decision_rated_zero (λ _, EmptyString)
            Null [Samples.isabella] Samples.first_tick "fast"
            (seedInitialMemories Samples.day_start Samples.start)
            Samples.after_first_step _ _).
  - vm_compute. reflexivity.
  - reflexivity.
Defined.

Lemma reachable_bounds (st : State) :
  reachable st ->
  0 <= energy (self st) <= 100 ∧ 0 <= importanceSinceReflection (self st) ∧
  speed (self st) = 1.3%R ∧ tickMinutes (self st) = 10.
Proof.
  induction 1 as [| st now _ IH | st obj ratings reflection allAgents now mode _ IH
                 | st obj now _ IH | st counter w _ IH].
  - cbn. split_and!; try done; lia.
  - destruct (seeds_are_stored_aux now st) as (_ & _ & _ & Hself).
    cbv zeta in Hself. rewrite Hself. exact IH.
  - destruct IH as (He & Hi & Hsp & Htk).
    destruct (step_frame obj ratings reflection allAgents now mode st)
      as (_ & Hk & _ & _ & _ & _ & _ & _ & Hpos & Hen & _).
    cbv zeta in *. unfold constants in Hk. injection Hk as _ _ _ _ _ _ _ _ _ _ Hs Ht.
    split_and!; [by apply Hen|by apply Hen|by apply Hpos|congruence|congruence].
  - destruct IH as (He & Hi & Hsp & Htk).
    destruct (maybeReflect_frame obj now st)
      as (_ & _ & _ & _ & _ & _ & Hmind & Hpos & _).
    cbv zeta in *.
    destruct (same_but_mind_fields _ _ Hmind) as (Hk & _ & _ & _ & Hen & _).
    unfold constants in Hk. injection Hk as _ _ _ _ _ _ _ _ _ _ Hs Ht.
    split_and!; [lia|lia|by apply Hpos|congruence|congruence].
  - exact IH.
Qed.

(** X23.  In every state that an agent goes through, the energy is within
    [0 .. 100], the accumulator of importance is not negative, and the
    speed and the minutes of a tick are those of the constructor, 1.3
    and 10: no method writes them. *)
Theorem energy_stays_within_bounds (st : State) :
  reachable st ->
  0 <= energy (self st) <= 100 /\ 0 <= importanceSinceReflection (self st) /\
  speed (self st) = 1.3%R /\ tickMinutes (self st) = 10.
Proof. apply reachable_bounds. Qed.

Lemma energy_stays_within_bounds_witness :
  0 <= energy (self Samples.after_first_step) <= 100 /\
  0 <= importanceSinceReflection (self Samples.after_first_step) /\
  speed (self Samples.after_first_step) = 1.3%R /\
  tickMinutes (self Samples.after_first_step) = 10.
Proof.
  apply (energy_stays_within_bounds Samples.after_first_step).
  apply reachable_step, reachable_seed. apply reachable_new.
Defined.

(** *** Moving and talking *)

Lemma constants_name (a a' : AgentState.t) :
  constants a' = constants a -> name a' = name a ∧ id a' = id a.
Proof. unfold constants. intros Hk. by inversion Hk. Qed.

Lemma action_truthy (obj : val) (s : string) :
  is_string (get_prop_opt obj "action") s = true -> truthy obj = true.
Proof. by destruct obj as [| |[]|z|t|s'|l|kvs]. Qed.

Lemma move_not_interact (v : val) :
  is_string v "move" = true -> is_string v "interact" = false.
Proof.
  destruct v; try done. cbn. intros ->%bool_decide_eq_true. done.
Qed.

Lemma place_for_spec (w : World.t) (target : string) (place : World.Place) :
  place_for w target = Some place ->
  place ∈ World.places w ∧
  ((∃ p, p ∈ World.places w ∧ World.name p = target) -> World.name place = target) ∧
  ((forall p, p ∈ World.places w -> World.name p ≠ target) ->
   head (World.places w) = Some place).
Proof.
  unfold place_for.
  destruct (List.find _ _) as [p|] eqn:Hfind.
  - intros [= ->]. apply find_some in Hfind as [Hin%list_elem_of_In Hname].
    apply bool_decide_eq_true in Hname. split_and!; [done|done|].
    intros Hnone. by apply Hnone in Hin.
  - intros Hhead. split_and!.
    + destruct (World.places w); [done|]. injection Hhead as ->.
      apply list_elem_of_here.
    + intros (p & Hin%list_elem_of_In & Hname).
      apply (find_none _ _ Hfind) in Hin. by apply bool_decide_eq_false in Hin.
    + done.
Qed.

(** The state in which a step that returns has executed its action. *)
Lemma step_done_inv (obj : val) (ratings : nat -> string) (reflection : val)
    (allAgents : list AgentState.t) (now : Z) (mode : string) (st st' : State) :
  step obj ratings reflection allAgents now mode st = Done st' ->
  truthy obj = true ->
  ∃ st1, world st1 = world st ∧ name (self st1) = name (self st) ∧
         execute_action obj reflection
           (World.perceive (world st) (after_move (self st)) allAgents) now st1
         = Done st'.
Proof.
  intros Hd Htruthy. rewrite step_truthy in Hd by done.
  destruct (remembering_spec obj mode ratings now st) as (new & _ & _ & _ & Hw & Hself).
  cbv zeta in *.
  destruct (remembering obj mode ratings now st) as [st1|st1]; [|done].
  cbn [bind outcome_state] in *. exists st1. split_and!; [done| |done].
  destruct (same_but_mind_fields _ _ (same_but_memory_mind _ _ Hself)) as (Hk & _).
  destruct (thinking_frame obj st) as (_ & _ & _ & _ & _ & _ & _ & _ & Hname).
  apply constants_name in Hk as [Hn _]. congruence.
Qed.

(** X24.  A step that decides to move and returns has set the destination to a
    registered place: the first place whose name is the trimmed target
    or, when no place has that name, the first place of the registry.
    The destination carries the coordinates, the id and the name of
    that place, the action reads [going to] the place, and the event
    log has the departure right after what was there. *)
Theorem move_decision_sets_destination (obj : val) (ratings : nat -> string)
    (reflection : val) (allAgents : list AgentState.t) (now : Z) (mode : string)
    (st st' : State) :
  step obj ratings reflection allAgents now mode st = Done st' ->
  is_string (get_prop_opt obj "action") "move" = true ->
  ∃ target place,
    target_of obj = Some target ∧
    place ∈ World.places (world st) ∧
    ((∃ p, p ∈ World.places (world st) ∧ World.name p = target) ->
     World.name place = target) ∧
    ((forall p, p ∈ World.places (world st) -> World.name p ≠ target) ->
     head (World.places (world st)) = Some place) ∧
    dest (self st') = Some (dest_of place) ∧
    currentAction (self st') = "going to " +:+ World.name place ∧
    World.log
      (World.logEvent now (name (self st) +:+ " heads to " +:+ World.name place +:+ ".")
                      (Some (World.id place)) (world st))
      `prefix_of` World.log (world st').
Proof.
  intros Hd Hmove.
  destruct (step_done_inv _ _ _ _ _ _ _ _ Hd (action_truthy _ _ Hmove))
    as (st1 & Hw & Hname & Hrun).
  destruct (execute_action_cases obj reflection
              (World.perceive (world st) (after_move (self st)) allAgents) now st1)
    as [[Hthrow _]|(target & utterance & acted & Ht & _ & Hexec & Hacted)];
    [congruence|].
  pose proof (move_not_interact _ Hmove) as Hni.
  unfold acts in Hacted.
  destruct Hacted as [(? & _)|[(? & _)|[(_ & _ & place & Hplace & ->)|(_ & ? & _)]]];
    [congruence|congruence| |congruence].
  rewrite Hexec in Hrun.
  destruct (maybeReflect_frame reflection now (drift
              (set_self (set_currentAction ("going to " +:+ World.name place)
                           (set_dest (Some (dest_of place)) (self st1)))
                 (set_world
                    (World.logEvent now
                       (name (self st1) +:+ " heads to " +:+ World.name place +:+ ".")
                       (Some (World.id place)) (world st1)) st1))))
    as (_ & _ & _ & _ & _ & Hl & Hmind & _).
  cbv zeta in *. rewrite Hrun in Hl, Hmind. cbn [outcome_state] in *.
  destruct (same_but_mind_fields _ _ Hmind) as (_ & _ & _ & Hdest & _ & Hact & _).
  rewrite Hw in Hplace. destruct (place_for_spec _ _ _ Hplace) as (Hin & Hnamed & Hfirst).
  exists target, place. split_and!; try done.
  cbn [world drift set_self set_world] in Hl. by rewrite Hname, Hw in Hl.
Qed.

(** X25.  A step changes the chat logs only by posting one message, and it
    posts only when the decision is to interact, the utterance is not
    empty after trimming, and the trimmed target is the name of another
    agent (one with a different id) who stands in the same place as this
    agent after its move.  The message is then posted to that place, under
    the name of this agent and with the time of the tick. *)
Theorem speaks_only_to_neighbours (obj : val) (ratings : nat -> string)
    (reflection : val) (allAgents : list AgentState.t) (now : Z) (mode : string)
    (st : State) :
  let st' := outcome_state (step obj ratings reflection allAgents now mode st) in
  let me := after_move (self st) in
  World.chatByPlace (world st') = World.chatByPlace (world st) \/
  (is_string (get_prop_opt obj "action") "interact" = true /\
   ∃ target utterance a,
     target_of obj = Some target ∧ utterance_of obj = Some utterance ∧
     utterance ≠ EmptyString ∧
     a ∈ allAgents ∧ name a = target ∧ id a ≠ id (self st) ∧
     World.same_place_id (world st) me a ∧
     World.chatByPlace (world st') =
       World.chatByPlace
         (World.postChat
            (World.id <$> World.placeAt (world st) (x me) (y me))
            (name (self st)) utterance now (world st))).
Proof.
  intros st' me. subst st' me.
  destruct (truthy obj) eqn:Htruthy;
    [|left; by rewrite AgentFacts.step_falsy by done].
  rewrite step_truthy by done.
  destruct (remembering_spec obj mode ratings now st) as (new & _ & _ & _ & Hw & Hself).
  cbv zeta in *.
  assert (Hname : name (self (outcome_state (remembering obj mode ratings now st)))
                  = name (self st)).
  { destruct (same_but_mind_fields _ _ (same_but_memory_mind _ _ Hself)) as (Hk & _).
    destruct (thinking_frame obj st) as (_ & _ & _ & _ & _ & _ & _ & _ & Hname).
    apply constants_name in Hk as [Hn _]. congruence. }
  destruct (remembering obj mode ratings now st) as [st1|st1];
    cbn [bind outcome_state] in *; [|left; by rewrite Hw].
  destruct (execute_action_cases obj reflection
              (World.perceive (world st) (after_move (self st)) allAgents) now st1)
    as [[-> _]|(target & utterance & acted & Ht & Hu & -> & Hacted)];
    [left; cbn [outcome_state]; by rewrite Hw|].
  destruct (maybeReflect_frame reflection now (drift acted)) as (_ & Hchat & _).
  cbv zeta in Hchat. rewrite Hchat. clear Hchat.
  change (world (drift acted)) with (world acted).
  unfold acts in Hacted.
  destruct Hacted as [(Hi & Hin & Hne & ->)|[(_ & _ & ->)|[(_ & _ & place & _ & ->)
                     |(_ & _ & ->)]]];
    [right|left; cbn; by rewrite Hw..].
  split; [done|].
  apply list_elem_of_fmap in Hin as (o & -> & Ho).
  unfold World.perceive in Ho. cbn [World.others] in Ho.
  apply list_elem_of_fmap in Ho as (a & -> & Ha).
  apply WorldFacts.others_spec in Ha as (Ha & Hid & Hsame).
  exists (World.o_name (World.other_of a)), utterance, a.
  split_and!; try done.
  - intros Heq. apply Hid. rewrite Heq.
    by destruct (constants_name _ _ (after_move_constants (self st))) as [_ ->].
  - cbn [world set_self set_world]. by rewrite Hw, Hname.
Qed.

Lemma move_decision_sets_destination_witness :
  let st' := outcome_state
               (step Samples3.decision_to_move (λ _, EmptyString) Null
                     [Samples.isabella] Samples.first_tick "fast" Samples.start) in
  ∃ target place,
    target_of Samples3.decision_to_move = Some target ∧
    place ∈ World.places (world Samples.start) ∧
    dest (self st') = Some (dest_of place) ∧
    currentAction (self st') = "going to " +:+ World.name place.
Proof.
  destruct (move_decision_sets_destination Samples3.decision_to_move
              (λ _, EmptyString) Null [Samples.isabella] Samples.first_tick "fast"
              Samples.start
              (outcome_state
                 (step Samples3.decision_to_move (λ _, EmptyString) Null
                       [Samples.isabella] Samples.first_tick "fast" Samples.start)))
    as (target & place & Ht & Hin & _ & _ & Hdest & Hact & _).
  - vm_compute. reflexivity.
  - reflexivity.
  - exists target, place. done.
Defined.

Lemma reflection_is_stored_witness :
  ∃ st', maybeReflect Samples3.two_insights Samples.first_tick
                      Samples.due_for_reflection = Done st' ∧
         length (stored st') = 2%nat ∧
         importanceSinceReflection (self st') = 0.
Proof.
  destruct (reflection_is_stored Samples3.two_insights Samples.first_tick
              Samples.due_for_reflection
              [Str "Isabella cares about her guests"; Str "Isabella plans ahead"])
    as [Hreturns _].
  - simpl. lia.
  - reflexivity.
  - discriminate.
  - destruct (Hreturns ["Isabella cares about her guests"; "Isabella plans ahead"]
                eq_refl) as (st' & Hd & Hs & _ & _ & _ & Hacc & _).
    exists st'. split; [done|]. split; [by rewrite Hs|done].
Defined.

(** *** Replies that conform to the schemas *)

Lemma has_type_string_spec (v : val) :
  Schema.has_type_string v = true -> ∃ s, v = Str s.
Proof. destruct v; try done. eauto. Qed.

Lemma memory_item_fields (m : val) :
  Schema.memory_item m = true ->
  ∃ text importance type,
    get_prop m "text" = Some (Str text) ∧
    get_prop_opt m "importance" = Num importance ∧ 1 <= importance <= 10 ∧
    get_prop_opt m "type" = Str type ∧ type ∈ ["observation"; "action"] ∧
    item_fields m = Some (str_slice text 0 (Some 280), importance, type).
Proof.
  destruct m as [| |b|z|t|s|l|kvs]; try done. cbn [Schema.memory_item].
  intros (((_ & Htext)%andb_true_iff & Htype)%andb_true_iff & Himp)%andb_true_iff.
  apply has_type_string_spec in Htext as [text Htext].
  destruct (own_prop kvs "importance") as [| |?|importance|?|?|?|?] eqn:Himpv; try done.
  apply andb_true_iff in Himp as [Hlo%Z.leb_le Hhi%Z.leb_le].
  destruct (own_prop kvs "type") as [| |?|?|?|type|?|?] eqn:Htypev; try done.
  exists text, importance, type.
  assert (Hin : type ∈ ["observation"; "action"]).
  { cbn in Htype. repeat case_bool_decide; try done; subst;
      first [apply list_elem_of_here
            |apply list_elem_of_further, list_elem_of_here]. }
  split; [|split; [|split; [|split; [|split]]]].
  - cbn. by rewrite Htext.
  - cbn. by rewrite Himpv.
  - done.
  - cbn. by rewrite Htypev.
  - done.
  - unfold item_fields, get_prop_opt. cbn [get_prop default].
    rewrite Htext, Himpv, Htypev. unfold Datatypes.id.
    replace (toString (or_else (Str text) (Str ""))) with (Some text).
    2:{ unfold or_else. cbn [truthy]. by case_bool_decide; [subst|]. }
    rewrite AgentFacts.proposed_importance_Num. do 2 f_equal.
    + f_equal. destruct (Z.eqb_spec importance 0); unfold Util.clamp; lia.
    + unfold proposed_type. cbn.
      apply elem_of_cons in Hin as [->|Hin]; [done|].
      by apply list_elem_of_singleton in Hin as ->.
Qed.

Lemma memory_item_spec (m : val) :
  Schema.memory_item m = true ->
  ∃ text importance type,
    get_prop m "text" = Some (Str text) ∧
    get_prop_opt m "importance" = Num importance ∧ 1 <= importance <= 10 ∧
    get_prop_opt m "type" = Str type ∧ type ∈ ["observation"; "action"] ∧
    forall rid now,
      proposed_record rid now m =
      Memory.new_MemoryRecord rid now (str_slice text 0 (Some 280)) importance type.
Proof.
  intros (text & importance & type & Ht & Hi & Hr & Hty & Hin & Hfields)%memory_item_fields.
  exists text, importance, type.
  split; [done|]. split; [done|]. split; [done|]. split; [done|]. split; [done|].
  intros rid now. unfold proposed_record. by rewrite Hfields.
Qed.

Lemma trim_val_string (v : val) :
  Schema.has_type_string v = true -> is_Some (trim_val (or_else v (Str ""))).
Proof.
  intros [s ->]%has_type_string_spec. unfold or_else.
  by destruct (truthy (Str s)).
Qed.

Lemma maybeReflect_returns (obj : val) (now : Z) (st : State) :
  ¬ raising_insights (get_prop_opt obj "insights") ->
  ∃ st', maybeReflect obj now st = Done st'.
Proof.
  intros Hraising.
  destruct (Z.lt_ge_cases (importanceSinceReflection (self st)) 26) as [Hlt|Hge].
  - exists st. by apply AgentFacts.maybeReflect_below.
  - destruct (AgentFacts.maybeReflect_resets obj now st Hge Hraising) as (st' & Hd & _).
    eauto.
Qed.

Lemma reflection_schema_insights (reflection : val) :
  reflection = Null ∨ Schema.REFLECTION_SCHEMA reflection = true ->
  ¬ raising_insights (get_prop_opt reflection "insights").
Proof.
  intros [->|Hschema]; [by intros [? _]|].
  destruct reflection as [| |b|z|t|s|l|kvs]; try done.
  cbn [Schema.REFLECTION_SCHEMA] in Hschema.
  apply andb_true_iff in Hschema as [[_ Hins]%andb_true_iff _].
  unfold get_prop_opt. cbn [get_prop default]. unfold Datatypes.id.
  destruct (own_prop kvs "insights") as [| |?|?|?|?|items|?]; try done.
  apply andb_true_iff in Hins as [_ Hstrings].
  intros [_ Hraises]. cbn [iterate] in Hraises.
  apply Exists_exists in Hraises as (ins & Hin%list_elem_of_In & Hnone).
  apply (proj1 (forallb_forall _ _) Hstrings) in Hin.
  apply has_type_string_spec in Hin as [text ->]. done.
Qed.

(** X26.  In fast mode, on a decision that conforms to [ACTION_SCHEMA], with
    a reflection reply that is missing or conforms to
    [REFLECTION_SCHEMA], in a world with a place, [step] returns
    normally.  It stores the proposed memories first, at most three, each
    with the importance and the type that the item proposes and its text
    cut to 280 characters, and after them only the records of a
    reflection.  The energy has dropped by one and the accumulator is
    below 26. *)
Theorem conforming_decision_is_carried_out (obj reflection : val)
    (ratings : nat -> string) (allAgents : list AgentState.t) (now : Z)
    (mode : string) (st : State) :
  Schema.ACTION_SCHEMA obj = true ->
  reflection = Null ∨ Schema.REFLECTION_SCHEMA reflection = true ->
  World.places (world st) ≠ [] ->
  mode ≠ "paper" ->
  ∃ st' ms reflections,
    step obj ratings reflection allAgents now mode st = Done st' ∧
    get_prop_opt obj "memories" = Arr ms ∧ (length ms <= 3)%nat ∧
    stored st' =
      stored st ++
      imap (λ j m, proposed_record
                     (snd (nextId "mem" (_idCounter st + N.of_nat j))) now m) ms ++
      reflections ∧
    Forall (λ m, ∃ text importance type,
                   get_prop m "text" = Some (Str text) ∧
                   get_prop_opt m "importance" = Num importance ∧
                   1 <= importance <= 10 ∧
                   get_prop_opt m "type" = Str type ∧
                   type ∈ ["observation"; "action"] ∧
                   forall rid now,
                     proposed_record rid now m =
                     Memory.new_MemoryRecord rid now (str_slice text 0 (Some 280))
                                             importance type) ms ∧
    Forall (λ r, Memory.type r = "reflection" ∧ Memory.importance r = 8 ∧
                 Memory.time r = now) reflections ∧
    importanceSinceReflection (self st') < 26 ∧
    energy (self st') = Util.clamp (energy (self st) - 1) 0 100.
Proof.
  intros Hschema Hrefl Hplaces Hmode.
  destruct obj as [| |b|z|t|s|l|kvs]; try done.
  cbn [Schema.ACTION_SCHEMA] in Hschema.
  apply andb_true_iff in Hschema as [Hschema Hmem].
  apply andb_true_iff in Hschema as [Hschema Hutt].
  apply andb_true_iff in Hschema as [Hschema Htarget].
  apply andb_true_iff in Hschema as [_ Haction].
  destruct (own_prop kvs "memories") as [| |?|?|?|?|ms|?] eqn:Hms; try done.
  apply andb_true_iff in Hmem as [Hlen%Nat.leb_le Hitems].
  assert (Hall : Forall (λ m, Schema.memory_item m = true) ms).
  { apply Forall_forall. intros m Hm%list_elem_of_In.
    by apply (proj1 (forallb_forall _ _) Hitems). }
  assert (Hgetms : get_prop_opt (Obj kvs) "memories" = Arr ms).
  { unfold get_prop_opt. cbn [get_prop default]. exact Hms. }
  destruct (store_memories_fast mode ratings now ms 0 (thinking (Obj kvs) st) Hmode)
    as (st1 & Hst1 & Hstored1).
  { eapply Forall_impl; [exact Hall|]. intros m Hm.
    destruct (memory_item_fields m Hm) as (? & ? & ? & _ & _ & _ & _ & _ & ->).
    eauto. }
  destruct (thinking_frame (Obj kvs) st) as (Hs0 & Hc0 & Hw0 & _).
  destruct (store_memories_spec mode ratings now ms 0 (thinking (Obj kvs) st))
    as (_ & _ & _ & _ & _ & _ & Hw1 & _).
  cbv zeta in Hw1. rewrite Hst1 in Hw1. cbn [outcome_state] in Hw1.
  set (perception := World.perceive (world st) (after_move (self st)) allAgents).
  assert (Hstep : step (Obj kvs) ratings reflection allAgents now mode st =
                  execute_action (Obj kvs) reflection perception now st1).
  { rewrite step_truthy by done. unfold remembering. rewrite Hgetms, Hst1. done. }
  destruct (execute_action_cases (Obj kvs) reflection perception now st1)
    as [(_ & [Hnone|[Hnone|[_ Hnone]]])
       |(target & utterance & acted & _ & _ & Hexec & Hacted)].
  { unfold target_of, get_prop_opt in Hnone. cbn [get_prop default] in Hnone.
    unfold Datatypes.id in Hnone. destruct (trim_val_string _ Htarget) as [? Hsome]. congruence. }
  { unfold utterance_of, get_prop_opt in Hnone. cbn [get_prop default] in Hnone.
    unfold Datatypes.id in Hnone. destruct (trim_val_string _ Hutt) as [? Hsome]. congruence. }
  { rewrite Hw1, Hw0 in Hnone. done. }
  destruct (acts_frame _ _ _ _ _ _ _ Hacted) as (Hsa & Hca & _).
  destruct (maybeReflect_returns reflection now (drift acted)
              (reflection_schema_insights _ Hrefl)) as (st' & Hdone).
  destruct (maybeReflect_frame reflection now (drift acted))
    as ((reflections & (Hs' & _) & _ & Hall') & _).
  cbv zeta in *. rewrite Hdone in Hs'. cbn [outcome_state] in *.
  assert (Hfinal : step (Obj kvs) ratings reflection allAgents now mode st = Done st')
    by (by rewrite Hstep, Hexec).
  destruct (step_frame (Obj kvs) ratings reflection allAgents now mode st)
    as (_ & _ & _ & _ & _ & _ & _ & _ & _ & _ & Hsettled).
  cbv zeta in Hsettled. rewrite Hfinal in Hsettled.
  destruct (Hsettled eq_refl eq_refl) as [Hlt Hen].
  exists st', ms, reflections. split_and!; try done.
  - rewrite Hs'. change (stored (drift acted)) with (stored acted).
    rewrite Hsa, Hstored1, Hs0, Hc0. by rewrite <- app_assoc.
  - eapply Forall_impl; [exact Hall|]. apply memory_item_spec.
Qed.

Lemma conforming_decision_is_carried_out_witness :
  ∃ st' ms reflections,
    step Samples3.decision_to_move (λ _, EmptyString) Samples3.two_insights
         [Samples.isabella] Samples.first_tick "fast" Samples.start = Done st' ∧
    stored st' =
      stored Samples.start ++
      imap (λ j m, proposed_record
                     (snd (nextId "mem" (_idCounter Samples.start + N.of_nat j)))
                     Samples.first_tick m) ms ++
      reflections ∧
    importanceSinceReflection (self st') < 26.
Proof.
  destruct (conforming_decision_is_carried_out Samples3.decision_to_move
              Samples3.two_insights (λ _, EmptyString) [Samples.isabella]
              Samples.first_tick "fast" Samples.start)
    as (st' & ms & reflections & Hd & _ & _ & Hs & _ & _ & Hlt & _).
  - reflexivity.
  - right. reflexivity.
  - discriminate.
  - discriminate.
  - exists st', ms, reflections. done.
Defined.

(** *** Ratings and identifiers *)

Lemma chars_all_app (p : ascii -> bool) (s s' : string) :
  Stream.chars_all p (s +:+ s') ↔ Stream.chars_all p s ∧ Stream.chars_all p s'.
Proof.
  induction s as [|c s IH].
  - cbn. split; [intros ?; split; [constructor|done]|by intros [_ ?]].
  - change (String c s +:+ s') with (String c (s +:+ s')).
    rewrite !StreamFacts.chars_all_cons, IH. tauto.
Qed.

Lemma leading_digits_all (s : string) :
  leading_digits s = s ↔ Stream.chars_all is_digit s.
Proof.
  induction s as [|c s IH]; [split; [constructor|done]|].
  rewrite StreamFacts.chars_all_cons. cbn [leading_digits].
  destruct (is_digit c); [|split; [done|by intros [? _]]].
  rewrite <- IH. split; [by intros [= ->]|by intros [_ ->]].
Qed.

Lemma pretty_N_digits (n : N) :
  pretty n ≠ EmptyString ∧ Stream.chars_all is_digit (pretty n) ∧
  digits_value 0 (pretty n) = Z.of_N n.
Proof.
  unfold pretty, pretty_N. destruct (decide (n = 0)%N) as [->|Hn].
  { split_and!; [done| |done]. apply StreamFacts.chars_all_cons.
    split; [done|constructor]. }
  split_and!.
  - rewrite pretty_N_go_step by lia. by apply AgentFacts.pretty_go_nonempty.
  - apply leading_digits_all. by apply AgentFacts.leading_digits_pretty_go.
  - by rewrite AgentFacts.digits_value_pretty_go.
Qed.

Lemma match_digits_skip (before s : string) :
  Stream.chars_all (λ c, negb (is_digit c)) before ->
  match_digits (before +:+ s) = match_digits s.
Proof.
  induction before as [|c before IH]; [done|].
  intros [Hc Hb]%StreamFacts.chars_all_cons.
  change (String c before +:+ s) with (String c (before +:+ s)).
  cbn [match_digits]. apply negb_true_iff in Hc. rewrite Hc. by apply IH.
Qed.

Lemma match_digits_none (s : string) :
  Stream.chars_all (λ c, negb (is_digit c)) s -> match_digits s = None.
Proof.
  induction s as [|c s IH]; [done|].
  intros [Hc Hs]%StreamFacts.chars_all_cons.
  cbn [match_digits]. apply negb_true_iff in Hc. rewrite Hc. by apply IH.
Qed.

Lemma leading_digits_app (ds after : string) :
  Stream.chars_all is_digit ds -> starts_with_digit after = false ->
  leading_digits (ds +:+ after) = ds.
Proof.
  intros Hds Hafter. induction ds as [|c ds IH].
  - destruct after as [|c after]; [done|].
    change ("" +:+ String c after) with (String c after).
    cbn [leading_digits starts_with_digit] in *. by rewrite Hafter.
  - apply StreamFacts.chars_all_cons in Hds as [Hc Hds].
    change (String c ds +:+ after) with (String c (ds +:+ after)).
    cbn [leading_digits]. rewrite Hc. f_equal. by apply IH.
Qed.

(** X27.  The rating of paper mode is the first number in the reply, whatever
    surrounds it: for a reply that has the decimal digits of [n] after
    text without a digit (a sign, say), and then no further digit right
    after them, the rating is [n] clamped to [1 .. 10].  A reply without
    any digit is rated 3. *)
Theorem rating_is_the_first_number (before after : string) (n : N) :
  Stream.chars_all (λ c, negb (is_digit c)) before ->
  starts_with_digit after = false ->
  _rateImportancePaperStyle (before +:+ pretty n +:+ after) =
    Util.clamp (Z.of_N n) 1 10 /\
  _rateImportancePaperStyle before = 3.
Proof.
  intros Hbefore Hafter.
  destruct (pretty_N_digits n) as (Hne & Hdigits & Hvalue).
  unfold _rateImportancePaperStyle. split.
  - rewrite match_digits_skip by done.
    destruct (pretty n) as [|c ds] eqn:Hp; [done|].
    change (String c ds +:+ after) with (String c (ds +:+ after)).
    pose proof Hdigits as [Hc Hds]%StreamFacts.chars_all_cons.
    cbn [match_digits]. rewrite Hc.
    change (String c (ds +:+ after)) with (String c ds +:+ after).
    rewrite leading_digits_app by done. by rewrite Hvalue.
  - by rewrite match_digits_none.
Qed.

Lemma rating_is_the_first_number_witness :
  _rateImportancePaperStyle "I would rate it -12 out of 10" = 10 /\
  _rateImportancePaperStyle "I would rate it -" = 3.
Proof.
  apply (rating_is_the_first_number "I would rate it -" " out of 10" 12).
  - unfold Stream.chars_all. cbn [list_ascii_of_string].
    repeat constructor.
  - reflexivity.
Defined.

Lemma underscore_splits (p p' d d' : string) :
  Stream.chars_all is_digit d -> Stream.chars_all is_digit d' ->
  p +:+ "_" +:+ d = p' +:+ "_" +:+ d' -> p = p' ∧ d = d'.
Proof.
  intros Hd Hd'.
  assert (Hcontra : forall q e e', Stream.chars_all is_digit e ->
                      e = q +:+ "_" +:+ e' -> False).
  { intros q e e' He ->. apply chars_all_app in He as [_ He].
    by apply StreamFacts.chars_all_cons in He as [? _]. }
  revert p'. induction p as [|c p IH]; intros [|c' p'] Heq.
  - by injection Heq.
  - injection Heq as <- Heq. by destruct (Hcontra p' d d' Hd).
  - injection Heq as -> Heq. by destruct (Hcontra p d' d Hd').
  - injection Heq as -> Heq. destruct (IH p' Heq) as [-> ->]. done.
Qed.

Lemma nextId_inj (prefix prefix' : string) (c c' : N) :
  snd (nextId prefix c) = snd (nextId prefix' c') -> prefix = prefix' ∧ c = c'.
Proof.
  unfold nextId. cbn [snd]. intros Heq.
  destruct (pretty_N_digits (c + 1)) as (_ & Hd & _).
  destruct (pretty_N_digits (c' + 1)) as (_ & Hd' & _).
  destruct (underscore_splits _ _ _ _ Hd Hd' Heq) as [-> Hp].
  apply (inj pretty) in Hp. split; [done|lia].
Qed.

Lemma numbered_NoDup (c : N) (prefixes : list string) : NoDup (numbered c prefixes).
Proof.
  unfold numbered. apply NoDup_alt. intros i j rid Hi Hj.
  apply list_lookup_imap_Some in Hi as (p & _ & ->).
  apply list_lookup_imap_Some in Hj as (p' & _ & Heq).
  apply nextId_inj in Heq as [_ Heq]. lia.
Qed.

(** [nextId] never returns the same identifier twice: two calls agree
    only when the prefix and the counter were the same, so the ids drawn
    from a counter one after the other, whatever the prefixes, are all
    different. *)
Lemma nextId_is_injective (prefix prefix' : string) (c c' : N)
    (prefixes : list string) :
  (snd (nextId prefix c) = snd (nextId prefix' c') ↔ prefix = prefix' ∧ c = c') /\
  fst (nextId prefix c) = (c + 1)%N /\
  NoDup (numbered c prefixes).
Proof.
  split; [|split; [done|apply numbered_NoDup]].
  split; [apply nextId_inj|by intros [-> ->]].
Qed.

End CycleFacts.

(** ** The simulation loop *)

Module SimFacts.
Import Sim.

Lemma record_ids_insert (l : list AgentState.t) (i : nat) (a a' : AgentState.t)
    (new : list Memory.MemoryRecord) :
  l !! i = Some a ->
  Memory.records (AgentState.memory a') = Memory.records (AgentState.memory a) ++ new ->
  (<[i := a']> l ≫= λ a, Memory.id <$> Memory.records (AgentState.memory a))
  ≡ₚ (l ≫= λ a, Memory.id <$> Memory.records (AgentState.memory a))
     ++ (Memory.id <$> new).
Proof.
  intros Hi Hnew. revert i Hi. induction l as [|b l IH]; intros [|i] Hi; try done.
  - injection Hi as ->. cbn [insert list_insert]. rewrite !bind_cons, Hnew, fmap_app.
    rewrite <- !app_assoc. f_equiv. apply Permutation_app_comm.
  - cbn [insert list_insert]. rewrite !bind_cons, <- app_assoc. f_equiv.
    by apply IH.
Qed.

Lemma issued_mono (c c' : N) (rid : string) :
  (c <= c')%N -> issued c rid -> issued c' rid.
Proof. intros Hle (p & k & Hk & ->). exists p, k. split; [lia|done]. Qed.

Lemma numbered_issued (c : N) (prefixes : list string) (rid : string) :
  rid ∈ Cycle.numbered c prefixes ->
  ∃ prefix j, (j < length prefixes)%nat ∧
              rid = snd (Agent.nextId prefix (c + N.of_nat j)).
Proof.
  unfold Cycle.numbered. intros (j & p & -> & Hj)%elem_of_lookup_imap.
  exists p, j. split; [by eapply lookup_lt_Some|done].
Qed.

(** A method of agent [i] that only appends numbered records keeps the
    ids apart. *)
Lemma leave_ids_in_order (sim : t) (i : nat) (a : AgentState.t) (st' : Agent.State)
    (new : list Memory.MemoryRecord) :
  agents sim !! i = Some a -> Cycle.appended_or_skipped (enter sim a) st' new ->
  ids_in_order sim -> ids_in_order (leave i st' sim).
Proof.
  intros Hi (Hs & [prefixes Hps] & Hc) [Hnodup Hissued].
  cbn [enter Agent._idCounter] in Hps, Hc.
  assert (Hlen : length prefixes = length new).
  { by rewrite <- (CycleFacts.numbered_length (_idCounter sim)),
      <- Hps, length_fmap. }
  assert (Hperm : record_ids (leave i st' sim)
                  ≡ₚ record_ids sim ++ Cycle.numbered (_idCounter sim) prefixes).
  { unfold record_ids. cbn [agents leave]. rewrite <- Hps.
    by apply (record_ids_insert _ _ a). }
  split.
  - rewrite Hperm. apply NoDup_app. split_and!; [done| |apply CycleFacts.numbered_NoDup].
    intros rid Hold (p' & j & _ & Hrid)%numbered_issued.
    apply (proj1 (Forall_forall _ _) Hissued) in Hold as (p & k & Hk & ->).
    apply CycleFacts.nextId_inj in Hrid as [_ ->]. lia.
  - rewrite Hperm. cbn [_idCounter leave].
    apply Forall_app. split.
    + eapply Forall_impl; [exact Hissued|]. intros rid. apply issued_mono.
      destruct Hc as [Hc|Hc]; rewrite Hc; lia.
    + apply Forall_forall. intros rid (p & j & Hj & ->)%numbered_issued.
      exists p, (_idCounter sim + N.of_nat j)%N. split; [|done].
      destruct Hc as [Hc|Hc]; rewrite Hc; lia.
Qed.

Lemma leave_grown (sim : t) (i : nat) (a : AgentState.t) (st' : Agent.State) :
  agents sim !! i = Some a -> grown a (Agent.self st') ->
  Forall2 grown (agents sim) (agents (leave i st' sim)).
Proof.
  intros Hi Hgrown. cbn [agents leave].
  apply Forall2_same_length_lookup. split; [by rewrite length_insert|].
  intros j b b' Hb Hb'. destruct (decide (j = i)) as [->|Hne].
  - rewrite list_lookup_insert_eq in Hb' by (by eapply lookup_lt_Some).
    injection Hb' as <-. congruence.
  - rewrite list_lookup_insert_ne in Hb' by done.
    assert (b' = b) as -> by congruence. by split.
Qed.

Lemma grown_refl (l : list AgentState.t) : Forall2 grown l l.
Proof. apply Forall2_same_length_lookup. split; [done|]. intros i a a' ? ?.
       assert (a' = a) as -> by congruence. by split. Qed.

Lemma grown_trans (l l' l'' : list AgentState.t) :
  Forall2 grown l l' -> Forall2 grown l' l'' -> Forall2 grown l l''.
Proof.
  intros H1 H2. eapply Forall2_trans; [|exact H1|exact H2].
  intros a a' a'' [Hk Hp] [Hk' Hp']. split; [congruence|by etrans].
Qed.

Lemma kept_refl (sim : t) : kept sim sim.
Proof. split_and!; try done. apply grown_refl. Qed.

Lemma kept_trans (sim sim' sim'' : t) :
  kept sim sim' -> kept sim' sim'' -> kept sim sim''.
Proof.
  intros (Ha & Hp & Hw & Hh & Hl & Hc & Ht & Hi)
         (Ha' & Hp' & Hw' & Hh' & Hl' & Hc' & Ht' & Hi').
  split_and!; try congruence.
  - by eapply grown_trans.
  - by etrans.
  - lia.
  - auto.
Qed.

(** The step of agent [i], whether it returns or raises. *)
Lemma step_kept (r : Replies) (mode : string) (i : nat) (a : AgentState.t) (sim : t) :
  agents sim !! i = Some a ->
  kept sim
    (leave i (outcome_state
                (Agent.step (decision r) (ratings r) (reflection r) (agents sim)
                            (simTime sim) mode (enter sim a))) sim).
Proof.
  intros Hi.
  destruct (CycleFacts.step_frame (decision r) (ratings r) (reflection r)
              (agents sim) (simTime sim) mode (enter sim a))
    as ((new & Happ & _) & Hk & _ & _ & Hp & Hw & Hh & Hl & _).
  cbv zeta in *.
  set (st' := outcome_state (Agent.step _ _ _ _ _ _ _)) in *.
  pose proof Happ as (Hs & _ & Hc).
  split_and!; try done.
  - apply (leave_grown _ _ a); [done|]. split; [done|].
    unfold Cycle.stored in Hs. cbn [enter Agent.self] in Hs.
    rewrite Hs. by apply prefix_app_r.
  - cbn [_idCounter leave]. destruct Hc as [Hc|Hc]; rewrite Hc; cbn; lia.
  - by apply (leave_ids_in_order _ _ a _ new).
Qed.

Lemma turns_kept (replies : nat -> Replies) (mode : string) (indices : list nat)
    (sim : t) :
  kept sim (outcome_state (turns replies mode indices sim)).
Proof.
  revert sim. induction indices as [|i indices IH]; intros sim;
    [apply kept_refl|].
  cbn [turns]. destruct (agents sim !! i) as [a|] eqn:Hi; [|apply IH].
  pose proof (step_kept (replies i) mode i a sim Hi) as Hstep.
  destruct (Agent.step _ _ _ _ _ _ _) as [st|st]; cbn [outcome_state] in *.
  - eapply kept_trans; [exact Hstep|apply IH].
  - exact Hstep.
Qed.

Lemma initialize_kept (i : nat) (a : AgentState.t) (sim : t) :
  agents sim !! i = Some a ->
  kept sim (leave i (Cycle.initialize (simTime sim) (enter sim a)) sim).
Proof.
  intros Hi. unfold Cycle.initialize.
  destruct (CycleFacts.appended_seed (simTime sim) (enter sim a)) as (new & Happ).
  destruct (CycleFacts.seeds_are_stored_aux (simTime sim) (enter sim a))
    as (_ & _ & Hw & Hself).
  cbv zeta in *.
  set (st := Agent.seedInitialMemories (simTime sim) (enter sim a)) in *.
  pose proof Happ as (Hs & _ & Hc).
  split_and!.
  - apply (leave_grown _ _ a); [done|]. cbn [Agent.self Agent.set_world]. split.
    + rewrite Hself. done.
    + unfold Cycle.stored in Hs. cbn [enter Agent.self] in Hs.
      rewrite Hs. by apply prefix_app_r.
  - cbn. by rewrite Hw.
  - cbn. by rewrite Hw.
  - cbn. by rewrite Hw.
  - cbn [world leave Agent.world Agent.set_world World.logEvent World.push_log
           World.log]. rewrite Hw. by apply prefix_app_r.
  - cbn [_idCounter leave Agent.set_world Agent._idCounter]. rewrite Hc. cbn. lia.
  - done.
  - apply (leave_ids_in_order _ _ a _ new); [done|].
    apply CycleFacts.appended_skipped.
    eapply CycleFacts.appended_same; [exact Happ|done|done].
Qed.

Lemma initialize_all_kept (sim : t) : kept sim (initialize_all sim).
Proof.
  unfold initialize_all. generalize (seq 0 (length (agents sim))). intros indices.
  revert sim. induction indices as [|i indices IH]; intros sim; [apply kept_refl|].
  cbn [foldl]. destruct (agents sim !! i) as [a|] eqn:Hi; [|apply IH].
  eapply kept_trans; [by apply initialize_kept|apply IH].
Qed.

Lemma cleanup_kept (now keepMinutes : Z) (sim : t) :
  kept sim (set_world (World.cleanupOldChat now keepMinutes (world sim)) sim).
Proof. split_and!; try done. apply grown_refl. Qed.

Lemma tickOnce_kept (replies : nat -> Replies) (mode : string) (sim : t) :
  let sim' := outcome_state (tickOnce replies mode sim) in
  Forall2 grown (agents sim) (agents sim') ∧
  World.places (world sim') = World.places (world sim) ∧
  World.width (world sim') = World.width (world sim) ∧
  World.height (world sim') = World.height (world sim) ∧
  World.log (world sim) `prefix_of` World.log (world sim') ∧
  (_idCounter sim <= _idCounter sim')%N ∧
  simTime sim' = (if bool_decide (agents sim = []) then simTime sim
                  else simTime sim + 600000) ∧
  (ids_in_order sim -> ids_in_order sim').
Proof.
  intros sim'. subst sim'. unfold tickOnce.
  case_bool_decide as Hempty.
  { cbn [outcome_state]. apply kept_refl. }
  set (sim0 := set_simTime _ sim).
  pose proof (turns_kept replies mode (seq 0 (length (agents sim0))) sim0)
    as (Ha & Hp & Hw & Hh & Hl & Hc & Ht & Hi).
  assert (Htime : simTime sim0 = simTime sim + 600000) by done.
  destruct (turns replies mode _ sim0) as [sim1|sim1];
    cbn [bind outcome_state] in *.
  - split; [exact Ha|]. split; [exact Hp|]. split; [exact Hw|].
    split; [exact Hh|]. split; [exact Hl|]. split; [exact Hc|].
    split; [by rewrite <- Htime|]. exact Hi.
  - split; [exact Ha|]. split; [exact Hp|]. split; [exact Hw|].
    split; [exact Hh|]. split; [exact Hl|]. split; [exact Hc|].
    split; [by rewrite <- Htime|]. exact Hi.
Qed.

(** X28.  A tick keeps the roster, whatever the gateway answers and whether
    the tick completes or a step raises: the agents are as many as
    before and in the same order, each with the fields of its
    constructor unchanged and with the records it had in front of its
    new ones.  The places and the size of the world are as they were
    and the event log has only grown, the counter of ids has not gone
    back, and the clock has advanced by ten minutes, unless there is no
    agent, when nothing happens at all. *)
Theorem tick_keeps_the_roster (replies : nat -> Replies) (mode : string) (sim : t) :
  let sim' := outcome_state (tickOnce replies mode sim) in
  Forall2 grown (agents sim) (agents sim') /\
  World.places (world sim') = World.places (world sim) /\
  World.width (world sim') = World.width (world sim) /\
  World.height (world sim') = World.height (world sim) /\
  World.log (world sim) `prefix_of` World.log (world sim') /\
  (_idCounter sim <= _idCounter sim')%N /\
  simTime sim' = (if bool_decide (agents sim = []) then simTime sim
                  else simTime sim + 600000) /\
  (agents sim = [] -> tickOnce replies mode sim = Done sim).
Proof.
  intros sim'.
  destruct (tickOnce_kept replies mode sim) as (Ha & Hp & Hw & Hh & Hl & Hc & Ht & _).
  split_and!; try done.
  intros Hempty. unfold tickOnce. by rewrite bool_decide_eq_true_2.
Qed.

Lemma fresh_no_ids (roster : list AgentState.t) :
  Forall fresh roster ->
  (roster ≫= λ a, Memory.id <$> Memory.records (AgentState.memory a)) = [].
Proof.
  induction 1 as [|a roster Ha _ IH]; [done|].
  rewrite bind_cons, IH. unfold fresh in Ha. by rewrite Ha.
Qed.

Lemma reachable_ids_in_order (sim : t) : reachable sim -> ids_in_order sim.
Proof.
  induction 1 as [counter roster time Hfresh|sim replies mode _ IH].
  - unfold resetSim.
    destruct (initialize_all_kept
                {| _idCounter := counter; world := World.new_World 32 32;
                   agents := roster; simTime := time |})
      as (_ & _ & _ & _ & _ & _ & _ & Hids).
    apply Hids. unfold ids_in_order, record_ids. cbn [agents].
    rewrite fresh_no_ids by done. split; constructor.
  - destruct (tickOnce_kept replies mode sim) as (_ & _ & _ & _ & _ & _ & _ & Hids).
    by apply Hids.
Qed.

(** X29.  Record ids are unique across the simulation.  After a reset and any
    number of ticks, whatever the gateway answered, no two records of
    any two agents carry the same id, and every id was issued by
    [nextId] at a counter below the present one: so the ids to come are
    new as well. *)
Theorem record_ids_are_unique (sim : t) :
  reachable sim ->
  NoDup (record_ids sim) /\ Forall (issued (_idCounter sim)) (record_ids sim).
Proof. apply reachable_ids_in_order. Qed.

Lemma record_ids_are_unique_witness :
  let sim := outcome_state
               (tickOnce silence "fast"
                  (resetSim 0 [Samples.isabella; Samples.klaus] Samples.day_start)) in
  NoDup (record_ids sim) /\ Forall (issued (_idCounter sim)) (record_ids sim).
Proof.
  apply (record_ids_are_unique
           (outcome_state
              (tickOnce silence "fast"
                 (resetSim 0 [Samples.isabella; Samples.klaus] Samples.day_start)))).
  apply reachable_tick, reachable_reset. by repeat constructor.
Defined.

(** X30.  After a tick that completes, no message in any chat log is older
    than two hours of simulated time: the clean-up runs at the end of
    every such tick, with the new time. *)
Theorem chat_is_fresh_after_tick (replies : nat -> Replies) (mode : string)
    (sim sim' : t) :
  tickOnce replies mode sim = Done sim' -> agents sim ≠ [] ->
  forall pid arr m,
    World.chatByPlace (world sim') !! pid = Some arr -> m ∈ arr ->
    simTime sim' - 120 * 60 * 1000 <= World.msg_time m.
Proof.
  intros Hd Hne pid arr m Harr Hm. unfold tickOnce in Hd.
  rewrite bool_decide_eq_false_2 in Hd by done. cbv zeta in Hd.
  destruct (turns replies mode _ _) as [sim1|sim1]; [|done].
  cbn [bind] in Hd. injection Hd as <-.
  cbn [world set_world simTime] in *.
  rewrite WorldOpsFacts.cleanup_lookup in Harr.
  apply fmap_Some in Harr as (arr0 & _ & ->).
  apply list_elem_of_In, filter_In in Hm as [_ Hm%Z.leb_le]. done.
Qed.

(** The cafe holds a message of three hours ago and one of the start of
    the day; after the first tick the second one is all that is left,
    and it is ten minutes old. *)
Lemma chat_is_fresh_after_tick_witness :
  let sim' := outcome_state (tickOnce silence "fast" Samples4.with_chat) in
  World.chatByPlace (world sim') !! "hobbs" = Some [Samples4.fresh_message] /\
  simTime sim' - 120 * 60 * 1000 <= World.msg_time Samples4.fresh_message.
Proof.
  split; [vm_compute; reflexivity|].
  refine (chat_is_fresh_after_tick silence "fast" Samples4.with_chat
            (outcome_state (tickOnce silence "fast" Samples4.with_chat))
            _ _ "hobbs" [Samples4.fresh_message] Samples4.fresh_message _ _).
  - vm_compute. reflexivity.
  - vm_compute. discriminate.
  - vm_compute. reflexivity.
  - apply list_elem_of_here.
Defined.

End SimFacts.
